(** * polymer-analyzer: the [Analysis] index of [src/analysis.ts]

    A shallow embedding of [analysis.ts]: the descriptor forest and its
    walker, the two gatherers, behavior flattening, [mergeByName],
    [resolveElement], the [Analysis] constructor with its query methods and
    [Analysis.validate], followed by the properties proved about them.

    Conventions of the embedding
    - JS object references are locations ([loc]); element and behavior
      descriptors live in a [Store], so that identity-keyed [Map]s and
      [Set]s compare locations and a clone is a fresh location.
    - A JS [Map] or [Set] whose iteration order is observed is an
      insertion-ordered association list ([map_set], [set_add]); one that is
      only probed with [get]/[has] is a [gmap].
    - A JS string is a [string]; [s.length] is [String.length],
      [s.startsWith(p)] is [String.prefix p s].
    - [throw] is the [Throw] outcome of a small error monad. *)

From stdpp Require Import base option list gmap strings pretty fin_maps.
From Stdlib Require Import Ascii ZArith Lia.

(** ** Outcomes: normal return, a thrown error, or a stuck model *)

Definition loc := nat.

Inductive DescriptorKind := KElement | KBehavior.

(** The [Error]s thrown by [analysis.ts], one constructor per [throw]. *)
Inductive Error :=
| UnableToDeterminePath (kind : DescriptorKind) (descriptor : loc)
| DistinctPaths (descriptor : loc) (path recorded : string)
| UnknownDescriptorKind (inspected : string)
| UnresolvedBehavior (behaviorName : string)
| TypeError (reading : string).

(** [Stuck] is not a JS outcome: it marks a run of the model that left the
    domain of JS heaps (a location that denotes no object) or exhausted the
    recursion budget of [_getFlattenedAndResolvedBehaviors]. *)
Inductive Outcome (A : Type) :=
| Ok (a : A)
| Throw (e : Error)
| Stuck.
Arguments Ok {A} a.
Arguments Throw {A} e.
Arguments Stuck {A}.

Definition bind {A B} (m : Outcome A) (k : A -> Outcome B) : Outcome B :=
  match m with
  | Ok a => k a
  | Throw e => Throw e
  | Stuck => Stuck
  end.

Notation "x <- m ;; k" := (bind m (fun x => k))
  (at level 100, m at next level, right associativity).

(** [for (const x of xs) body(x)] over a threaded state. *)
Section ForEach.
Context {A S : Type} (body : A -> S -> Outcome S).

Fixpoint forEach (xs : list A) (s : S) : Outcome S :=
  match xs with
  | [] => Ok s
  | x :: xs' => s' <- body x s ;; forEach xs' s'
  end.
End ForEach.

(** ** JS values *)

(** Truthiness of a string: [''] is falsy. *)
Definition truthy (s : string) : bool :=
  match s with EmptyString => false | _ => true end.

(** ** Insertion-ordered [Map] and [Set] *)

Section JsMap.
Context {K V : Type} `{EqDecision K}.

(** [m.set(k, v)]: an existing key keeps its position. *)
Fixpoint map_set (m : list (K * V)) (k : K) (v : V) : list (K * V) :=
  match m with
  | [] => [(k, v)]
  | (k', v') :: m' =>
      if decide (k' = k) then (k, v) :: m' else (k', v') :: map_set m' k v
  end.

Fixpoint map_get (m : list (K * V)) (k : K) : option V :=
  match m with
  | [] => None
  | (k', v') :: m' => if decide (k' = k) then Some v' else map_get m' k
  end.

Definition map_has (m : list (K * V)) (k : K) : bool :=
  match map_get m k with Some _ => true | None => false end.

(** [Array.from(m.values())] *)
Definition map_values (m : list (K * V)) : list V := m.*2.

Definition map_keys (m : list (K * V)) : list K := m.*1.
End JsMap.

Section JsSet.
Context {K : Type} `{EqDecision K}.

Definition set_has (s : list K) (k : K) : bool := bool_decide (k ∈ s).

(** [s.add(k)]: appended unless present. *)
Definition set_add (s : list K) (k : K) : list K :=
  if set_has s k then s else s ++ [k].
End JsSet.

(** ** Named items and [mergeByName] *)

(** [T extends {name: string, inheritedFrom?: string}]; [detail] stands for
    the item's remaining own fields. *)
Record Item := mkItem {
  name : string;
  inheritedFrom : option string;
  detail : string
}.

#[global] Instance Item_eq_dec : EqDecision Item.
Proof. solve_decision. Defined.

(** [{name: string, vals: T[]}]; the caller passes [b.className], which may
    be absent. *)
Record Source := mkSource {
  source_name : option string;
  vals : list Item
}.

(** [const copy = Object.assign({}, item); copy.inheritedFrom = source.name] *)
Definition annotate (source : Source) (item : Item) : Item :=
  {| name := name item;
     inheritedFrom := source_name source;
     detail := detail item |}.

Definition mergeBase (byName : list (string * Item)) (base : list Item)
  : list (string * Item) :=
  foldl (fun byName initial => map_set byName (name initial) initial)
        byName base.

Definition mergeItem (source : Source) (byName : list (string * Item))
  (item : Item) : list (string * Item) :=
  if map_has byName (name item) then byName
  else let copy := annotate source item in map_set byName (name copy) copy.

Definition mergeSource (byName : list (string * Item)) (source : Source)
  : list (string * Item) :=
  foldl (mergeItem source) byName (vals source).

Definition mergeByName (base : list Item) (inheritFrom : list Source)
  : list Item :=
  let byName := mergeBase [] base in
  let byName := foldl mergeSource byName inheritFrom in
  map_values byName.

(** ** Descriptors *)

(** [string | BehaviorDescriptor]: an entry of a [behaviors] list. *)
Inductive BehaviorRef :=
| ByName (behaviorName : string)
| Direct (behavior : loc).

(** The class of an element object, as [instanceof] sees it.  A clone made
    by [resolveElement] starts from [{}] and is a plain object. *)
Inductive ElementClass :=
| PlainObject
| ElementDescriptorClass
| PolymerElementDescriptorClass.

#[global] Instance ElementClass_eq_dec : EqDecision ElementClass.
Proof. solve_decision. Defined.

(** [ElementDescriptor] / [PolymerElementDescriptor] objects; [e_other]
    stands for every own field that [analysis.ts] does not name. *)
Record ElementObj := mkElementObj {
  e_class : ElementClass;
  tagName : option string;
  e_properties : list Item;
  e_attributes : list Item;
  e_events : list Item;
  e_behaviors : list BehaviorRef;
  e_other : string
}.

Record BehaviorObj := mkBehaviorObj {
  className : option string;
  b_properties : list Item;
  b_attributes : list Item;
  b_events : list Item;
  b_behaviors : list BehaviorRef
}.

(** The heap of descriptor objects. *)
Record Store := mkStore {
  elementObjects : gmap loc ElementObj;
  behaviorObjects : gmap loc BehaviorObj
}.

(** [dd.document]: only its class and [url] are read. *)
Record Document := mkDocument {
  isJsonDocument : bool;
  document_url : string
}.

Record ImportDescriptor := mkImportDescriptor {
  import_url : string
}.

(** Modelled from the spec: the descriptor classes are declared in
    [ast/ast.ts] and [polymer/*.ts], which are not among the sources.  The
    forest has the five classes the walker tells apart, with the fields
    [analysis.ts] reads.  [InlineDocumentDescriptor] is read nowhere by
    the walker; it is given contained entities and dependencies here so
    that what the walk does with them can be stated.  [DNull] is a
    [null]/[undefined] entry, which [_walkEntity] skips; [DUnknown] is an
    object of none of the five classes, on which it throws, carrying its
    [util.inspect] rendering. *)
Inductive Descriptor :=
| DDocument (dd : DocumentDescriptor)
| DInlineDocument (idd : InlineDocumentDescriptor)
| DBehavior (behavior : loc)
| DElement (element : loc)
| DImport (importDesc : ImportDescriptor)
| DNull
| DUnknown (inspected : string)
with DocumentDescriptor :=
| mkDocumentDescriptor (url : string) (document : Document)
    (entities : list Descriptor) (dependencies : list Descriptor)
with InlineDocumentDescriptor :=
| mkInlineDocumentDescriptor
    (entities : list Descriptor) (dependencies : list Descriptor).

Definition url (dd : DocumentDescriptor) : string :=
  match dd with mkDocumentDescriptor u _ _ _ => u end.
Definition document (dd : DocumentDescriptor) : Document :=
  match dd with mkDocumentDescriptor _ d _ _ => d end.
Definition entities (dd : DocumentDescriptor) : list Descriptor :=
  match dd with mkDocumentDescriptor _ _ es _ => es end.
Definition dependencies (dd : DocumentDescriptor) : list Descriptor :=
  match dd with mkDocumentDescriptor _ _ _ ds => ds end.
Definition inline_entities (idd : InlineDocumentDescriptor)
  : list Descriptor :=
  match idd with mkInlineDocumentDescriptor es _ => es end.
Definition inline_dependencies (idd : InlineDocumentDescriptor)
  : list Descriptor :=
  match idd with mkInlineDocumentDescriptor _ ds => ds end.

(** ** The [Analysis] object and its query methods *)

Record Analysis := mkAnalysis {
  _descriptors : list DocumentDescriptor;
  _elementsByTagName : list (string * loc);
  _elementsByPackageDir : gmap string (list loc);
  _behaviorsByIdentifierName : gmap string loc;
  _documentsByLocalPath : gmap string DocumentDescriptor
}.

Definition getElement (a : Analysis) (tag : string) : option loc :=
  map_get (_elementsByTagName a) tag.

Definition getElements (a : Analysis) : list loc :=
  map_values (_elementsByTagName a).

Definition getElementsForPackage (a : Analysis) (dirName : string)
  : option (list loc) :=
  _elementsByPackageDir a !! dirName.

Definition getBehavior (a : Analysis) (name : string) : option loc :=
  _behaviorsByIdentifierName a !! name.

Definition getDocument (a : Analysis) (path : string)
  : option DocumentDescriptor :=
  _documentsByLocalPath a !! path.

(** ** Behavior flattening *)

(** [if (typeof behavior === 'string') { behavior = analysis.getBehavior(..);
    if (!behavior) throw ... }] *)
Definition lookupBehavior (analysis : Analysis) (behavior : BehaviorRef)
  : Outcome loc :=
  match behavior with
  | ByName behaviorName =>
      match getBehavior analysis behaviorName with
      | Some b => Ok b
      | None => Throw (UnresolvedBehavior behaviorName)
      end
  | Direct b => Ok b
  end.

(** The recursion of the source is bounded by [fuel], the depth still
    allowed; the inner [loop] is the [for] over [toLookup].
    [resolvedBehaviors] is the shared [Set], threaded through. *)
Fixpoint _getFlattenedAndResolvedBehaviors (fuel : nat) (σ : Store)
  (behaviors : list BehaviorRef) (analysis : Analysis)
  (resolvedBehaviors : list loc) {struct fuel} : Outcome (list loc) :=
  match fuel with
  | O => Stuck
  | S fuel' =>
      (fix loop (toLookup : list BehaviorRef) (resolvedBehaviors : list loc)
         {struct toLookup} : Outcome (list loc) :=
         match toLookup with
         | [] => Ok resolvedBehaviors
         | behavior :: rest =>
             b <- lookupBehavior analysis behavior ;;
             if set_has resolvedBehaviors b then loop rest resolvedBehaviors
             else
               match behaviorObjects σ !! b with
               | None => Stuck
               | Some obj =>
                   resolvedBehaviors' <-
                     _getFlattenedAndResolvedBehaviors fuel' σ
                       (b_behaviors obj) analysis
                       (set_add resolvedBehaviors b) ;;
                   loop rest resolvedBehaviors'
               end
         end) behaviors resolvedBehaviors
  end.

(** Each nested call has added a behavior object of the store to the set,
    so the depth never exceeds the number of behavior objects. *)
Definition flattenFuel (σ : Store) : nat := S (size (behaviorObjects σ)).

Definition getFlattenedAndResolvedBehaviors (σ : Store)
  (behaviors : list BehaviorRef) (analysis : Analysis) : Outcome (list loc) :=
  _getFlattenedAndResolvedBehaviors (flattenFuel σ) σ behaviors analysis [].

(** ** [resolveElement] *)

(** [behaviors.map(b => ({name: b.className, vals: f(b)}))] *)
Definition sourcesOf (σ : Store) (f : BehaviorObj -> list Item)
  (behaviors : list loc) : Outcome (list Source) :=
  forEach (fun b acc =>
             match behaviorObjects σ !! b with
             | Some obj => Ok (acc ++ [mkSource (className obj) (f obj)])
             | None => Stuck
             end) behaviors [].

(** [const clone = {}; for (const key in e) clone[key] = e[key];] followed
    by the three assignments. *)
Definition cloneWith (e : ElementObj) (properties attributes events : list Item)
  : ElementObj :=
  {| e_class := PlainObject;
     tagName := tagName e;
     e_properties := properties;
     e_attributes := attributes;
     e_events := events;
     e_behaviors := e_behaviors e;
     e_other := e_other e |}.

(** A new object is a location outside the store. *)
Definition alloc (σ : Store) (obj : ElementObj) : Store * loc :=
  let l := fresh (dom (elementObjects σ)) in
  (mkStore (<[l := obj]> (elementObjects σ)) (behaviorObjects σ), l).

Definition resolveElement (σ : Store) (elementDescriptor : loc)
  (analysis : Analysis) : Outcome (Store * loc) :=
  match elementObjects σ !! elementDescriptor with
  | None => Stuck
  | Some e =>
      merged <-
        match e_class e with
        | PolymerElementDescriptorClass =>
            behaviors <-
              getFlattenedAndResolvedBehaviors σ (e_behaviors e) analysis ;;
            ps <- sourcesOf σ b_properties behaviors ;;
            as_ <- sourcesOf σ b_attributes behaviors ;;
            es <- sourcesOf σ b_events behaviors ;;
            Ok (mergeByName (e_properties e) ps,
                mergeByName (e_attributes e) as_,
                mergeByName (e_events e) es)
        | _ => Ok (e_properties e, e_attributes e, e_events e)
        end ;;
      let '(properties, attributes, events) := merged in
      Ok (alloc σ (cloneWith e properties attributes events))
  end.

(** ** Visitors and the walker *)

(** [AnalysisVisitor]: every method is optional.  A visitor acts on the
    state [S] shared by the visitors of one walk. *)
Record AnalysisVisitor (S : Type) := mkAnalysisVisitor {
  visitDocumentDescriptor :
    option (DocumentDescriptor -> list Descriptor -> S -> Outcome S);
  visitInlineDocumentDescriptor :
    option (InlineDocumentDescriptor -> list Descriptor -> S -> Outcome S);
  visitElement : option (loc -> list Descriptor -> S -> Outcome S);
  visitBehavior : option (loc -> list Descriptor -> S -> Outcome S);
  visitImportDescriptor :
    option (ImportDescriptor -> list Descriptor -> S -> Outcome S);
  done : option (S -> Outcome S)
}.
Arguments visitDocumentDescriptor {S} _.
Arguments visitInlineDocumentDescriptor {S} _.
Arguments visitElement {S} _.
Arguments visitBehavior {S} _.
Arguments visitImportDescriptor {S} _.
Arguments done {S} _.

Section Walker.
Context {S : Type} (visitors : list (AnalysisVisitor S)).

(** [for (const visitor of visitors) if (visitor.m) visitor.m(node,
    this._ancestors)] *)
Definition broadcast {A : Type}
  (method : AnalysisVisitor S ->
            option (A -> list Descriptor -> S -> Outcome S))
  (node : A) (ancestors : list Descriptor) : S -> Outcome S :=
  forEach (fun visitor s =>
             match method visitor with
             | Some visit => visit node ancestors s
             | None => Ok s
             end) visitors.

Definition _walkInlineDocumentDescriptor (dd : InlineDocumentDescriptor)
  (ancestors : list Descriptor) : S -> Outcome S :=
  broadcast visitInlineDocumentDescriptor dd ancestors.

Definition _walkElement (element : loc) (ancestors : list Descriptor)
  : S -> Outcome S :=
  broadcast visitElement element ancestors.

Definition _walkBehavior (behavior : loc) (ancestors : list Descriptor)
  : S -> Outcome S :=
  broadcast visitBehavior behavior ancestors.

Definition _walkImportDescriptor (importDesc : ImportDescriptor)
  (ancestors : list Descriptor) : S -> Outcome S :=
  broadcast visitImportDescriptor importDesc ancestors.

(** [ancestors] is [this._ancestors] at the call; the push of
    [_walkDocumentDescriptor] extends it for the calls below and its pop
    gives the caller's stack back. *)
Fixpoint _walkEntity (entity : Descriptor) (ancestors : list Descriptor)
  (s : S) {struct entity} : Outcome S :=
  match entity with
  | DNull => Ok s
  | DDocument dd => _walkDocumentDescriptor dd ancestors s
  | DInlineDocument idd => _walkInlineDocumentDescriptor idd ancestors s
  | DBehavior b => _walkBehavior b ancestors s
  | DElement e => _walkElement e ancestors s
  | DImport i => _walkImportDescriptor i ancestors s
  | DUnknown inspected => Throw (UnknownDescriptorKind inspected)
  end
with _walkDocumentDescriptor (dd : DocumentDescriptor)
  (ancestors : list Descriptor) (s : S) {struct dd} : Outcome S :=
  match dd with
  | mkDocumentDescriptor _ _ entities dependencies =>
      let ancestors' := ancestors ++ [DDocument dd] in
      s <- broadcast visitDocumentDescriptor dd ancestors' s ;;
      s <- forEach (fun entity s => _walkEntity entity ancestors' s)
             entities s ;;
      forEach (fun dependency s => _walkEntity dependency ancestors' s)
        dependencies s
  end.

Definition walk (_documents : list DocumentDescriptor) (s : S)
  : Outcome S :=
  s <- forEach (fun descriptor s => _walkDocumentDescriptor descriptor [] s)
         _documents s ;;
  forEach (fun visitor s =>
             match done visitor with
             | Some finish => finish s
             | None => Ok s
             end) visitors s.
End Walker.

(** ** The gatherers *)

(** Node's [path] module is an import of [analysis.ts]; the two functions
    used are parameters of the model. *)
Record Path := mkPath {
  basename : string -> string;
  dirname : string -> string
}.

Definition packageFileNames : list string := ["package.json"; "bower.json"].

Record PackageGatherer := mkPackageGatherer {
  packageDirs : list string
}.

Definition PackageGatherer_visitDocumentDescriptor (path : Path)
  (dd : DocumentDescriptor) (this : PackageGatherer) : PackageGatherer :=
  if isJsonDocument (document dd)
     && set_has packageFileNames (basename path (document_url (document dd)))
  then
    let dirname := dirname path (document_url (document dd)) in
    if negb (set_has (packageDirs this) dirname)
    then mkPackageGatherer (set_add (packageDirs this) dirname)
    else this
  else this.

Record ElementGatherer := mkElementGatherer {
  elementDescriptors : list loc;
  elementPaths : gmap loc string;
  behaviorDescriptors : list loc;
  behaviorPaths : gmap loc string
}.

(** [ancestors.filter(d => d instanceof DocumentDescriptor && d.url)] *)
Definition documentAncestors (ancestors : list Descriptor)
  : list DocumentDescriptor :=
  omap (fun d => match d with
                 | DDocument dd => if truthy (url dd) then Some dd else None
                 | _ => None
                 end) ancestors.

Definition _getPathFromAncestors (ancestors : list Descriptor)
  : option string :=
  let nearestDocument := last (documentAncestors ancestors) in
  url <$> nearestDocument.

Definition ElementGatherer_visitElement (elementDescriptor : loc)
  (ancestors : list Descriptor) (this : ElementGatherer)
  : Outcome ElementGatherer :=
  let elementPath := _getPathFromAncestors ancestors in
  match elementPath with
  | Some elementPath =>
      if negb (truthy elementPath)
      then Throw (UnableToDeterminePath KElement elementDescriptor)
      else
        match elementPaths this !! elementDescriptor with
        | Some recorded =>
            if decide (recorded = elementPath) then Ok this
            else Throw (DistinctPaths elementDescriptor elementPath recorded)
        | None =>
            Ok (mkElementGatherer
                  (elementDescriptors this ++ [elementDescriptor])
                  (<[elementDescriptor := elementPath]> (elementPaths this))
                  (behaviorDescriptors this)
                  (behaviorPaths this))
        end
  | None => Throw (UnableToDeterminePath KElement elementDescriptor)
  end.

Definition ElementGatherer_visitBehavior (behaviorDescriptor : loc)
  (ancestors : list Descriptor) (this : ElementGatherer)
  : Outcome ElementGatherer :=
  let path := _getPathFromAncestors ancestors in
  match path with
  | Some path =>
      if negb (truthy path)
      then Throw (UnableToDeterminePath KBehavior behaviorDescriptor)
      else
        match behaviorPaths this !! behaviorDescriptor with
        | Some recorded =>
            if decide (recorded = path) then Ok this
            else Throw (DistinctPaths behaviorDescriptor path recorded)
        | None =>
            Ok (mkElementGatherer
                  (elementDescriptors this)
                  (elementPaths this)
                  (behaviorDescriptors this ++ [behaviorDescriptor])
                  (<[behaviorDescriptor := path]> (behaviorPaths this)))
        end
  | None => Throw (UnableToDeterminePath KBehavior behaviorDescriptor)
  end.

(** The state of the walk of the constructor: its two visitors. *)
Record Gatherers := mkGatherers {
  packageGatherer : PackageGatherer;
  elementsGatherer : ElementGatherer
}.

Definition newGatherers : Gatherers :=
  mkGatherers (mkPackageGatherer []) (mkElementGatherer [] ∅ [] ∅).

Definition packageGathererVisitor (path : Path) : AnalysisVisitor Gatherers :=
  {| visitDocumentDescriptor :=
       Some (fun dd _ g =>
               Ok (mkGatherers
                     (PackageGatherer_visitDocumentDescriptor path dd
                        (packageGatherer g))
                     (elementsGatherer g)));
     visitInlineDocumentDescriptor := None;
     visitElement := None;
     visitBehavior := None;
     visitImportDescriptor := None;
     done := None |}.

Definition elementGathererVisitor : AnalysisVisitor Gatherers :=
  {| visitDocumentDescriptor := None;
     visitInlineDocumentDescriptor := None;
     visitElement :=
       Some (fun element ancestors g =>
               eg <- ElementGatherer_visitElement element ancestors
                       (elementsGatherer g) ;;
               Ok (mkGatherers (packageGatherer g) eg));
     visitBehavior :=
       Some (fun behavior ancestors g =>
               eg <- ElementGatherer_visitBehavior behavior ancestors
                       (elementsGatherer g) ;;
               Ok (mkGatherers (packageGatherer g) eg));
     visitImportDescriptor := None;
     done := None |}.

(** ** [max] and the constructor *)

(** [arr.reduce((prev, cur) => comparison(prev, cur) > 0 ? prev : cur,
    undefined)] *)
Definition max {T : Type} (arr : list T) (comparison : option T -> T -> Z)
  : option T :=
  foldl (fun prev cur =>
           if (0 <? comparison prev cur)%Z then prev else Some cur)
        None arr.

(** [(a, b) => a != null && a.length - b.length || -1] *)
Definition byLength (a : option string) (b : string) : Z :=
  match a with
  | Some a =>
      let d := (Z.of_nat (String.length a) - Z.of_nat (String.length b))%Z in
      if (d =? 0)%Z then (-1)%Z else d
  | None => (-1)%Z
  end.

(** [x || ''] on an optional string. *)
Definition orEmpty (x : option string) : string :=
  match x with
  | Some s => if truthy s then s else ""
  | None => ""
  end.

(** [Array.from(packageDirs).filter(dir => elementPath.startsWith(dir))]:
    the callback reads [elementPath.startsWith], which throws on an
    undefined path as soon as there is a directory to call it on. *)
Definition matchingPackageDirs (packageDirs : list string)
  (elementPath : option string) : Outcome (list string) :=
  match elementPath with
  | Some elementPath =>
      Ok (List.filter (fun dir => String.prefix dir elementPath) packageDirs)
  | None =>
      match packageDirs with
      | [] => Ok []
      | _ :: _ => Throw (TypeError "startsWith")
      end
  end.

(** [max(matchingPackageDirs, (a, b) => ...) || ''] *)
Definition longestOf (matchingPackageDirs : list string) : string :=
  orEmpty (max matchingPackageDirs byLength).

(** The directory the loop computes for an element recorded at
    [elementPath]. *)
Definition longestMatchingPackageDir (packageDirs : list string)
  (elementPath : string) : string :=
  longestOf
    (List.filter (fun dir => String.prefix dir elementPath) packageDirs).

(** The first loop: [if (behavior.className) this._behaviorsByIdentifierName
    .set(behavior.className, behavior)]. *)
Definition indexBehavior (σ : Store) (behavior : loc)
  (index : gmap string loc) : Outcome (gmap string loc) :=
  match behaviorObjects σ !! behavior with
  | None => Stuck
  | Some obj =>
      match className obj with
      | Some c => if truthy c then Ok (<[c := behavior]> index) else Ok index
      | None => Ok index
      end
  end.

(** The body of the second loop, on the store and [this]. *)
Definition indexElement (pg : PackageGatherer) (eg : ElementGatherer)
  (originalElement : loc) (st : Store * Analysis)
  : Outcome (Store * Analysis) :=
  let '(σ, this) := st in
  r <- resolveElement σ originalElement this ;;
  let '(σ, element) := r in
  match elementObjects σ !! element with
  | None => Stuck
  | Some obj =>
      let byTagName :=
        match tagName obj with
        | Some tag =>
            if truthy tag then map_set (_elementsByTagName this) tag element
            else _elementsByTagName this
        | None => _elementsByTagName this
        end in
      let elementPath := elementPaths eg !! originalElement in
      matchingPackageDirs <-
        matchingPackageDirs (packageDirs pg) elementPath ;;
      let longestMatchingPackageDir := longestOf matchingPackageDirs in
      let elementsInPackage :=
        default [] (_elementsByPackageDir this
                      !! longestMatchingPackageDir) in
      let elementsInPackage := elementsInPackage ++ [element] in
      Ok (σ,
          mkAnalysis (_descriptors this) byTagName
            (<[longestMatchingPackageDir := elementsInPackage]>
               (_elementsByPackageDir this))
            (_behaviorsByIdentifierName this)
            (_documentsByLocalPath this))
  end.

Definition indexDocuments (descriptors : list DocumentDescriptor)
  : gmap string DocumentDescriptor :=
  foldl (fun index dd => <[url dd := dd]> index) ∅ descriptors.

(** [new Analysis(descriptors)], run on store [σ]; it returns the store
    extended with the resolved elements. *)
Definition Analysis_new (path : Path) (σ : Store)
  (descriptors : list DocumentDescriptor) : Outcome (Store * Analysis) :=
  g <- walk [packageGathererVisitor path; elementGathererVisitor]
         descriptors newGatherers ;;
  let packageGatherer := packageGatherer g in
  let elementsGatherer := elementsGatherer g in
  byIdentifierName <-
    forEach (indexBehavior σ) (behaviorDescriptors elementsGatherer) ∅ ;;
  let this := mkAnalysis descriptors [] ∅ byIdentifierName ∅ in
  st <- forEach (indexElement packageGatherer elementsGatherer)
          (elementDescriptors elementsGatherer) (σ, this) ;;
  let '(σ, this) := st in
  Ok (σ,
      mkAnalysis (_descriptors this) (_elementsByTagName this)
        (_elementsByPackageDir this) (_behaviorsByIdentifierName this)
        (indexDocuments descriptors)).

(** ** Error messages *)

Definition backtick : string := String "`"%char EmptyString.

(** The message of each thrown [Error]; [toString] renders a descriptor
    object inside a template literal. *)
Definition message (toString : loc -> string) (e : Error) : string :=
  match e with
  | UnableToDeterminePath KElement d =>
      "Unable to determine path to element: " +:+ toString d
  | UnableToDeterminePath KBehavior d =>
      "Unable to determine path to behavior: " +:+ toString d
  | DistinctPaths d path recorded =>
      "Found element " +:+ toString d +:+ " at distinct paths: "
        +:+ path +:+ " and " +:+ recorded
  | UnknownDescriptorKind inspected =>
      "Unknown kind of descriptor: " +:+ inspected
  | UnresolvedBehavior behaviorName =>
      "Unable to resolve behavior " +:+ backtick +:+ behaviorName
        +:+ backtick +:+ " "
        +:+ "Did you import it? Is it annotated with @polymerBehavior?"
  | TypeError reading =>
      "Cannot read property '" +:+ reading +:+ "' of undefined"
  end.

(** [sub] occurs in [s]. *)
Fixpoint includes (sub s : string) : bool :=
  String.prefix sub s
  || match s with
     | EmptyString => false
     | String _ s' => includes sub s'
     end.

(** ** [Analysis.validate] *)

(** A [jsonschema.ValidationError]: its [message], and what it renders to
    as a string. *)
Record SchemaViolation := mkSchemaViolation {
  violation_message : string;
  violation_toString : string
}.

(** A [jsonschema.ValidationResult]. *)
Record ValidationResult := mkValidationResult {
  throwError : option string;
  errors : list SchemaViolation
}.

(** The serialized analysis; only [schema_version] is read here. *)
Record Elements := mkElements {
  schema_version : string
}.

(** What [validate] throws. *)
Inductive Thrown :=
| ThrowError (e : string)
| ValidationError (message : string) (errors : list SchemaViolation)
| InvalidSchemaVersion (message : string)
| NullDereference.

Definition newline : string := String "010"%char EmptyString.

(** [xs.join(sep)] *)
Fixpoint join (sep : string) (xs : list string) : string :=
  match xs with
  | [] => ""
  | [x] => x
  | x :: xs' => x +:+ sep +:+ join sep xs'
  end.

(** [err.message || err] inside a string concatenation. *)
Definition violationText (err : SchemaViolation) : string :=
  if truthy (violation_message err) then violation_message err
  else violation_toString err.

(** [new ValidationError(result)] *)
Definition newValidationError (result : ValidationResult) : Thrown :=
  let message :=
    "Unable to validate serialized Polymer analysis. "
      +:+ "Got " +:+ pretty (length (errors result)) +:+ " errors: "
      +:+ join newline
            (map (fun err => "    " +:+ violationText err) (errors result)) in
  ValidationError message (errors result).

Definition isDigit (c : ascii) : bool :=
  (48 <=? nat_of_ascii c) && (nat_of_ascii c <=? 57).

Fixpoint skipDigits (s : string) : string :=
  match s with
  | String c s' => if isDigit c then skipDigits s' else s
  | EmptyString => s
  end.

(** [\d+]: one digit at least, then as many as follow; the rest is
    returned. *)
Definition digits1 (s : string) : option string :=
  match s with
  | String c s' => if isDigit c then Some (skipDigits s') else None
  | EmptyString => None
  end.

(** [/^1\.\d+\.\d+$/.test(s)] *)
Definition testSchemaVersion (s : string) : bool :=
  match s with
  | String "1"%char (String "."%char s1) =>
      match digits1 s1 with
      | Some (String "."%char s2) =>
          match digits1 s2 with
          | Some EmptyString => true
          | _ => false
          end
      | _ => false
      end
  | _ => false
  end.

(** [validator] is [validator.validate(_, schema)] of the [jsonschema]
    library.  [None] is a normal return. *)
Definition validate (validator : option Elements -> ValidationResult)
  (analyzedPackage : option Elements) : option Thrown :=
  let result := validator analyzedPackage in
  match throwError result with
  | Some e => Some (ThrowError e)
  | None =>
      if 0 <? length (errors result) then Some (newValidationError result)
      else
        match analyzedPackage with
        | None => Some NullDereference
        | Some analyzedPackage =>
            if negb (testSchemaVersion (schema_version analyzedPackage))
            then Some (InvalidSchemaVersion
                         ("Invalid schema_version in AnalyzedPackage. "
                            +:+ "Expected 1.x.x, got "
                            +:+ schema_version analyzedPackage))
            else None
        end
  end.

(** ** What [mergeByName] is expected to hold for a name *)

(** The last item of [items] named [n]. *)
Fixpoint lastNamed (n : string) (items : list Item) : option Item :=
  match items with
  | [] => None
  | x :: items' =>
      match lastNamed n items' with
      | Some y => Some y
      | None => if decide (name x = n) then Some x else None
      end
  end.

(** The first item of [items] named [n]. *)
Fixpoint firstNamed (n : string) (items : list Item) : option Item :=
  match items with
  | [] => None
  | x :: items' => if decide (name x = n) then Some x else firstNamed n items'
  end.

(** The first source, in order, that defines [n], with its item, annotated. *)
Fixpoint firstDefining (n : string) (inheritFrom : list Source)
  : option Item :=
  match inheritFrom with
  | [] => None
  | source :: rest =>
      match firstNamed n (vals source) with
      | Some item => Some (annotate source item)
      | None => firstDefining n rest
      end
  end.

Definition resolvedItem (n : string) (base : list Item)
  (inheritFrom : list Source) : option Item :=
  match lastNamed n base with
  | Some x => Some x
  | None => firstDefining n inheritFrom
  end.

(** Every entry of [byName] is filed under its own name, once. *)
Definition byNameOk (byName : list (string * Item)) : Prop :=
  NoDup (map_keys byName) /\ forall k v, (k, v) ∈ byName -> name v = k.

(** ** Sample items *)

Definition p_first : Item := mkItem "p" None "first".
Definition p_second : Item := mkItem "p" None "second".
Definition q_local : Item := mkItem "q" None "local".
Definition p_of_B2 : Item := mkItem "p" None "from B2".
Definition r_of_B2 : Item := mkItem "r" None "from B2".
Definition r_of_B3 : Item := mkItem "r" None "from B3".
Definition sampleSources : list Source :=
  [mkSource (Some "B2") [p_of_B2; r_of_B2]; mkSource (Some "B3") [r_of_B3]].

(** ** The behavior graph *)

(** [c] is an entry, once resolved, of the [behaviors] list of [l]. *)
Definition behaviorEdge (σ : Store) (analysis : Analysis) (l c : loc) : Prop :=
  exists obj r,
    behaviorObjects σ !! l = Some obj
    /\ r ∈ b_behaviors obj
    /\ lookupBehavior analysis r = Ok c.

(** [l] is reachable from the list [behaviors]. *)
Definition reachableFrom (σ : Store) (analysis : Analysis)
  (behaviors : list BehaviorRef) (l : loc) : Prop :=
  exists r l0,
    r ∈ behaviors
    /\ lookupBehavior analysis r = Ok l0
    /\ rtc (behaviorEdge σ analysis) l0 l.

(** The entries a traversal of [behaviors] can come across: those of the
    list itself and those of the lists of the objects reachable from it. *)
Definition encountered (σ : Store) (analysis : Analysis)
  (behaviors : list BehaviorRef) (r : BehaviorRef) : Prop :=
  r ∈ behaviors
  \/ exists l obj,
       reachableFrom σ analysis behaviors l
       /\ behaviorObjects σ !! l = Some obj
       /\ r ∈ b_behaviors obj.

(** An entry is sound when it resolves, and to an object of the store. *)
Definition resolves (σ : Store) (analysis : Analysis) (r : BehaviorRef)
  : Prop :=
  exists l, lookupBehavior analysis r = Ok l
            /\ is_Some (behaviorObjects σ !! l).

(** A direct reference denotes an object of the store, and so does
    whatever a name is bound to. *)
Definition denotes (σ : Store) (analysis : Analysis) (r : BehaviorRef)
  : Prop :=
  forall l, lookupBehavior analysis r = Ok l
            -> is_Some (behaviorObjects σ !! l).

(** The first occurrences of a sequence, in order. *)
Definition firstOccurrences (l : list loc) : list loc := foldl set_add [] l.

(** The depth-first traversal of the [behaviors] lists as a sequence of
    encounters: every entry met is logged, and the list of an object is
    entered the first time the object is met. *)
Fixpoint dfsEncounters (fuel : nat) (σ : Store) (analysis : Analysis)
  (behaviors : list BehaviorRef) (log : list loc) {struct fuel}
  : Outcome (list loc) :=
  match fuel with
  | O => Stuck
  | S fuel' =>
      (fix visit (behaviors : list BehaviorRef) (log : list loc)
         {struct behaviors} : Outcome (list loc) :=
         match behaviors with
         | [] => Ok log
         | r :: rest =>
             b <- lookupBehavior analysis r ;;
             if bool_decide (b ∈ log) then visit rest (log ++ [b])
             else
               match behaviorObjects σ !! b with
               | None => Stuck
               | Some obj =>
                   log' <- dfsEncounters fuel' σ analysis (b_behaviors obj)
                             (log ++ [b]) ;;
                   visit rest log'
               end
         end) behaviors log
  end.

(** ** Sample behaviors: a diamond *)

(** [B1] lists [B2] and [B3]; [B2] lists [B3]. *)
Definition B1 : BehaviorObj :=
  mkBehaviorObj (Some "B1") [] [] [] [ByName "B2"; ByName "B3"].
Definition B2 : BehaviorObj :=
  mkBehaviorObj (Some "B2") [p_of_B2; r_of_B2] [] [] [ByName "B3"].
Definition B3 : BehaviorObj :=
  mkBehaviorObj (Some "B3") [r_of_B3] [] [] [].

Definition diamondStore : Store :=
  mkStore ∅ (<[1 := B1]> (<[2 := B2]> (<[3 := B3]> ∅))).

Definition diamondAnalysis : Analysis :=
  mkAnalysis [] [] ∅
    (<["B1" := 1]> (<["B2" := 2]> (<["B3" := 3]> ∅))) ∅.

(** Every object of [V] outside [G] has all the entries of its list in
    [V]: [G] holds the objects whose lists are being traversed. *)
Definition closedExcept (σ : Store) (analysis : Analysis)
  (G V : list loc) : Prop :=
  forall l c, l ∈ V -> l ∉ G -> behaviorEdge σ analysis l c -> c ∈ V.

(** The behavior objects of the store that are not in [V] yet. *)
Definition unvisited (σ : Store) (V : list loc) : nat :=
  size (dom (behaviorObjects σ) ∖ list_to_set V).

(** ** A sample forest *)

(** [path.posix] on paths that do not end in a slash: the text before the
    last slash and the text after it. *)
Fixpoint splitLast (s : string) : option (string * string) :=
  match s with
  | EmptyString => None
  | String c s' =>
      match splitLast s' with
      | Some (d, b) => Some (String c d, b)
      | None => if decide (c = "/"%char) then Some (EmptyString, s') else None
      end
  end.

Definition posixPath : Path :=
  {| basename := fun s =>
       match splitLast s with Some (_, b) => b | None => s end;
     dirname := fun s =>
       match splitLast s with
       | Some (d, _) => if truthy d then d else "/"
       | None => "."
       end |}.

(** The element [x-a] lists behavior [B] by name; the other element has no
    tag name. *)
Definition x_a : ElementObj :=
  mkElementObj PolymerElementDescriptorClass (Some "x-a") [q_local] [] []
    [ByName "B"] "x-a".
Definition untagged : ElementObj :=
  mkElementObj ElementDescriptorClass None [q_local] [] [] [] "untagged".
Definition B : BehaviorObj :=
  mkBehaviorObj (Some "B") [mkItem "p1" None ""] [] [] [].

Definition sampleStore : Store :=
  mkStore (<[10 := x_a]> (<[11 := untagged]> ∅)) (<[20 := B]> ∅).

Definition behaviors_html : DocumentDescriptor :=
  mkDocumentDescriptor "/a/behaviors.html"
    (mkDocument false "/a/behaviors.html") [DBehavior 20] [].

Definition c_html : DocumentDescriptor :=
  mkDocumentDescriptor "/a/b/c.html" (mkDocument false "/a/b/c.html")
    [DElement 10; DNull; DElement 11; DElement 10]
    [DImport (mkImportDescriptor "/a/behaviors.html")].

Definition sampleForest : list DocumentDescriptor :=
  [ mkDocumentDescriptor "/a/package.json"
      (mkDocument true "/a/package.json") [] [];
    mkDocumentDescriptor "/a/b/bower.json"
      (mkDocument true "/a/b/bower.json") [] [];
    c_html;
    behaviors_html ].

(** ** Reading the constructor's result *)

(** The walk of the constructor. *)
Definition gathered (path : Path) (descriptors : list DocumentDescriptor)
  : Outcome Gatherers :=
  walk [packageGathererVisitor path; elementGathererVisitor]
    descriptors newGatherers.

(** The package directory an element is attributed to. *)
Definition packageDirOf (pg : PackageGatherer) (eg : ElementGatherer)
  (element : loc) : option string :=
  longestMatchingPackageDir (packageDirs pg) <$> elementPaths eg !! element.

(** [clone] is a resolved copy of [original]: a plain object with the
    fields of the original, the three merged lists apart. *)
Definition resolvedCopyOf (σ : Store) (original clone : loc) : Prop :=
  exists e obj,
    elementObjects σ !! original = Some e
    /\ elementObjects σ !! clone = Some obj
    /\ e_class obj = PlainObject
    /\ tagName obj = tagName e
    /\ e_behaviors obj = e_behaviors e
    /\ e_other obj = e_other e.

(** The store agrees with an earlier one on every object of the latter. *)
Definition extendsStore (σ σ' : Store) : Prop :=
  (forall l, is_Some (elementObjects σ !! l) ->
             elementObjects σ' !! l = elementObjects σ !! l)
  /\ behaviorObjects σ' = behaviorObjects σ.

(** The resolved elements filed under [d], given the gathered elements and
    their resolved copies, position by position. *)
Definition filedUnder (pg : PackageGatherer) (eg : ElementGatherer)
  (d : string) (elements resolved : list loc) : list loc :=
  (filter (fun lc => packageDirOf pg eg lc.1 = Some d)
     (zip elements resolved)).*2.

Definition sampleIndexed : Analysis :=
  mkAnalysis sampleForest [] ∅ (<["B" := 20]> ∅) ∅.

Definition sampleGathered : Gatherers :=
  match gathered posixPath sampleForest with
  | Ok g => g
  | _ => newGatherers
  end.

Definition sampleConstructed : Store * Analysis :=
  match Analysis_new posixPath sampleStore sampleForest with
  | Ok r => r
  | _ => (sampleStore, sampleIndexed)
  end.

(** [sub] occurs in [s], as a proposition. *)
Definition occursIn (sub s : string) : Prop :=
  exists pre post, s = pre +:+ sub +:+ post.

(** ** Sample validation inputs *)

Definition missingElements : SchemaViolation :=
  mkSchemaViolation "requires property elements"
    "instance requires property elements".

(** A validator that finds every object structurally valid. *)
Definition lenientValidator (analyzedPackage : option Elements)
  : ValidationResult :=
  mkValidationResult None [].

(** A validator that reports one violation, whatever the object. *)
Definition strictValidator (analyzedPackage : option Elements)
  : ValidationResult :=
  mkValidationResult None [missingElements].

(** ** The gatherers' records *)

(** Each recorded descriptor is listed once and has a path, and only
    those have one. *)
Definition recordedOnce (this : ElementGatherer) : Prop :=
  NoDup (elementDescriptors this)
  /\ NoDup (behaviorDescriptors this)
  /\ (forall l, l ∈ elementDescriptors this
                <-> is_Some (elementPaths this !! l))
  /\ (forall l, l ∈ behaviorDescriptors this
                <-> is_Some (behaviorPaths this !! l)).

(** A document named [package.json] that is not a [JsonDocument]. *)
Definition packageJsonAsHtml : DocumentDescriptor :=
  mkDocumentDescriptor "/a/package.json"
    (mkDocument false "/a/package.json") [] [].

(** ** The walk as a sequence of visits *)

(** One call of the walker into its visitors: the node and its class. *)
Inductive Visit :=
| VDocument (dd : DocumentDescriptor)
| VInlineDocument (idd : InlineDocumentDescriptor)
| VBehavior (behavior : loc)
| VElement (element : loc)
| VImport (importDesc : ImportDescriptor)
| VUnknown (inspected : string).

Definition toVisit (d : Descriptor) : option Visit :=
  match d with
  | DDocument dd => Some (VDocument dd)
  | DInlineDocument idd => Some (VInlineDocument idd)
  | DBehavior b => Some (VBehavior b)
  | DElement e => Some (VElement e)
  | DImport i => Some (VImport i)
  | DNull => None
  | DUnknown inspected => Some (VUnknown inspected)
  end.

(** The visits of the walk of an entity, each with the ancestors passed
    along, in order. *)
Fixpoint visitsOf (entity : Descriptor) (ancestors : list Descriptor)
  {struct entity} : list (Visit * list Descriptor) :=
  match entity with
  | DDocument dd => visitsOfDocument dd ancestors
  | DInlineDocument idd => [(VInlineDocument idd, ancestors)]
  | DBehavior b => [(VBehavior b, ancestors)]
  | DElement e => [(VElement e, ancestors)]
  | DImport i => [(VImport i, ancestors)]
  | DNull => []
  | DUnknown inspected => [(VUnknown inspected, ancestors)]
  end
with visitsOfDocument (dd : DocumentDescriptor) (ancestors : list Descriptor)
  {struct dd} : list (Visit * list Descriptor) :=
  match dd with
  | mkDocumentDescriptor _ _ entities dependencies =>
      let ancestors' := ancestors ++ [DDocument dd] in
      (VDocument dd, ancestors')
        :: flat_map (fun entity => visitsOf entity ancestors') entities
        ++ flat_map (fun dependency => visitsOf dependency ancestors')
             dependencies
  end.

Definition visitsOfForest (documents : list DocumentDescriptor)
  : list (Visit * list Descriptor) :=
  flat_map (fun dd => visitsOfDocument dd []) documents.

(** What the walker does at one visit. *)
Definition dispatch {S : Type} (visitors : list (AnalysisVisitor S))
  (v : Visit * list Descriptor) (s : S) : Outcome S :=
  match v.1 with
  | VDocument dd => broadcast visitors visitDocumentDescriptor dd v.2 s
  | VInlineDocument idd =>
      broadcast visitors visitInlineDocumentDescriptor idd v.2 s
  | VBehavior b => broadcast visitors visitBehavior b v.2 s
  | VElement e => broadcast visitors visitElement e v.2 s
  | VImport i => broadcast visitors visitImportDescriptor i v.2 s
  | VUnknown inspected => Throw (UnknownDescriptorKind inspected)
  end.

(** A visitor that implements every method and logs each call. *)
Definition recorder : AnalysisVisitor (list (Visit * list Descriptor)) :=
  {| visitDocumentDescriptor :=
       Some (fun dd ancestors log => Ok (log ++ [(VDocument dd, ancestors)]));
     visitInlineDocumentDescriptor :=
       Some (fun idd ancestors log =>
               Ok (log ++ [(VInlineDocument idd, ancestors)]));
     visitElement :=
       Some (fun e ancestors log => Ok (log ++ [(VElement e, ancestors)]));
     visitBehavior :=
       Some (fun b ancestors log => Ok (log ++ [(VBehavior b, ancestors)]));
     visitImportDescriptor :=
       Some (fun i ancestors log => Ok (log ++ [(VImport i, ancestors)]));
     done := None |}.

(** [d] is [root] or lies in it, through the entities and dependencies of
    document descriptors only. *)
Inductive contains : Descriptor -> Descriptor -> Prop :=
| contains_self d : contains d d
| contains_entity dd entity d :
    entity ∈ entities dd -> contains entity d -> contains (DDocument dd) d
| contains_dependency dd dependency d :
    dependency ∈ dependencies dd -> contains dependency d ->
    contains (DDocument dd) d.

Definition inForest (documents : list DocumentDescriptor) (d : Descriptor)
  : Prop :=
  exists dd, dd ∈ documents /\ contains (DDocument dd) d.

(** An element inside an inline document, and the same element inside a
    nested document. *)
Definition inlineBlock : InlineDocumentDescriptor :=
  mkInlineDocumentDescriptor [DElement 10] [].

Definition inline_html : DocumentDescriptor :=
  mkDocumentDescriptor "/a/inline.html" (mkDocument false "/a/inline.html")
    [DInlineDocument inlineBlock] [].

Definition inlineForest : list DocumentDescriptor := [inline_html].

Definition nestedForest : list DocumentDescriptor :=
  [mkDocumentDescriptor "/a/inline.html" (mkDocument false "/a/inline.html")
     [DDocument (mkDocumentDescriptor "" (mkDocument false "")
                   [DElement 10] [])] []].

(** What the two gatherers of the constructor do at one visit. *)
Definition gatherStep (path : Path) (v : Visit * list Descriptor)
  (g : Gatherers) : Outcome Gatherers :=
  match v.1 with
  | VDocument dd =>
      Ok (mkGatherers
            (PackageGatherer_visitDocumentDescriptor path dd
               (packageGatherer g))
            (elementsGatherer g))
  | VElement e =>
      eg <- ElementGatherer_visitElement e v.2 (elementsGatherer g) ;;
      Ok (mkGatherers (packageGatherer g) eg)
  | VBehavior b =>
      eg <- ElementGatherer_visitBehavior b v.2 (elementsGatherer g) ;;
      Ok (mkGatherers (packageGatherer g) eg)
  | VInlineDocument _ | VImport _ => Ok g
  | VUnknown inspected => Throw (UnknownDescriptorKind inspected)
  end.



(** ** Sample forests with unresolved behavior names *)







(** ** [RedirectResolver] *)

(** [new RedirectResolver(_redirectFrom, _redirectTo)] *)
Record RedirectResolver := mkRedirectResolver {
  _redirectFrom : string;
  _redirectTo : string
}.

(** [url.startsWith(this._redirectFrom)] *)
Definition canResolve (this : RedirectResolver) (url : string) : bool :=
  String.prefix (_redirectFrom this) url.

(** [s.slice(n)] for [0 <= n]: the string without its first [n]
    characters, empty when there are no more than [n]. *)
Fixpoint slice (n : nat) (s : string) : string :=
  match n, s with
  | O, _ => s
  | S n', String _ s' => slice n' s'
  | S _, EmptyString => EmptyString
  end.

Definition dquote : string := String (ascii_of_nat 34) EmptyString.

(** What [resolve] returns, or the message of the [Error] it throws. *)
Inductive Resolution :=
| Resolved (url : string)
| CannotResolve (message : string).

Definition resolve (this : RedirectResolver) (url : string) : Resolution :=
  if negb (canResolve this url) then
    CannotResolve
      ("RedirectResolver cannot resolve: " +:+ dquote +:+ url +:+ dquote
         +:+ " from:" +:+ dquote +:+ _redirectFrom this +:+ dquote
         +:+ " to: " +:+ dquote +:+ _redirectTo this +:+ dquote)
  else
    Resolved (_redirectTo this
                +:+ slice (String.length (_redirectFrom this)) url).

(** Every character of [s] is a decimal digit. *)
Fixpoint allDigits (s : string) : bool :=
  match s with
  | EmptyString => true
  | String c s' => isDigit c && allDigits s'
  end.

(** ** What a resolved element inherits *)

(** [merged] is what an element with the list [own] and the behaviors list
    [behaviors] is to hold for the field [f] of behaviors: one item per
    name; the names of [own] and of the field of every behavior reachable
    from [behaviors]; and, as items, those of [own] and copies of items of
    reachable behaviors, marked with the behavior's [className], under
    names that [own] does not have. *)
Definition inheritsFrom (σ : Store) (analysis : Analysis)
  (behaviors : list BehaviorRef) (own : list Item)
  (f : BehaviorObj -> list Item) (merged : list Item) : Prop :=
  NoDup (name <$> merged)
  /\ (forall n, n ∈ name <$> merged
                <-> n ∈ name <$> own
                    \/ exists b obj,
                         reachableFrom σ analysis behaviors b
                         /\ behaviorObjects σ !! b = Some obj
                         /\ n ∈ name <$> f obj)
  /\ (forall x, x ∈ merged ->
        x ∈ own
        \/ exists b obj i,
             reachableFrom σ analysis behaviors b
             /\ behaviorObjects σ !! b = Some obj
             /\ i ∈ f obj
             /\ x = mkItem (name i) (className obj) (detail i)
             /\ name i ∉ name <$> own).

(** ** The ancestors of a visit *)

(** [d] is an entity or a dependency of [dd]. *)
Definition childOf (dd : DocumentDescriptor) (d : Descriptor) : Prop :=
  d ∈ entities dd \/ d ∈ dependencies dd.

(** [chain] leads down from [parent]: each document is a child of the one
    before it. *)
Fixpoint descent (parent : DocumentDescriptor)
  (chain : list DocumentDescriptor) : Prop :=
  match chain with
  | [] => True
  | dd :: rest => childOf parent (DDocument dd) /\ descent dd rest
  end.

(** The visit [v] is that of the document [parent] itself or of a child of
    it that is not a document. *)
Definition tip (parent : DocumentDescriptor) (v : Visit) : Prop :=
  match v with
  | VDocument dd => dd = parent
  | _ => exists d, childOf parent d /\ toVisit d = Some v
  end.

(** [ancestors] is a path of documents from a top-level document of the
    forest down to the document that [v] visits or whose child it
    visits. *)
Definition ancestry (documents : list DocumentDescriptor)
  (ancestors : list Descriptor) (v : Visit) : Prop :=
  exists top chain parent,
    top ∈ documents
    /\ descent top chain
    /\ ancestors = DDocument <$> (top :: chain)
    /\ last (top :: chain) = Some parent
    /\ tip parent v.

(** ** When the walk of the constructor returns *)

(** Every visit of [visits] is of a known kind, and every visit of an
    element or a behavior has an owning path. *)
Definition allLocated (visits : list (Visit * list Descriptor)) : Prop :=
  (forall inspected ancestors, (VUnknown inspected, ancestors) ∉ visits)
  /\ (forall l ancestors,
        (VElement l, ancestors) ∈ visits ->
        is_Some (_getPathFromAncestors ancestors))
  /\ (forall b ancestors,
        (VBehavior b, ancestors) ∈ visits ->
        is_Some (_getPathFromAncestors ancestors)).

(** Besides, the visits of one element, and those of one behavior, have
    the same owning path. *)
Definition pathsAgree (visits : list (Visit * list Descriptor)) : Prop :=
  allLocated visits
  /\ (forall l ancestors ancestors',
        (VElement l, ancestors) ∈ visits ->
        (VElement l, ancestors') ∈ visits ->
        _getPathFromAncestors ancestors = _getPathFromAncestors ancestors')
  /\ (forall b ancestors ancestors',
        (VBehavior b, ancestors) ∈ visits ->
        (VBehavior b, ancestors') ∈ visits ->
        _getPathFromAncestors ancestors = _getPathFromAncestors ancestors').

(** The paths the gatherer holds are the owning paths of the visits. *)
Definition pathsRecorded (visits : list (Visit * list Descriptor))
  (g : Gatherers) : Prop :=
  (forall l p,
      elementPaths (elementsGatherer g) !! l = Some p
      <-> exists ancestors,
            (VElement l, ancestors) ∈ visits
            /\ _getPathFromAncestors ancestors = Some p)
  /\ (forall b p,
        behaviorPaths (elementsGatherer g) !! b = Some p
        <-> exists ancestors,
              (VBehavior b, ancestors) ∈ visits
              /\ _getPathFromAncestors ancestors = Some p).

(** The same element under two documents with different URLs. *)
Definition twiceForest : list DocumentDescriptor :=
  [mkDocumentDescriptor "/a/one.html" (mkDocument false "/a/one.html")
     [DElement 10] [];
   mkDocumentDescriptor "/a/two.html" (mkDocument false "/a/two.html")
     [DElement 10] []].

(** ** Reading the indices *)

(** [x] is the last element of [l] that satisfies [P]. *)
Definition lastSuch {A : Type} (P : A -> Prop) (l : list A) (x : A) : Prop :=
  exists before after,
    l = before ++ x :: after /\ P x /\ forall y, y ∈ after -> ~ P y.

(** The behavior object [b] declares the class name [n]. *)
Definition declares (σ : Store) (n : string) (b : loc) : Prop :=
  exists obj, behaviorObjects σ !! b = Some obj /\ className obj = Some n.

(** The element object [l] has the tag name [tag]. *)
Definition tagged (σ : Store) (tag : string) (l : loc) : Prop :=
  exists e, elementObjects σ !! l = Some e /\ tagName e = Some tag.

(** Two behaviors that declare the same class name, and two top-level
    documents with the same URL. *)
Definition shadowStore : Store :=
  mkStore ∅ (<[20 := B]> (<[21 := mkBehaviorObj (Some "B") [] [] [] []]> ∅)).

Definition shadowForest : list DocumentDescriptor :=
  [mkDocumentDescriptor "/a/b.html" (mkDocument false "/a/b.html")
     [DBehavior 20] [];
   mkDocumentDescriptor "/a/b.html" (mkDocument false "/a/b.html")
     [DBehavior 21] []].

Definition shadowGathered : Gatherers :=
  match gathered posixPath shadowForest with
  | Ok g => g
  | _ => newGatherers
  end.

Definition shadowConstructed : Store * Analysis :=
  match Analysis_new posixPath shadowStore shadowForest with
  | Ok r => r
  | _ => (shadowStore, sampleIndexed)
  end.

(** Two elements with the same tag name in one document. *)
Definition tagStore : Store :=
  mkStore
    (<[10 := x_a]>
       (<[12 := mkElementObj ElementDescriptorClass (Some "x-a") [] [] [] []
                  "second"]> ∅))
    (<[20 := B]> ∅).

Definition tagForest : list DocumentDescriptor :=
  [mkDocumentDescriptor "/a/one.html" (mkDocument false "/a/one.html")
     [DBehavior 20; DElement 10; DElement 12] []].

Definition tagGathered : Gatherers :=
  match gathered posixPath tagForest with
  | Ok g => g
  | _ => newGatherers
  end.

Definition tagConstructed : Store * Analysis :=
  match Analysis_new posixPath tagStore tagForest with
  | Ok r => r
  | _ => (tagStore, sampleIndexed)
  end.

(** ** The state between the loops of the constructor *)

(** The behavior index that the first loop builds. *)
Definition indexOf (σ : Store) (behaviors : list loc) : gmap string loc :=
  match forEach (indexBehavior σ) behaviors ∅ with
  | Ok index => index
  | _ => ∅
  end.

(** [this] when the second loop begins: the behaviors are indexed, the
    elements are not yet. *)
Definition indexed (σ : Store) (descriptors : list DocumentDescriptor)
  (g : Gatherers) : Analysis :=
  mkAnalysis descriptors [] ∅
    (indexOf σ (behaviorDescriptors (elementsGatherer g))) ∅.

(** A document with an entity that is of none of the five classes. *)
Definition odd_html : DocumentDescriptor :=
  mkDocumentDescriptor "/a/odd.html" (mkDocument false "/a/odd.html")
    [DElement 10; DUnknown "{ kind: 1 }"] [].

Definition oddForest : list DocumentDescriptor := [odd_html].

(** The elements, and the behaviors, of a sequence of visits, in order. *)
Definition elementVisits (visits : list (Visit * list Descriptor))
  : list loc :=
  omap (fun v => match v.1 with VElement l => Some l | _ => None end) visits.

Definition behaviorVisits (visits : list (Visit * list Descriptor))
  : list loc :=
  omap (fun v => match v.1 with VBehavior b => Some b | _ => None end) visits.

(** ** What the construction makes of an element *)

(** [obj] holds what resolving [e] against [analysis] gives: for a Polymer
    element the three lists merged with those of the behaviors it reaches,
    for any other element its own three lists. *)
Definition resolvedAgainst (σ : Store) (analysis : Analysis)
  (e obj : ElementObj) : Prop :=
  (e_class e = PolymerElementDescriptorClass ->
   inheritsFrom σ analysis (e_behaviors e) (e_properties e)
     b_properties (e_properties obj)
   /\ inheritsFrom σ analysis (e_behaviors e) (e_attributes e)
        b_attributes (e_attributes obj)
   /\ inheritsFrom σ analysis (e_behaviors e) (e_events e)
        b_events (e_events obj))
  /\ (e_class e <> PolymerElementDescriptorClass ->
      e_properties obj = e_properties e
      /\ e_attributes obj = e_attributes e
      /\ e_events obj = e_events e).

(** ** A forest where the unresolved name comes late *)






(** ** A Polymer element without a tag name *)

(** The element lists behavior [B] and has no tag name; its document lies
    beside a manifest. *)
Definition untaggedMixin : ElementObj :=
  mkElementObj PolymerElementDescriptorClass None [q_local] [] []
    [ByName "B"] "mixin".

Definition mixinStore : Store :=
  mkStore (<[11 := untaggedMixin]> ∅) (<[20 := B]> ∅).

Definition mixinForest : list DocumentDescriptor :=
  [mkDocumentDescriptor "/a/package.json"
     (mkDocument true "/a/package.json") [] [];
   mkDocumentDescriptor "/a/mixin.html" (mkDocument false "/a/mixin.html")
     [DBehavior 20; DElement 11] []].

Definition mixinGathered : Gatherers :=
  match gathered posixPath mixinForest with
  | Ok g => g
  | _ => newGatherers
  end.

Definition mixinConstructed : Store * Analysis :=
  match Analysis_new posixPath mixinStore mixinForest with
  | Ok r => r
  | _ => (mixinStore, sampleIndexed)
  end.

(** * Properties *)

(** ** Insertion-ordered maps *)

Section JsMapFacts.
Context {K V : Type} `{EqDecision K}.
Implicit Types (m : list (K * V)) (k : K) (v : V).

Lemma map_get_set_eq m k v : map_get (map_set m k v) k = Some v.
Proof.
  induction m as [|[k' v'] m IH]; simpl.
  - by rewrite decide_True.
  - destruct (decide (k' = k)) as [->|Hne]; simpl.
    + by rewrite decide_True.
    + by rewrite decide_False.
Qed.

Lemma map_get_set_ne m k k' v :
  k ≠ k' -> map_get (map_set m k v) k' = map_get m k'.
Proof.
  intros Hne. induction m as [|[k0 v0] m IH]; simpl.
  - by rewrite decide_False.
  - destruct (decide (k0 = k)) as [->|Hne0]; simpl.
    + by rewrite !decide_False.
    + destruct (decide (k0 = k')); [done | exact IH].
Qed.

Lemma map_get_None m k : map_get m k = None <-> k ∉ map_keys m.
Proof.
  unfold map_keys. induction m as [|[k' v'] m IH]; simpl.
  - split; [intros _; apply not_elem_of_nil | done].
  - destruct (decide (k' = k)) as [->|Hne].
    + split; [done | intros Hn; exfalso; apply Hn; left].
    + rewrite IH, not_elem_of_cons. split; [by split | by intros [_ ?]].
Qed.

Lemma map_set_fresh m k v : map_get m k = None -> map_set m k v = m ++ [(k, v)].
Proof.
  induction m as [|[k' v'] m IH]; simpl; [done |].
  destruct (decide (k' = k)); [done |]. intros Hg. by rewrite IH.
Qed.

Lemma map_keys_set_present m k v :
  is_Some (map_get m k) -> map_keys (map_set m k v) = map_keys m.
Proof.
  unfold map_keys. induction m as [|[k' v'] m IH]; simpl.
  - by intros [? ?].
  - destruct (decide (k' = k)) as [->|Hne]; simpl; [done |].
    intros Hs. f_equal. by apply IH.
Qed.

Lemma map_keys_set_NoDup m k v :
  NoDup (map_keys m) -> NoDup (map_keys (map_set m k v)).
Proof.
  intros Hnd. destruct (map_get m k) as [v0|] eqn:Hg.
  - rewrite map_keys_set_present; [done | by rewrite Hg].
  - rewrite (map_set_fresh _ _ _ Hg). unfold map_keys in *.
    rewrite fmap_app. apply NoDup_app. split; [done |].
    split; [| apply NoDup_singleton].
    intros x Hx Hin. apply list_elem_of_singleton in Hin. simpl in Hin.
    subst x. by apply map_get_None in Hg.
Qed.

Lemma map_get_Some_elem m k v : map_get m k = Some v -> (k, v) ∈ m.
Proof.
  induction m as [|[k' v'] m IH]; simpl; [done |].
  destruct (decide (k' = k)) as [->|Hne].
  - intros [= ->]. left.
  - intros Hg. right. by apply IH.
Qed.

Lemma map_elem_get m k v :
  NoDup (map_keys m) -> (k, v) ∈ m -> map_get m k = Some v.
Proof.
  unfold map_keys. induction m as [|[k' v'] m IH]; simpl.
  - intros _ Hin. by apply elem_of_nil in Hin.
  - intros Hnd Hin. apply NoDup_cons in Hnd as [Hk Hnd].
    apply elem_of_cons in Hin as [[= -> ->]|Hin].
    + by rewrite decide_True.
    + destruct (decide (k' = k)) as [->|Hne]; [| by apply IH].
      exfalso. apply Hk. apply list_elem_of_fmap. by exists (k, v).
Qed.
End JsMapFacts.

(** ** [mergeByName] *)

Lemma lastNamed_name n items x : lastNamed n items = Some x -> name x = n.
Proof.
  induction items as [|y items IH]; simpl; [done |].
  destruct (lastNamed n items) as [z|].
  - intros [= ->]. by apply IH.
  - destruct (decide (name y = n)); [by intros [= <-] | done].
Qed.

Lemma lastNamed_elem n items x : lastNamed n items = Some x -> x ∈ items.
Proof.
  induction items as [|y items IH]; simpl; [done |].
  destruct (lastNamed n items) as [z|].
  - intros [= ->]. right. by apply IH.
  - destruct (decide (name y = n)); [intros [= <-]; left | done].
Qed.

Lemma lastNamed_None n items :
  lastNamed n items = None <-> n ∉ name <$> items.
Proof.
  induction items as [|y items IH]; simpl.
  - split; [intros _; apply not_elem_of_nil | done].
  - rewrite not_elem_of_cons, <- IH.
    destruct (lastNamed n items) as [z|].
    + split; [done | by intros [_ ?]].
    + destruct (decide (name y = n)) as [Hy|Hy].
      * split; [done | intros [Hn _]; by destruct Hn].
      * split; [intros _; split; [congruence | done] | done].
Qed.

Lemma lastNamed_unique n items x :
  NoDup (name <$> items) -> x ∈ items -> name x = n ->
  lastNamed n items = Some x.
Proof.
  induction items as [|y items IH]; simpl.
  - intros _ Hin. by apply elem_of_nil in Hin.
  - intros Hnd Hin Hn. apply NoDup_cons in Hnd as [Hy Hnd].
    apply elem_of_cons in Hin as [->|Hin].
    + destruct (lastNamed n items) as [z|] eqn:Hz.
      * exfalso. apply Hy. rewrite Hn, <- (lastNamed_name _ _ _ Hz).
        apply list_elem_of_fmap. exists z. split; [done |].
        by apply lastNamed_elem in Hz.
      * by rewrite decide_True.
    + by rewrite (IH Hnd Hin Hn).
Qed.

Lemma firstNamed_name n items x : firstNamed n items = Some x -> name x = n.
Proof.
  induction items as [|y items IH]; simpl; [done |].
  destruct (decide (name y = n)); [by intros [= <-] | exact IH].
Qed.

Lemma firstDefining_name n inheritFrom x :
  firstDefining n inheritFrom = Some x -> name x = n.
Proof.
  induction inheritFrom as [|s rest IH]; simpl; [done |].
  destruct (firstNamed n (vals s)) as [i|] eqn:Hi; [| exact IH].
  intros [= <-]. simpl. by apply firstNamed_name in Hi.
Qed.

Lemma byNameOk_nil : byNameOk [].
Proof.
  split; [apply NoDup_nil_2 |]. intros k v Hin. by apply elem_of_nil in Hin.
Qed.

Lemma byNameOk_set m x : byNameOk m -> byNameOk (map_set m (name x) x).
Proof.
  intros [Hnd Hnm]. split; [by apply map_keys_set_NoDup |].
  intros k v Hin.
  assert (Hnd' : NoDup (map_keys (map_set m (name x) x)))
    by by apply map_keys_set_NoDup.
  pose proof (map_elem_get _ _ _ Hnd' Hin) as Hg.
  destruct (decide (name x = k)) as [<-|Hne].
  - rewrite map_get_set_eq in Hg. by injection Hg as <-.
  - rewrite map_get_set_ne in Hg by done.
    apply Hnm. by apply map_get_Some_elem.
Qed.

Lemma mergeBase_ok m base : byNameOk m -> byNameOk (mergeBase m base).
Proof.
  unfold mergeBase. revert m.
  induction base as [|x base IH]; intros m Hm; simpl; [done |].
  apply IH. by apply byNameOk_set.
Qed.

Lemma mergeBase_get m base n :
  map_get (mergeBase m base) n =
  match lastNamed n base with Some x => Some x | None => map_get m n end.
Proof.
  unfold mergeBase. revert m.
  induction base as [|x base IH]; intros m; simpl; [done |].
  rewrite IH. destruct (lastNamed n base) as [y|]; [done |].
  destruct (decide (name x = n)) as [<-|Hne].
  - apply map_get_set_eq.
  - by apply map_get_set_ne.
Qed.

Lemma mergeItem_ok s m item : byNameOk m -> byNameOk (mergeItem s m item).
Proof.
  intros Hm. unfold mergeItem.
  destruct (map_has m (name item)); [done |].
  apply (byNameOk_set m (annotate s item) Hm).
Qed.

Lemma mergeItem_get s m item n :
  map_get (mergeItem s m item) n =
  match map_get m n with
  | Some v => Some v
  | None => if decide (name item = n) then Some (annotate s item) else None
  end.
Proof.
  unfold mergeItem, map_has.
  destruct (map_get m (name item)) as [v|] eqn:Hv.
  - destruct (map_get m n) as [w|] eqn:Hw; [done |].
    destruct (decide (name item = n)) as [<-|Hne]; [congruence | done].
  - simpl. destruct (decide (name item = n)) as [<-|Hne].
    + by rewrite map_get_set_eq, Hv.
    + rewrite map_get_set_ne by done. by destruct (map_get m n).
Qed.

Lemma mergeSource_ok m s : byNameOk m -> byNameOk (mergeSource m s).
Proof.
  unfold mergeSource. generalize (vals s) as items. intros items. revert m.
  induction items as [|i items IH]; intros m Hm; simpl; [done |].
  apply IH. by apply mergeItem_ok.
Qed.

Lemma mergeSource_get m s n :
  map_get (mergeSource m s) n =
  match map_get m n with
  | Some v => Some v
  | None => annotate s <$> firstNamed n (vals s)
  end.
Proof.
  unfold mergeSource. generalize (vals s) as items. intros items. revert m.
  induction items as [|i items IH]; intros m; simpl.
  - by destruct (map_get m n).
  - rewrite IH, mergeItem_get. destruct (map_get m n) as [v|]; [done |].
    by destruct (decide (name i = n)).
Qed.

Lemma mergeSources_ok m inheritFrom :
  byNameOk m -> byNameOk (foldl mergeSource m inheritFrom).
Proof.
  revert m. induction inheritFrom as [|s rest IH]; intros m Hm; simpl;
    [done |].
  apply IH. by apply mergeSource_ok.
Qed.

Lemma mergeSources_get m inheritFrom n :
  map_get (foldl mergeSource m inheritFrom) n =
  match map_get m n with
  | Some v => Some v
  | None => firstDefining n inheritFrom
  end.
Proof.
  revert m. induction inheritFrom as [|s rest IH]; intros m; simpl.
  - by destruct (map_get m n).
  - rewrite IH, mergeSource_get. destruct (map_get m n) as [v|]; [done |].
    by destruct (firstNamed n (vals s)).
Qed.

Lemma mergeByName_byNameOk base inheritFrom :
  byNameOk (foldl mergeSource (mergeBase [] base) inheritFrom).
Proof. apply mergeSources_ok, mergeBase_ok, byNameOk_nil. Qed.

Lemma mergeByName_get base inheritFrom n :
  map_get (foldl mergeSource (mergeBase [] base) inheritFrom) n =
  resolvedItem n base inheritFrom.
Proof.
  rewrite mergeSources_get, mergeBase_get. unfold resolvedItem. simpl.
  by destruct (lastNamed n base).
Qed.

Lemma byNameOk_names m : byNameOk m -> name <$> map_values m = map_keys m.
Proof.
  intros [_ Hnm]. unfold map_values, map_keys.
  induction m as [|[k v] m IH]; simpl; [done |].
  f_equal.
  - apply Hnm. left.
  - apply IH. intros k' v' Hin. apply Hnm. by right.
Qed.

Lemma byNameOk_elem m x :
  byNameOk m -> x ∈ map_values m <-> map_get m (name x) = Some x.
Proof.
  intros [Hnd Hnm]. unfold map_values. split.
  - intros Hin. apply list_elem_of_fmap in Hin as [[k v] [-> Hin]]. simpl.
    rewrite (Hnm _ _ Hin). by apply map_elem_get.
  - intros Hg. apply map_get_Some_elem in Hg.
    apply list_elem_of_fmap. by exists (name x, x).
Qed.

Lemma mergeBase_distinct m base :
  NoDup (name <$> base) ->
  (forall x, x ∈ base -> map_get m (name x) = None) ->
  mergeBase m base = m ++ ((fun x => (name x, x)) <$> base).
Proof.
  unfold mergeBase. revert m.
  induction base as [|x base IH]; intros m Hnd Hfresh; simpl.
  - by rewrite app_nil_r.
  - apply NoDup_cons in Hnd as [Hx Hnd].
    rewrite map_set_fresh by (apply Hfresh; left).
    rewrite IH; [by rewrite <- app_assoc | done |].
    intros y Hy. apply map_get_None. unfold map_keys.
    rewrite fmap_app. simpl. intros Hin. apply elem_of_app in Hin as [Hin|Hin].
    + assert (Hg : map_get m (name y) = None) by (apply Hfresh; by right).
      by apply map_get_None in Hg.
    + apply list_elem_of_singleton in Hin. apply Hx. rewrite <- Hin.
      apply list_elem_of_fmap. by exists y.
Qed.

Lemma mergeItem_extends s m item : m `prefix_of` mergeItem s m item.
Proof.
  unfold mergeItem, map_has.
  destruct (map_get m (name item)) as [v|] eqn:Hv; [done |].
  simpl. rewrite map_set_fresh by done. by apply prefix_app_r.
Qed.

Lemma mergeSource_extends m s : m `prefix_of` mergeSource m s.
Proof.
  unfold mergeSource. generalize (vals s) as items. intros items. revert m.
  induction items as [|i items IH]; intros m; simpl; [done |].
  etrans; [apply (mergeItem_extends s m i) | apply IH].
Qed.

Lemma mergeSources_extends m inheritFrom :
  m `prefix_of` foldl mergeSource m inheritFrom.
Proof.
  revert m. induction inheritFrom as [|s rest IH]; intros m; simpl; [done |].
  etrans; [apply (mergeSource_extends m s) | apply IH].
Qed.

(** The merged list holds one item per name; the item held for a name is
    the last base item of that name or, when the base has none, the
    annotated copy of the first item of that name in the first source that
    defines it; an item held under a base name is a base item, never a
    source's; and a base whose names are pairwise distinct is kept whole,
    verbatim and in order, at the front of the result. *)
Lemma mergeByName_resolves (base : list Item) (inheritFrom : list Source) :
  let merged := mergeByName base inheritFrom in
  NoDup (name <$> merged)
  /\ (forall x, x ∈ merged <-> resolvedItem (name x) base inheritFrom = Some x)
  /\ (forall x, x ∈ merged -> name x ∈ name <$> base -> x ∈ base)
  /\ (forall x, x ∈ merged -> name x ∉ name <$> base ->
        firstDefining (name x) inheritFrom = Some x)
  /\ (NoDup (name <$> base) -> base `prefix_of` merged).
Proof.
  simpl. unfold mergeByName.
  pose proof (mergeByName_byNameOk base inheritFrom) as Hok.
  assert (Hchar : forall x,
    x ∈ map_values (foldl mergeSource (mergeBase [] base) inheritFrom)
    <-> resolvedItem (name x) base inheritFrom = Some x).
  { intros x. by rewrite (byNameOk_elem _ x Hok), mergeByName_get. }
  split; [| split; [| split; [| split]]].
  - rewrite (byNameOk_names _ Hok). apply Hok.
  - exact Hchar.
  - intros x Hin Hbase. apply Hchar in Hin. unfold resolvedItem in Hin.
    destruct (lastNamed (name x) base) as [y|] eqn:Hy.
    + injection Hin as ->. by apply lastNamed_elem in Hy.
    + by apply lastNamed_None in Hy.
  - intros x Hin Hbase. apply Hchar in Hin. unfold resolvedItem in Hin.
    apply lastNamed_None in Hbase. by rewrite Hbase in Hin.
  - intros Hnd.
    destruct (mergeSources_extends (mergeBase [] base) inheritFrom)
      as [extra ->].
    rewrite (mergeBase_distinct [] base Hnd) by done.
    unfold map_values. simpl. rewrite fmap_app, <- list_fmap_compose.
    simpl. rewrite list_fmap_id. by apply prefix_app_r.
Qed.

(** ** Behavior flattening *)

Lemma bind_Ok {A B} (m : Outcome A) (k : A -> Outcome B) (b : B) :
  bind m k = Ok b -> exists a, m = Ok a /\ k a = Ok b.
Proof. destruct m as [a| |]; simpl; [by exists a | done | done]. Qed.

Lemma set_has_true (V : list loc) (b : loc) : set_has V b = true <-> b ∈ V.
Proof. unfold set_has. by rewrite bool_decide_eq_true. Qed.

Lemma set_has_false (V : list loc) (b : loc) : set_has V b = false <-> b ∉ V.
Proof. unfold set_has. by rewrite bool_decide_eq_false. Qed.

Lemma set_add_new (V : list loc) (b : loc) : b ∉ V -> set_add V b = V ++ [b].
Proof. intros Hb. unfold set_add. by rewrite (proj2 (set_has_false V b) Hb). Qed.

Lemma set_add_old (V : list loc) (b : loc) : b ∈ V -> set_add V b = V.
Proof. intros Hb. unfold set_add. by rewrite (proj2 (set_has_true V b) Hb). Qed.

Lemma lookupBehavior_not_Stuck analysis r : lookupBehavior analysis r <> Stuck.
Proof.
  destruct r as [n|b]; simpl; [| done].
  by destruct (getBehavior analysis n).
Qed.

Section Flatten.
Context (σ : Store) (analysis : Analysis).

Local Abbreviation flat fuel bs V :=
  (_getFlattenedAndResolvedBehaviors fuel σ bs analysis V).

Lemma flatten_cons fuel r rest V :
  flat (S fuel) (r :: rest) V =
  (b <- lookupBehavior analysis r ;;
   if set_has V b then flat (S fuel) rest V
   else
     match behaviorObjects σ !! b with
     | None => Stuck
     | Some obj =>
         V' <- flat fuel (b_behaviors obj) (set_add V b) ;;
         flat (S fuel) rest V'
     end).
Proof. reflexivity. Qed.

(** The induction scheme that follows the calls of the function. *)
Lemma flatten_ind (P : nat -> list BehaviorRef -> list loc
                       -> Outcome (list loc) -> Prop) :
  (forall bs V, P 0 bs V Stuck) ->
  (forall fuel V, P (S fuel) [] V (Ok V)) ->
  (forall fuel r rest V e,
      lookupBehavior analysis r = Throw e ->
      P (S fuel) (r :: rest) V (Throw e)) ->
  (forall fuel r rest V b,
      lookupBehavior analysis r = Ok b -> b ∈ V ->
      P (S fuel) rest V (flat (S fuel) rest V) ->
      P (S fuel) (r :: rest) V (flat (S fuel) rest V)) ->
  (forall fuel r rest V b,
      lookupBehavior analysis r = Ok b -> b ∉ V ->
      behaviorObjects σ !! b = None ->
      P (S fuel) (r :: rest) V Stuck) ->
  (forall fuel r rest V b obj,
      lookupBehavior analysis r = Ok b -> b ∉ V ->
      behaviorObjects σ !! b = Some obj ->
      P fuel (b_behaviors obj) (V ++ [b])
        (flat fuel (b_behaviors obj) (V ++ [b])) ->
      (forall V1, flat fuel (b_behaviors obj) (V ++ [b]) = Ok V1 ->
                  P (S fuel) rest V1 (flat (S fuel) rest V1)) ->
      P (S fuel) (r :: rest) V
        (V1 <- flat fuel (b_behaviors obj) (V ++ [b]) ;;
         flat (S fuel) rest V1)) ->
  forall fuel bs V, P fuel bs V (flat fuel bs V).
Proof.
  intros H0 Hnil Hthrow Hseen Hdangling Hnew.
  induction fuel as [|fuel IHfuel]; intros bs V; [apply H0 |].
  revert V. induction bs as [|r rest IHrest]; intros V; [apply Hnil |].
  rewrite flatten_cons.
  destruct (lookupBehavior analysis r) as [b|e|] eqn:Hr; simpl.
  - destruct (set_has V b) eqn:Hb.
    + apply set_has_true in Hb. by apply (Hseen _ r _ _ b).
    + apply set_has_false in Hb. rewrite (set_add_new _ _ Hb).
      destruct (behaviorObjects σ !! b) as [obj|] eqn:Hobj.
      * apply (Hnew _ r _ _ b obj); auto.
      * by apply (Hdangling _ r _ _ b).
  - by apply Hthrow.
  - by apply lookupBehavior_not_Stuck in Hr.
Qed.
End Flatten.

Section FlattenFacts.
Context (σ : Store) (analysis : Analysis).

Local Abbreviation flat fuel bs V :=
  (_getFlattenedAndResolvedBehaviors fuel σ bs analysis V).
Local Abbreviation edge := (behaviorEdge σ analysis).
Local Abbreviation reach := (reachableFrom σ analysis).

(** The set only grows, and at its end: insertion order is kept. *)
Lemma flatten_extends fuel bs V V' : flat fuel bs V = Ok V' -> V `prefix_of` V'.
Proof.
  revert V'.
  apply (flatten_ind σ analysis
           (fun fuel bs V o => forall V', o = Ok V' -> V `prefix_of` V')).
  - done.
  - by intros _ V0 V' [= ->].
  - done.
  - auto.
  - done.
  - intros f r rest V0 b obj _ _ _ IH1 IH2 V' Hb.
    apply bind_Ok in Hb as (V1 & H1 & H2).
    etrans; [apply prefix_app_r; reflexivity |].
    etrans; [apply (IH1 _ H1) | apply (IH2 _ H1 _ H2)].
Qed.

Lemma flatten_NoDup fuel bs V V' :
  NoDup V -> flat fuel bs V = Ok V' -> NoDup V'.
Proof.
  revert V'.
  apply (flatten_ind σ analysis
           (fun fuel bs V o => forall V', NoDup V -> o = Ok V' -> NoDup V')).
  - done.
  - by intros _ V0 V' ? [= ->].
  - done.
  - auto.
  - done.
  - intros f r rest V0 b obj _ Hb _ IH1 IH2 V' Hnd Hr.
    apply bind_Ok in Hr as (V1 & H1 & H2).
    apply (IH2 _ H1 _); [| done]. apply (IH1 _); [| done].
    apply NoDup_app. split; [done |]. split; [| apply NoDup_singleton].
    intros x Hx Hin. apply list_elem_of_singleton in Hin. by subst x.
Qed.

Lemma reach_head r rest l0 l :
  lookupBehavior analysis r = Ok l0 -> rtc edge l0 l -> reach (r :: rest) l.
Proof. intros Hr Hl. exists r, l0. split; [left | done]. Qed.

Lemma reach_tail r rest l : reach rest l -> reach (r :: rest) l.
Proof. intros (r' & l0 & Hin & Hr & Hl). exists r', l0. split; [by right | done]. Qed.

Lemma reach_children r rest b obj l :
  lookupBehavior analysis r = Ok b ->
  behaviorObjects σ !! b = Some obj ->
  reach (b_behaviors obj) l -> reach (r :: rest) l.
Proof.
  intros Hr Hobj (r' & l0 & Hin & Hr' & Hl).
  apply (reach_head r rest b l Hr).
  eapply rtc_l; [| exact Hl]. by exists obj, r'.
Qed.

(** Whatever enters the set is reachable from the list. *)
Lemma flatten_sound fuel bs V V' :
  flat fuel bs V = Ok V' -> forall l, l ∈ V' -> l ∈ V \/ reach bs l.
Proof.
  revert V'.
  apply (flatten_ind σ analysis
           (fun fuel bs V o =>
              forall V', o = Ok V' -> forall l, l ∈ V' -> l ∈ V \/ reach bs l)).
  - done.
  - intros _ V0 V' [= ->] l Hl. by left.
  - done.
  - intros f r rest V0 b Hr Hb IH V' HV' l Hl.
    destruct (IH _ HV' _ Hl) as [?|?]; [by left | right; by apply reach_tail].
  - done.
  - intros f r rest V0 b obj Hr Hb Hobj IH1 IH2 V' HV' l Hl.
    apply bind_Ok in HV' as (V1 & H1 & H2).
    destruct (IH2 _ H1 _ H2 _ Hl) as [Hl1|Hl1];
      [| right; by apply reach_tail].
    destruct (IH1 _ H1 _ Hl1) as [Hl0|Hl0].
    + apply elem_of_app in Hl0 as [?|Hl0]; [by left |].
      apply list_elem_of_singleton in Hl0 as ->.
      right. by apply (reach_head r rest b b Hr).
    + right. by apply (reach_children r rest b obj).
Qed.
End FlattenFacts.

Section FlattenComplete.
Context (σ : Store) (analysis : Analysis).

Local Abbreviation flat fuel bs V :=
  (_getFlattenedAndResolvedBehaviors fuel σ bs analysis V).
Local Abbreviation edge := (behaviorEdge σ analysis).
Local Abbreviation reach := (reachableFrom σ analysis).

Lemma flatten_closes fuel bs V V' G :
  closedExcept σ analysis G V -> flat fuel bs V = Ok V' ->
  closedExcept σ analysis G V'
  /\ forall r l, r ∈ bs -> lookupBehavior analysis r = Ok l -> l ∈ V'.
Proof.
  revert G V'.
  apply (flatten_ind σ analysis
           (fun fuel bs V o =>
              forall G V', closedExcept σ analysis G V -> o = Ok V' ->
                closedExcept σ analysis G V'
                /\ forall r l, r ∈ bs -> lookupBehavior analysis r = Ok l
                               -> l ∈ V')).
  - done.
  - intros _ V0 G V' Hc [= ->]. split; [done |].
    intros r l Hr. by apply elem_of_nil in Hr.
  - done.
  - intros f r rest V0 b Hr Hb IH G V' Hc HV'.
    destruct (IH G V' Hc HV') as [Hc' Hrest]. split; [done |].
    intros r' l Hin Hr'. apply elem_of_cons in Hin as [->|Hin].
    + rewrite Hr in Hr'. injection Hr' as <-.
      destruct (flatten_extends _ _ _ _ _ _ HV') as [k ->].
      apply elem_of_app. by left.
    + by apply (Hrest r').
  - done.
  - intros f r rest V0 b obj Hr Hb Hobj IH1 IH2 G V' Hc HV'.
    apply bind_Ok in HV' as (V1 & H1 & H2).
    assert (Hc0 : closedExcept σ analysis (b :: G) (V0 ++ [b])).
    { intros l c Hl Hg He. apply not_elem_of_cons in Hg as [Hlb Hg].
      apply elem_of_app in Hl as [Hl|Hl].
      - apply elem_of_app. left. by apply (Hc l c).
      - by apply list_elem_of_singleton in Hl. }
    destruct (IH1 _ _ Hc0 H1) as [Hc1 Hch].
    assert (Hc1' : closedExcept σ analysis G V1).
    { intros l c Hl Hg He. destruct (decide (l = b)) as [->|Hlb].
      - destruct He as (obj' & r' & Hobj' & Hin & Hr').
        rewrite Hobj in Hobj'. injection Hobj' as <-. by apply (Hch r').
      - apply (Hc1 l c); [done | | done].
        apply not_elem_of_cons. by split. }
    destruct (IH2 _ H1 _ _ Hc1' H2) as [Hc2 Hrest]. split; [done |].
    intros r' l Hin Hr'. apply elem_of_cons in Hin as [->|Hin].
    + rewrite Hr in Hr'. injection Hr' as <-.
      destruct (flatten_extends _ _ _ _ _ _ H2) as [k2 ->].
      destruct (flatten_extends _ _ _ _ _ _ H1) as [k1 ->].
      apply elem_of_app. left. apply elem_of_app. left.
      apply elem_of_app. right. apply list_elem_of_singleton. done.
    + by apply (Hrest r').
Qed.

(** Everything reachable from the list is in the set in the end. *)
Lemma flatten_complete fuel bs V' l :
  flat fuel bs [] = Ok V' -> reach bs l -> l ∈ V'.
Proof.
  intros HV' (r & l0 & Hin & Hr & Hl).
  assert (Hc : closedExcept σ analysis [] []).
  { intros x c Hx. by apply elem_of_nil in Hx. }
  destruct (flatten_closes _ _ _ _ _ Hc HV') as [Hc' Hroots].
  assert (Hl0 : l0 ∈ V') by by apply (Hroots r).
  clear Hr Hin. induction Hl as [x|x y z Hxy _ IH]; [done |].
  apply IH. apply (Hc' x y Hl0); [apply not_elem_of_nil | done].
Qed.

Lemma unvisited_mono V V' : V `prefix_of` V' -> unvisited σ V' <= unvisited σ V.
Proof.
  intros [k ->]. unfold unvisited. apply subseteq_size.
  rewrite list_to_set_app_L. set_solver.
Qed.

Lemma unvisited_new V b :
  is_Some (behaviorObjects σ !! b) -> b ∉ V ->
  unvisited σ (V ++ [b]) < unvisited σ V.
Proof.
  intros Hb HV. unfold unvisited. apply subset_size.
  rewrite list_to_set_app_L. apply elem_of_dom in Hb.
  assert (Hb' : b ∉ (list_to_set V : gset loc))
    by by rewrite elem_of_list_to_set.
  set_solver.
Qed.
End FlattenComplete.

Section FlattenTotal.
Context (σ : Store) (analysis : Analysis).

Local Abbreviation flat fuel bs V :=
  (_getFlattenedAndResolvedBehaviors fuel σ bs analysis V).
Local Abbreviation reach := (reachableFrom σ analysis).
Local Abbreviation met := (encountered σ analysis).

Lemma encountered_tail r rest r' : met rest r' -> met (r :: rest) r'.
Proof.
  intros [Hin|(l & obj & Hl & Hobj & Hin)]; [left; by right |].
  right. exists l, obj. split; [by apply reach_tail | done].
Qed.

Lemma encountered_children r rest b obj r' :
  lookupBehavior analysis r = Ok b ->
  behaviorObjects σ !! b = Some obj ->
  met (b_behaviors obj) r' -> met (r :: rest) r'.
Proof.
  intros Hr Hobj [Hin|(l & obj' & Hl & Hobj' & Hin)]; right.
  - exists b, obj. split; [| done]. apply (reach_head σ analysis r rest b b Hr).
    apply rtc_refl.
  - exists l, obj'. split; [| done]. by apply (reach_children σ analysis r rest b obj).
Qed.

(** With every encountered reference denoting an object, and a budget
    above the number of behavior objects still outside the set, the run
    does not get stuck. *)
Lemma flatten_not_Stuck fuel bs V :
  (forall r, met bs r -> denotes σ analysis r) ->
  unvisited σ V < fuel ->
  flat fuel bs V <> Stuck.
Proof.
  apply (flatten_ind σ analysis
           (fun fuel bs V o =>
              (forall r, met bs r -> denotes σ analysis r) ->
              unvisited σ V < fuel -> o <> Stuck)).
  - intros bs0 V0 _ Hlt. lia.
  - done.
  - done.
  - intros f r rest V0 b Hr Hb IH Hden Hlt. apply IH; [| done].
    intros r' Hr'. by apply Hden, encountered_tail.
  - intros f r rest V0 b Hr Hb Hobj Hden _.
    assert (Hs : is_Some (behaviorObjects σ !! b)).
    { apply (Hden r); [left; left | done]. }
    rewrite Hobj in Hs. by destruct Hs.
  - intros f r rest V0 b obj Hr Hb Hobj IH1 IH2 Hden Hlt.
    assert (Hnew : unvisited σ (V0 ++ [b]) < unvisited σ V0).
    { apply unvisited_new; [by rewrite Hobj | done]. }
    assert (H1 : flat f (b_behaviors obj) (V0 ++ [b]) <> Stuck).
    { apply IH1; [| lia]. intros r' Hr'.
      by apply Hden, (encountered_children r rest b obj). }
    destruct (flat f (b_behaviors obj) (V0 ++ [b])) as [V1| |] eqn:HV1;
      simpl; [| done | done].
    apply (IH2 V1 eq_refl).
    + intros r' Hr'. by apply Hden, encountered_tail.
    + pose proof (flatten_extends _ _ _ _ _ _ HV1) as Hpre.
      pose proof (unvisited_mono σ _ _ Hpre). lia.
Qed.

(** The only error is an encountered name that the index does not hold. *)
Lemma flatten_Throw fuel bs V e :
  flat fuel bs V = Throw e ->
  exists n, e = UnresolvedBehavior n
            /\ getBehavior analysis n = None
            /\ met bs (ByName n).
Proof.
  revert e.
  apply (flatten_ind σ analysis
           (fun fuel bs V o =>
              forall e, o = Throw e ->
                exists n, e = UnresolvedBehavior n
                          /\ getBehavior analysis n = None
                          /\ met bs (ByName n))).
  - done.
  - done.
  - intros f r rest V0 e Hr e' [= <-].
    destruct r as [n|b]; simpl in Hr; [| done].
    destruct (getBehavior analysis n) eqn:Hn; [done |].
    injection Hr as <-. exists n. split; [done |]. split; [done |].
    left. left.
  - intros f r rest V0 b Hr Hb IH e He.
    destruct (IH e He) as (n & -> & Hn & Hm).
    exists n. split; [done |]. split; [done |]. by apply encountered_tail.
  - done.
  - intros f r rest V0 b obj Hr Hb Hobj IH1 IH2 e He.
    destruct (flat f (b_behaviors obj) (V0 ++ [b])) as [V1|e1|] eqn:HV1;
      simpl in He; [| | done].
    + destruct (IH2 V1 eq_refl e He) as (n & -> & Hn & Hm).
      exists n. split; [done |]. split; [done |]. by apply encountered_tail.
    + injection He as <-. destruct (IH1 e1 eq_refl) as (n & -> & Hn & Hm).
      exists n. split; [done |]. split; [done |].
      by apply (encountered_children r rest b obj).
Qed.

Lemma unvisited_flattenFuel : unvisited σ [] < flattenFuel σ.
Proof.
  unfold unvisited, flattenFuel. simpl.
  rewrite difference_empty_L, size_dom. lia.
Qed.

Lemma resolves_denotes r : resolves σ analysis r -> denotes σ analysis r.
Proof. intros (l & Hl & Hs) l' Hl'. rewrite Hl in Hl'. by injection Hl' as <-. Qed.

(** When every encountered entry resolves, flattening returns. *)
Lemma flatten_returns bs :
  (forall r, met bs r -> resolves σ analysis r) ->
  exists V, getFlattenedAndResolvedBehaviors σ bs analysis = Ok V.
Proof.
  intros Hres. unfold getFlattenedAndResolvedBehaviors.
  destruct (flat (flattenFuel σ) bs []) as [V|e|] eqn:HV.
  - by exists V.
  - apply flatten_Throw in HV as (n & -> & Hn & Hm).
    destruct (Hres _ Hm) as (l & Hl & _). simpl in Hl. by rewrite Hn in Hl.
  - exfalso. revert HV. apply flatten_not_Stuck.
    + intros r Hr. by apply resolves_denotes, Hres.
    + apply unvisited_flattenFuel.
Qed.
End FlattenTotal.

Lemma set_add_elem (V : list loc) (b x : loc) :
  x ∈ set_add V b <-> x ∈ V \/ x = b.
Proof.
  destruct (decide (b ∈ V)) as [Hb|Hb].
  - rewrite (set_add_old _ _ Hb). split; [by left |].
    intros [?| ->]; done.
  - rewrite (set_add_new _ _ Hb), elem_of_app, list_elem_of_singleton. done.
Qed.

Lemma firstOccurrences_snoc T b :
  firstOccurrences (T ++ [b]) = set_add (firstOccurrences T) b.
Proof. unfold firstOccurrences. by rewrite foldl_app. Qed.

Lemma firstOccurrences_elem T b : b ∈ firstOccurrences T <-> b ∈ T.
Proof.
  induction T as [|x T IH] using rev_ind; [done |].
  rewrite firstOccurrences_snoc, set_add_elem, IH, elem_of_app,
    list_elem_of_singleton. done.
Qed.

Section FlattenOrder.
Context (σ : Store) (analysis : Analysis).

Local Abbreviation flat fuel bs V :=
  (_getFlattenedAndResolvedBehaviors fuel σ bs analysis V).

Lemma dfsEncounters_cons fuel r rest T :
  dfsEncounters (S fuel) σ analysis (r :: rest) T =
  (b <- lookupBehavior analysis r ;;
   if bool_decide (b ∈ T)
   then dfsEncounters (S fuel) σ analysis rest (T ++ [b])
   else
     match behaviorObjects σ !! b with
     | None => Stuck
     | Some obj =>
         T' <- dfsEncounters fuel σ analysis (b_behaviors obj) (T ++ [b]) ;;
         dfsEncounters (S fuel) σ analysis rest T'
     end).
Proof. reflexivity. Qed.

(** The set is, at every return, the first occurrences of the sequence of
    encounters of the traversal. *)
Lemma flatten_firstOccurrences fuel bs V V' T :
  V = firstOccurrences T -> flat fuel bs V = Ok V' ->
  exists T', dfsEncounters fuel σ analysis bs T = Ok T'
             /\ V' = firstOccurrences T'.
Proof.
  revert T V'.
  apply (flatten_ind σ analysis
           (fun fuel bs V o =>
              forall T V', V = firstOccurrences T -> o = Ok V' ->
                exists T', dfsEncounters fuel σ analysis bs T = Ok T'
                           /\ V' = firstOccurrences T')).
  - done.
  - intros f V0 T V' -> [= <-]. by exists T.
  - done.
  - intros f r rest V0 b Hr Hb IH T V' -> HV'.
    rewrite dfsEncounters_cons, Hr. simpl.
    rewrite bool_decide_eq_true_2 by by apply firstOccurrences_elem.
    apply IH; [| done].
    by rewrite firstOccurrences_snoc, set_add_old.
  - done.
  - intros f r rest V0 b obj Hr Hb Hobj IH1 IH2 T V' -> HV'.
    apply bind_Ok in HV' as (V1 & H1 & H2).
    rewrite dfsEncounters_cons, Hr. simpl.
    rewrite bool_decide_eq_false_2
      by (intros Hin; by apply Hb, firstOccurrences_elem).
    rewrite Hobj.
    destruct (IH1 (T ++ [b]) V1) as (T1 & HT1 & ->); [| done |].
    { by rewrite firstOccurrences_snoc, set_add_new. }
    rewrite HT1. simpl. by apply (IH2 _ H1).
Qed.
End FlattenOrder.

Lemma encountered_resolves_of_store σ analysis bs :
  (forall r, r ∈ bs -> resolves σ analysis r) ->
  (forall l obj r, behaviorObjects σ !! l = Some obj -> r ∈ b_behaviors obj ->
                   resolves σ analysis r) ->
  forall r, encountered σ analysis bs r -> resolves σ analysis r.
Proof.
  intros Hbs Hstore r [Hin|(l & obj & _ & Hobj & Hin)]; [by apply Hbs |].
  by apply (Hstore l obj).
Qed.

Lemma diamond_resolves r :
  encountered diamondStore diamondAnalysis (b_behaviors B1) r ->
  resolves diamondStore diamondAnalysis r.
Proof.
  assert (H2 : resolves diamondStore diamondAnalysis (ByName "B2")).
  { exists 2. split; [reflexivity | by eexists]. }
  assert (H3 : resolves diamondStore diamondAnalysis (ByName "B3")).
  { exists 3. split; [reflexivity | by eexists]. }
  apply encountered_resolves_of_store.
  - intros r0 Hin. simpl in Hin.
    apply elem_of_cons in Hin as [->|Hin]; [done |].
    apply elem_of_cons in Hin as [->|Hin]; [done |].
    by apply elem_of_nil in Hin.
  - intros l obj r0 Hobj Hin. unfold diamondStore in Hobj. simpl in Hobj.
    apply lookup_insert_Some in Hobj as [[_ <-]|[_ Hobj]].
    { simpl in Hin.
      apply elem_of_cons in Hin as [->|Hin]; [done |].
      apply elem_of_cons in Hin as [->|Hin]; [done |].
      by apply elem_of_nil in Hin. }
    apply lookup_insert_Some in Hobj as [[_ <-]|[_ Hobj]].
    { simpl in Hin.
      apply elem_of_cons in Hin as [->|Hin]; [done |].
      by apply elem_of_nil in Hin. }
    apply lookup_insert_Some in Hobj as [[_ <-]|[_ Hobj]].
    { simpl in Hin. by apply elem_of_nil in Hin. }
    by rewrite lookup_empty in Hobj.
Qed.

(** C2.  When every entry the traversal can come across resolves,
    flattening returns; the result holds each behavior object reachable
    from the list exactly once and nothing else, and it lists them in the
    order of their first encounter by the depth-first traversal of the
    [behaviors] lists. *)
Theorem flatten_each_behavior_once_in_dfs_order (σ : Store)
  (analysis : Analysis) (behaviors : list BehaviorRef) :
  (forall r, encountered σ analysis behaviors r -> resolves σ analysis r) ->
  exists flattened encounters,
    getFlattenedAndResolvedBehaviors σ behaviors analysis = Ok flattened
    /\ NoDup flattened
    /\ (forall l, l ∈ flattened <-> reachableFrom σ analysis behaviors l)
    /\ dfsEncounters (flattenFuel σ) σ analysis behaviors [] = Ok encounters
    /\ flattened = firstOccurrences encounters.
Proof.
  intros Hres.
  destruct (flatten_returns σ analysis behaviors Hres) as [V HV].
  unfold getFlattenedAndResolvedBehaviors in *.
  destruct (flatten_firstOccurrences σ analysis _ _ [] V [] eq_refl HV)
    as (T & HT & HVT).
  exists V, T. split; [done |]. split; [| split; [| done]].
  - apply (flatten_NoDup σ analysis (flattenFuel σ) behaviors [] V);
      [apply NoDup_nil_2 | done].
  - intros l. split.
    + intros Hl. destruct (flatten_sound σ analysis _ _ _ _ HV l Hl) as [H|H];
        [by apply elem_of_nil in H | done].
    + by apply (flatten_complete σ analysis _ _ _ _ HV).
Qed.

(** The diamond of the claim: flattening the list of [B1] gives [B2] then
    [B3], the latter once. *)
Lemma flatten_diamond_witness :
  getFlattenedAndResolvedBehaviors diamondStore (b_behaviors B1)
    diamondAnalysis = Ok [2; 3]
  /\ dfsEncounters (flattenFuel diamondStore) diamondStore diamondAnalysis
       (b_behaviors B1) [] = Ok [2; 3; 3]
  /\ exists flattened encounters,
       getFlattenedAndResolvedBehaviors diamondStore (b_behaviors B1)
         diamondAnalysis = Ok flattened
       /\ NoDup flattened
       /\ (forall l, l ∈ flattened
                     <-> reachableFrom diamondStore diamondAnalysis
                           (b_behaviors B1) l)
       /\ dfsEncounters (flattenFuel diamondStore) diamondStore
            diamondAnalysis (b_behaviors B1) [] = Ok encounters
       /\ flattened = firstOccurrences encounters.
Proof.
  split; [vm_compute; reflexivity |]. split; [vm_compute; reflexivity |].
  apply (flatten_each_behavior_once_in_dfs_order diamondStore diamondAnalysis
           (b_behaviors B1)).
  exact diamond_resolves.
Defined.

(** ** [resolveElement] *)

Lemma alloc_fresh σ obj :
  elementObjects σ !! (alloc σ obj).2 = None.
Proof.
  unfold alloc. simpl. apply not_elem_of_dom. apply is_fresh.
Qed.

Lemma resolveElement_Ok σ l analysis σ' c :
  resolveElement σ l analysis = Ok (σ', c) ->
  exists e properties attributes events,
    elementObjects σ !! l = Some e
    /\ (σ', c) = alloc σ (cloneWith e properties attributes events).
Proof.
  unfold resolveElement. destruct (elementObjects σ !! l) as [e|]; [| done].
  intros H. apply bind_Ok in H as ([[ps as_] es] & _ & H).
  simpl in H. exists e, ps, as_, es. split; [done |]. congruence.
Qed.

Lemma alloc_extends σ obj : extendsStore σ (alloc σ obj).1.
Proof.
  split; [| done]. intros l Hl. unfold alloc. simpl.
  apply lookup_insert_ne. intros <-.
  pose proof (alloc_fresh σ obj) as Hf. unfold alloc in Hf. simpl in Hf.
  rewrite Hf in Hl. by destruct Hl.
Qed.

Lemma alloc_lookup σ obj :
  elementObjects (alloc σ obj).1 !! (alloc σ obj).2 = Some obj.
Proof. unfold alloc. simpl. apply lookup_insert_eq. Qed.

(** C9.  When [resolveElement] returns, the store is the one it was called
    in plus one new object, the resolved element: the input descriptor and
    every other object are what they were, and the resolved element has
    the input's tag name, behaviors list and remaining fields. *)
Theorem resolveElement_frame (σ : Store) (elementDescriptor : loc)
  (analysis : Analysis) (σ' : Store) (resolved : loc) :
  resolveElement σ elementDescriptor analysis = Ok (σ', resolved) ->
  exists e clone,
    elementObjects σ !! elementDescriptor = Some e
    /\ elementObjects σ' !! elementDescriptor = Some e
    /\ (forall l, is_Some (elementObjects σ !! l) ->
                  elementObjects σ' !! l = elementObjects σ !! l)
    /\ behaviorObjects σ' = behaviorObjects σ
    /\ elementObjects σ !! resolved = None
    /\ elementObjects σ' !! resolved = Some clone
    /\ tagName clone = tagName e
    /\ e_behaviors clone = e_behaviors e
    /\ e_other clone = e_other e.
Proof.
  intros H. apply resolveElement_Ok in H as (e & ps & as_ & es & He & Ha).
  pose proof (alloc_extends σ (cloneWith e ps as_ es)) as [Hext Hb].
  pose proof (alloc_fresh σ (cloneWith e ps as_ es)) as Hf.
  pose proof (alloc_lookup σ (cloneWith e ps as_ es)) as Hc.
  rewrite <- Ha in Hext, Hb, Hf, Hc. simpl in *.
  exists e, (cloneWith e ps as_ es).
  split; [done |]. split; [| done].
  rewrite Hext; [done | by rewrite He].
Qed.

Lemma resolveElement_frame_witness :
  exists σ' resolved,
    resolveElement sampleStore 10 sampleIndexed = Ok (σ', resolved)
    /\ exists e clone,
         elementObjects sampleStore !! 10 = Some e
         /\ elementObjects σ' !! 10 = Some e
         /\ (forall l, is_Some (elementObjects sampleStore !! l) ->
                       elementObjects σ' !! l = elementObjects sampleStore !! l)
         /\ behaviorObjects σ' = behaviorObjects sampleStore
         /\ elementObjects sampleStore !! resolved = None
         /\ elementObjects σ' !! resolved = Some clone
         /\ tagName clone = tagName e
         /\ e_behaviors clone = e_behaviors e
         /\ e_other clone = e_other e.
Proof.
  assert (H : resolveElement sampleStore 10 sampleIndexed
              = Ok (alloc sampleStore
                      (cloneWith x_a [q_local; mkItem "p1" (Some "B") ""]
                         [] []))).
  { vm_compute. reflexivity. }
  eexists _, _. split; [exact H |].
  exact (resolveElement_frame _ _ _ _ _ H).
Defined.

(** ** Strings *)

Lemma append_assoc (a b c : string) : (a +:+ b) +:+ c = a +:+ (b +:+ c).
Proof.
  induction a as [|x a IH]; [done |].
  change (String x ((a +:+ b) +:+ c) = String x (a +:+ b +:+ c)).
  by rewrite IH.
Qed.

Lemma append_empty_r (a : string) : a +:+ "" = a.
Proof.
  induction a as [|x a IH]; [done |].
  change (String x (a +:+ "") = String x a). by rewrite IH.
Qed.

Lemma occursIn_refl s : occursIn s s.
Proof. exists "", "". simpl. by rewrite append_empty_r. Qed.

Lemma occursIn_app_l sub s p : occursIn sub s -> occursIn sub (p +:+ s).
Proof.
  intros (pre & post & ->). exists (p +:+ pre), post. by rewrite append_assoc.
Qed.

Lemma occursIn_app_r sub s q : occursIn sub s -> occursIn sub (s +:+ q).
Proof.
  intros (pre & post & ->). exists pre, (post +:+ q).
  by rewrite !append_assoc.
Qed.

Lemma occursIn_trans a b c : occursIn a b -> occursIn b c -> occursIn a c.
Proof.
  intros Hab (pre & post & ->). by apply occursIn_app_l, occursIn_app_r.
Qed.

Lemma occursIn_join sep x xs : x ∈ xs -> occursIn x (join sep xs).
Proof.
  induction xs as [|y xs IH]; intros Hin; [by apply elem_of_nil in Hin |].
  destruct xs as [|z xs].
  - apply list_elem_of_singleton in Hin as ->. apply occursIn_refl.
  - change (join sep (y :: z :: xs))
      with (y +:+ sep +:+ join sep (z :: xs)).
    apply elem_of_cons in Hin as [->|Hin].
    + apply occursIn_app_r, occursIn_refl.
    + by apply occursIn_app_l, occursIn_app_l, IH.
Qed.

(** ** [Analysis.validate] *)

Lemma newValidationError_lists_all result :
  exists message,
    newValidationError result = ValidationError message (errors result)
    /\ forall err, err ∈ errors result -> occursIn (violationText err) message.
Proof.
  eexists. split; [reflexivity |]. intros err Herr.
  do 4 apply occursIn_app_l.
  apply (occursIn_trans _ ("    " +:+ violationText err)).
  - apply occursIn_app_l, occursIn_refl.
  - apply occursIn_join, list_elem_of_fmap. by exists err.
Qed.

(** C4, as amended.  [validate] throws whenever [schema_version] does not
    match [1.x.x]; on a structurally valid object it throws the version
    error exactly then.  When the validator reports violations, the error
    thrown is one [ValidationError] that carries every violation and whose
    message holds the text of each; the version is not checked on that
    path, so the error is the same whatever [schema_version] is. *)
Theorem validate_throws (validator : option Elements -> ValidationResult)
  (analyzedPackage : Elements) :
  let result := validator (Some analyzedPackage) in
  let version := schema_version analyzedPackage in
  (testSchemaVersion version = false ->
   exists thrown, validate validator (Some analyzedPackage) = Some thrown)
  /\ (throwError result = None -> errors result = [] ->
      validate validator (Some analyzedPackage)
      = if testSchemaVersion version then None
        else Some (InvalidSchemaVersion
                     ("Invalid schema_version in AnalyzedPackage. "
                        +:+ "Expected 1.x.x, got " +:+ version)))
  /\ (throwError result = None -> errors result <> [] ->
      exists message,
        validate validator (Some analyzedPackage)
        = Some (ValidationError message (errors result))
        /\ (forall err, err ∈ errors result ->
                        occursIn (violationText err) message)
        /\ forall other,
             validator (Some other) = result ->
             validate validator (Some other)
             = validate validator (Some analyzedPackage)).
Proof.
  simpl. unfold validate.
  destruct (throwError (validator (Some analyzedPackage))) as [e|] eqn:Ht.
  - split; [intros _; by eexists |]. split; done.
  - destruct (errors (validator (Some analyzedPackage))) as [|v vs] eqn:He.
    + simpl. split; [| split; [| done]].
      * intros ->. simpl. by eexists.
      * intros _ _. by destruct (testSchemaVersion _).
    + simpl. split; [intros _; by eexists |]. split; [done |].
      intros _ _.
      destruct (newValidationError_lists_all
                  (validator (Some analyzedPackage))) as (message & Hm & Hall).
      exists message. rewrite Hm, He. split; [done |].
      split; [intros err; rewrite <- He; apply Hall |].
      intros other ->. by rewrite Ht, He, Hm, He.
Qed.

Lemma validate_throws_witness :
  testSchemaVersion "2.0.0" = false
  /\ validate lenientValidator (Some (mkElements "2.0.0"))
     = Some (InvalidSchemaVersion
               "Invalid schema_version in AnalyzedPackage. Expected 1.x.x, got 2.0.0")
  /\ validate lenientValidator (Some (mkElements "1.2.3")) = None
  /\ exists message,
       validate strictValidator (Some (mkElements "2.0.0"))
       = Some (ValidationError message [missingElements])
       /\ (forall err, err ∈ [missingElements] ->
                       occursIn (violationText err) message)
       /\ forall other,
            strictValidator (Some other)
            = strictValidator (Some (mkElements "2.0.0")) ->
            validate strictValidator (Some other)
            = validate strictValidator (Some (mkElements "2.0.0")).
Proof.
  split; [reflexivity |]. split; [vm_compute; reflexivity |].
  split; [vm_compute; reflexivity |].
  apply (validate_throws strictValidator (mkElements "2.0.0")); done.
Defined.

(** C4 as it is stated fails: with a violation reported, the aggregate
    error says nothing of the version check; it is the same error for a
    version that matches and for one that does not. *)
Lemma validate_aggregate_omits_version_check :
  testSchemaVersion "2.0.0" = false
  /\ testSchemaVersion "1.2.3" = true
  /\ validate strictValidator (Some (mkElements "2.0.0"))
     = Some (ValidationError
               "Unable to validate serialized Polymer analysis. Got 1 errors:     requires property elements"
               [missingElements])
  /\ validate strictValidator (Some (mkElements "1.2.3"))
     = validate strictValidator (Some (mkElements "2.0.0"))
  /\ includes "schema_version"
       "Unable to validate serialized Polymer analysis. Got 1 errors:     requires property elements"
     = false
  /\ includes "2.0.0"
       "Unable to validate serialized Polymer analysis. Got 1 errors:     requires property elements"
     = false.
Proof. repeat split; vm_compute; reflexivity. Qed.

(** ** The package gatherer *)

Lemma set_add_NoDup (s : list string) (k : string) :
  NoDup s -> NoDup (set_add s k).
Proof.
  intros Hnd. unfold set_add, set_has. case_bool_decide; [done |].
  apply NoDup_app. split; [done |]. split; [| apply NoDup_singleton].
  intros x Hx Hin. apply list_elem_of_singleton in Hin. by subst x.
Qed.

Lemma visitDocumentDescriptor_records (path : Path)
  (dd : DocumentDescriptor) (this : PackageGatherer) :
  let this' := PackageGatherer_visitDocumentDescriptor path dd this in
  let documentUrl := document_url (document dd) in
  (NoDup (packageDirs this) -> NoDup (packageDirs this'))
  /\ (forall d, d ∈ packageDirs this -> d ∈ packageDirs this')
  /\ (isJsonDocument (document dd) = true ->
      basename path documentUrl ∈ packageFileNames ->
      dirname path documentUrl ∈ packageDirs this')
  /\ (isJsonDocument (document dd) = false
      \/ basename path documentUrl ∉ packageFileNames ->
      this' = this).
Proof.
  simpl. unfold PackageGatherer_visitDocumentDescriptor, set_has.
  destruct (isJsonDocument (document dd)); simpl.
  - case_bool_decide as Hb; simpl.
    + case_bool_decide as Hd; simpl.
      * split; [done |]. split; [done |]. split; [done |].
        intros [?|?]; done.
      * split; [apply set_add_NoDup |].
        split; [| split].
        -- intros d Hin. unfold set_add, set_has.
           case_bool_decide; [done |]. apply elem_of_app. by left.
        -- intros _ _. unfold set_add, set_has.
           case_bool_decide; [done |]. apply elem_of_app. right. left.
        -- intros [?|?]; done.
    + split; [done |]. split; [done |]. split; [done | done].
  - split; [done |]. split; [done |]. split; [done | done].
Qed.

(** ** The element gatherer *)

Lemma getPathFromAncestors_truthy ancestors p :
  _getPathFromAncestors ancestors = Some p -> truthy p = true.
Proof.
  unfold _getPathFromAncestors. intros H.
  apply fmap_Some in H as (dd & Hlast & ->).
  apply last_Some_elem_of in Hlast. unfold documentAncestors in Hlast.
  apply list_elem_of_omap in Hlast as (d & _ & Hd).
  destruct d as [dd'| | | | | |]; try done.
  destruct (truthy (url dd')) eqn:Ht; [| done]. by injection Hd as <-.
Qed.

Lemma distinctPaths_message_names_both toString d path recorded :
  occursIn path (message toString (DistinctPaths d path recorded))
  /\ occursIn recorded (message toString (DistinctPaths d path recorded)).
Proof.
  simpl. split.
  - do 3 apply occursIn_app_l. apply occursIn_app_r, occursIn_refl.
  - do 5 apply occursIn_app_l. apply occursIn_refl.
Qed.

Lemma visitElement_recorded d ancestors this path recorded :
  _getPathFromAncestors ancestors = Some path ->
  elementPaths this !! d = Some recorded ->
  ElementGatherer_visitElement d ancestors this
  = if decide (recorded = path) then Ok this
    else Throw (DistinctPaths d path recorded).
Proof.
  intros Hp Hr. unfold ElementGatherer_visitElement.
  rewrite Hp, (getPathFromAncestors_truthy _ _ Hp), Hr. done.
Qed.

Lemma visitBehavior_recorded d ancestors this path recorded :
  _getPathFromAncestors ancestors = Some path ->
  behaviorPaths this !! d = Some recorded ->
  ElementGatherer_visitBehavior d ancestors this
  = if decide (recorded = path) then Ok this
    else Throw (DistinctPaths d path recorded).
Proof.
  intros Hp Hr. unfold ElementGatherer_visitBehavior.
  rewrite Hp, (getPathFromAncestors_truthy _ _ Hp), Hr. done.
Qed.

Lemma record_once (l : loc) (p : string) (ls : list loc)
  (paths : gmap loc string) :
  NoDup ls -> (forall x, x ∈ ls <-> is_Some (paths !! x)) ->
  paths !! l = None ->
  NoDup (ls ++ [l])
  /\ forall x, x ∈ ls ++ [l] <-> is_Some (<[l := p]> paths !! x).
Proof.
  intros Hnd Hdom Hl. split.
  - apply NoDup_app. split; [done |]. split; [| apply NoDup_singleton].
    intros x Hx Hin. apply list_elem_of_singleton in Hin as ->.
    apply Hdom in Hx. rewrite Hl in Hx. by destruct Hx.
  - intros x. rewrite elem_of_app, list_elem_of_singleton, Hdom.
    destruct (decide (l = x)) as [->|Hne].
    + rewrite lookup_insert_eq. split; [by eexists | by right].
    + rewrite lookup_insert_ne by done. split; [| by left].
      intros [?|?]; [done | congruence].
Qed.

Lemma visitElement_recordedOnce d ancestors this this' :
  recordedOnce this ->
  ElementGatherer_visitElement d ancestors this = Ok this' ->
  recordedOnce this'
  /\ elementDescriptors this `prefix_of` elementDescriptors this'
  /\ behaviorDescriptors this' = behaviorDescriptors this
  /\ d ∈ elementDescriptors this'.
Proof.
  intros (Hne & Hnb & He & Hb). unfold ElementGatherer_visitElement.
  destruct (_getPathFromAncestors ancestors) as [p|]; [| done].
  destruct (truthy p); [| done]. simpl.
  destruct (elementPaths this !! d) as [q|] eqn:Hq.
  - destruct (decide (q = p)); [| done]. intros [= <-].
    split; [done |]. split; [done |]. split; [done |].
    apply He. by rewrite Hq.
  - intros [= <-]. simpl.
    destruct (record_once d p _ _ Hne He Hq) as [Hnd' Hdom'].
    split; [done |]. split; [by apply prefix_app_r |]. split; [done |].
    apply elem_of_app. right. left.
Qed.

Lemma visitBehavior_recordedOnce d ancestors this this' :
  recordedOnce this ->
  ElementGatherer_visitBehavior d ancestors this = Ok this' ->
  recordedOnce this'
  /\ behaviorDescriptors this `prefix_of` behaviorDescriptors this'
  /\ elementDescriptors this' = elementDescriptors this
  /\ d ∈ behaviorDescriptors this'.
Proof.
  intros (Hne & Hnb & He & Hb). unfold ElementGatherer_visitBehavior.
  destruct (_getPathFromAncestors ancestors) as [p|]; [| done].
  destruct (truthy p); [| done]. simpl.
  destruct (behaviorPaths this !! d) as [q|] eqn:Hq.
  - destruct (decide (q = p)); [| done]. intros [= <-].
    split; [done |]. split; [done |]. split; [done |].
    apply Hb. by rewrite Hq.
  - intros [= <-]. simpl.
    destruct (record_once d p _ _ Hnb Hb Hq) as [Hnd' Hdom'].
    split; [done |]. split; [by apply prefix_app_r |]. split; [done |].
    apply elem_of_app. right. left.
Qed.

(** ** The walker *)

Lemma forEach_app {A S} (body : A -> S -> Outcome S) (xs ys : list A) (s : S) :
  forEach body (xs ++ ys) s = (s' <- forEach body xs s ;; forEach body ys s').
Proof.
  revert s. induction xs as [|x xs IH]; intros s; simpl; [done |].
  destruct (body x s) as [s1| |]; simpl; [apply IH | done | done].
Qed.

(** Induction on descriptors, with the hypothesis for every entity and
    dependency of a document. *)
Lemma Descriptor_nested_ind (P : Descriptor -> Prop)
  (Q : DocumentDescriptor -> Prop) :
  (forall dd, Q dd -> P (DDocument dd)) ->
  (forall idd, P (DInlineDocument idd)) ->
  (forall b, P (DBehavior b)) ->
  (forall e, P (DElement e)) ->
  (forall i, P (DImport i)) ->
  P DNull ->
  (forall inspected, P (DUnknown inspected)) ->
  (forall u doc es ds,
      Forall P es -> Forall P ds -> Q (mkDocumentDescriptor u doc es ds)) ->
  (forall d, P d) /\ (forall dd, Q dd).
Proof.
  intros HD HI HB HE HIm HN HU HQ.
  assert (HP : forall d, P d).
  { fix IH 1.
    intros [dd|idd|b|e|i| |inspected];
      [| apply HI | apply HB | apply HE | apply HIm | apply HN | apply HU].
    apply HD. destruct dd as [u doc es ds]. apply HQ.
    - revert es. fix IHes 1. intros [|x es]; constructor;
        [apply IH | apply IHes].
    - revert ds. fix IHds 1. intros [|x ds]; constructor;
        [apply IH | apply IHds]. }
  split; [exact HP |].
  intros [u doc es ds]. apply HQ; apply Forall_forall; intros x _; apply HP.
Qed.

Section WalkVisits.
Context {S : Type} (visitors : list (AnalysisVisitor S)).

Lemma forEach_walk_visits (es : list Descriptor) (ancestors : list Descriptor)
  (s : S) :
  Forall (fun e => forall ancestors s,
            _walkEntity visitors e ancestors s
            = forEach (dispatch visitors) (visitsOf e ancestors) s) es ->
  forEach (fun e s => _walkEntity visitors e ancestors s) es s
  = forEach (dispatch visitors)
      (flat_map (fun e => visitsOf e ancestors) es) s.
Proof.
  intros Hall. revert s.
  induction Hall as [|e es He _ IH]; intros s; simpl; [done |].
  rewrite forEach_app, He.
  destruct (forEach (dispatch visitors) (visitsOf e ancestors) s);
    simpl; [apply IH | done | done].
Qed.

Lemma dispatch_single (v : Visit * list Descriptor) (s : S) :
  forEach (dispatch visitors) [v] s = dispatch visitors v s.
Proof. simpl. by destruct (dispatch visitors v s). Qed.

(** The walk of an entity is the sequence of its visits, dispatched in
    order. *)
Lemma walkEntity_visits :
  (forall d ancestors s,
      _walkEntity visitors d ancestors s
      = forEach (dispatch visitors) (visitsOf d ancestors) s)
  /\ (forall dd ancestors s,
         _walkDocumentDescriptor visitors dd ancestors s
         = forEach (dispatch visitors) (visitsOfDocument dd ancestors) s).
Proof.
  apply Descriptor_nested_ind.
  - intros dd Hdd ancestors s. apply Hdd.
  - intros idd ancestors s. symmetry. apply dispatch_single.
  - intros b ancestors s. symmetry. apply dispatch_single.
  - intros e ancestors s. symmetry. apply dispatch_single.
  - intros i ancestors s. symmetry. apply dispatch_single.
  - done.
  - intros inspected ancestors s. done.
  - intros u doc es ds Hes Hds ancestors s.
    set (dd := mkDocumentDescriptor u doc es ds).
    set (ancestors' := ancestors ++ [DDocument dd]).
    change (_walkDocumentDescriptor visitors dd ancestors s)
      with (s <- broadcast visitors visitDocumentDescriptor dd ancestors' s ;;
            s <- forEach (fun e s => _walkEntity visitors e ancestors' s)
                   es s ;;
            forEach (fun e s => _walkEntity visitors e ancestors' s) ds s).
    change (visitsOfDocument dd ancestors)
      with ((VDocument dd, ancestors')
              :: flat_map (fun e => visitsOf e ancestors') es
              ++ flat_map (fun e => visitsOf e ancestors') ds).
    change (forEach (dispatch visitors)
              ((VDocument dd, ancestors')
                 :: flat_map (fun e => visitsOf e ancestors') es
                 ++ flat_map (fun e => visitsOf e ancestors') ds) s)
      with (s <- broadcast visitors visitDocumentDescriptor dd ancestors' s ;;
            forEach (dispatch visitors)
              (flat_map (fun e => visitsOf e ancestors') es
               ++ flat_map (fun e => visitsOf e ancestors') ds) s).
    destruct (broadcast visitors visitDocumentDescriptor dd ancestors' s)
      as [s1| |]; simpl; [| done | done].
    rewrite forEach_app, (forEach_walk_visits es _ s1 Hes).
    destruct (forEach (dispatch visitors) _ s1) as [s2| |]; simpl;
      [| done | done].
    apply (forEach_walk_visits ds _ s2 Hds).
Qed.

Lemma walk_visits (documents : list DocumentDescriptor) (s : S) :
  walk visitors documents s
  = (s' <- forEach (dispatch visitors) (visitsOfForest documents) s ;;
     forEach (fun visitor s =>
                match done visitor with
                | Some finish => finish s
                | None => Ok s
                end) visitors s').
Proof.
  unfold walk, visitsOfForest. f_equal. revert s.
  induction documents as [|dd documents IH]; intros s; simpl; [done |].
  rewrite forEach_app, (proj2 walkEntity_visits).
  destruct (forEach (dispatch visitors) (visitsOfDocument dd []) s);
    simpl; [apply IH | done | done].
Qed.
End WalkVisits.

Lemma dispatch_recorder (v : Visit * list Descriptor)
  (log : list (Visit * list Descriptor)) :
  dispatch [recorder] v log
  = match v.1 with
    | VUnknown inspected => Throw (UnknownDescriptorKind inspected)
    | _ => Ok (log ++ [v])
    end.
Proof. destruct v as [[dd|idd|b|e|i|inspected] ancestors]; reflexivity. Qed.

Lemma forEach_recorder (visits log log' : list (Visit * list Descriptor)) :
  forEach (dispatch [recorder]) visits log = Ok log' -> log' = log ++ visits.
Proof.
  revert log. induction visits as [|v visits IH]; intros log; simpl.
  - intros [= <-]. by rewrite app_nil_r.
  - rewrite dispatch_recorder. intros H.
    apply bind_Ok in H as (log1 & H1 & H2). apply IH in H2 as ->.
    destruct v as [[dd|idd|b|e|i|inspected] ancestors]; simpl in H1;
      try (injection H1 as <-; by rewrite <- app_assoc). done.
Qed.

Lemma forEach_recorder_total (visits log : list (Visit * list Descriptor)) :
  (forall inspected, VUnknown inspected ∉ visits.*1) ->
  forEach (dispatch [recorder]) visits log = Ok (log ++ visits).
Proof.
  revert log. induction visits as [|v visits IH]; intros log Hno; simpl.
  - by rewrite app_nil_r.
  - rewrite dispatch_recorder.
    assert (Hrest : forall inspected, VUnknown inspected ∉ visits.*1).
    { intros inspected Hin. apply (Hno inspected). simpl. by right. }
    destruct v as [[dd|idd|b|e|i|inspected] ancestors]; simpl;
      try (rewrite (IH _ Hrest); by rewrite <- app_assoc).
    exfalso. apply (Hno inspected). simpl. left.
Qed.

Lemma elem_of_flat_map_fst {A B C} (f : A -> list (B * C)) (l : list A) (v : B) :
  v ∈ (flat_map f l).*1 <-> exists x, x ∈ l /\ v ∈ (f x).*1.
Proof.
  induction l as [|x l IH]; simpl.
  - split; [intros H; by apply elem_of_nil in H |].
    intros (x & Hx & _). by apply elem_of_nil in Hx.
  - rewrite fmap_app, elem_of_app, IH. split.
    + intros [H|(y & Hy & H)]; [exists x; split; [left | done] |].
      exists y. split; [by right | done].
    + intros (y & Hy & H). apply elem_of_cons in Hy as [->|Hy]; [by left |].
      right. by exists y.
Qed.

Lemma visitsOfDocument_unfold dd ancestors :
  visitsOfDocument dd ancestors
  = (VDocument dd, ancestors ++ [DDocument dd])
      :: flat_map (fun e => visitsOf e (ancestors ++ [DDocument dd]))
           (entities dd)
      ++ flat_map (fun e => visitsOf e (ancestors ++ [DDocument dd]))
           (dependencies dd).
Proof. by destruct dd. Qed.

(** Every visit is of a descriptor contained through documents. *)
Lemma visitsOf_contains :
  (forall d ancestors v,
      v ∈ (visitsOf d ancestors).*1 ->
      exists x, contains d x /\ toVisit x = Some v)
  /\ (forall dd ancestors v,
         v ∈ (visitsOfDocument dd ancestors).*1 ->
         exists x, contains (DDocument dd) x /\ toVisit x = Some v).
Proof.
  apply Descriptor_nested_ind.
  - intros dd Hdd ancestors v Hv. by apply (Hdd ancestors).
  - intros idd ancestors v Hv. apply list_elem_of_singleton in Hv as ->.
    exists (DInlineDocument idd). split; [constructor | done].
  - intros b ancestors v Hv. apply list_elem_of_singleton in Hv as ->.
    exists (DBehavior b). split; [constructor | done].
  - intros e ancestors v Hv. apply list_elem_of_singleton in Hv as ->.
    exists (DElement e). split; [constructor | done].
  - intros i ancestors v Hv. apply list_elem_of_singleton in Hv as ->.
    exists (DImport i). split; [constructor | done].
  - intros ancestors v Hv. by apply elem_of_nil in Hv.
  - intros inspected ancestors v Hv. apply list_elem_of_singleton in Hv as ->.
    exists (DUnknown inspected). split; [constructor | done].
  - intros u doc es ds Hes Hds ancestors v Hv.
    set (dd := mkDocumentDescriptor u doc es ds) in *.
    rewrite visitsOfDocument_unfold in Hv.
    rewrite fmap_cons, fmap_app in Hv.
    apply elem_of_cons in Hv as [->|Hv].
    { exists (DDocument dd). split; [constructor | done]. }
    apply elem_of_app in Hv as [Hv|Hv];
      apply elem_of_flat_map_fst in Hv as (e & He & Hv).
    + rewrite Forall_forall in Hes.
      destruct (Hes e He _ _ Hv) as (x & Hx & Htv).
      exists x. split; [| done]. by apply (contains_entity dd e).
    + rewrite Forall_forall in Hds.
      destruct (Hds e He _ _ Hv) as (x & Hx & Htv).
      exists x. split; [| done]. by apply (contains_dependency dd e).
Qed.

(** Every descriptor contained through documents is visited. *)
Lemma contains_visitsOf d x v ancestors :
  contains d x -> toVisit x = Some v -> v ∈ (visitsOf d ancestors).*1.
Proof.
  intros Hc Hv. revert ancestors.
  induction Hc as [d|dd e x He Hc IH|dd e x He Hc IH]; intros ancestors.
  - destruct d as [dd|idd|b|e|i| |inspected]; simpl in Hv;
      try (injection Hv as <-; simpl; by left); [| done].
    injection Hv as <-. simpl. rewrite visitsOfDocument_unfold. by left.
  - simpl. rewrite visitsOfDocument_unfold, fmap_cons, fmap_app.
    right. apply elem_of_app. left. apply elem_of_flat_map_fst.
    exists e. split; [done | by apply IH].
  - simpl. rewrite visitsOfDocument_unfold, fmap_cons, fmap_app.
    right. apply elem_of_app. right. apply elem_of_flat_map_fst.
    exists e. split; [done | by apply IH].
Qed.

Lemma toVisit_inj d d' v : toVisit d = Some v -> toVisit d' = Some v -> d = d'.
Proof. destruct d, d'; simpl; congruence. Qed.

Lemma visitsOfForest_inForest documents d v :
  toVisit d = Some v ->
  v ∈ (visitsOfForest documents).*1 <-> inForest documents d.
Proof.
  intros Hv. unfold visitsOfForest, inForest.
  rewrite elem_of_flat_map_fst. split.
  - intros (dd & Hdd & Hin). exists dd. split; [done |].
    destruct (proj2 visitsOf_contains dd _ _ Hin) as (x & Hx & Hxv).
    by rewrite (toVisit_inj d x v).
  - intros (dd & Hdd & Hc). exists dd. split; [done |].
    by apply (contains_visitsOf (DDocument dd) d v []).
Qed.

(** ** The walk of the constructor *)

Lemma forEach_ext {A S} (f g : A -> S -> Outcome S) (xs : list A) (s : S) :
  (forall x s, f x s = g x s) -> forEach f xs s = forEach g xs s.
Proof.
  intros Hfg. revert s. induction xs as [|x xs IH]; intros s; simpl; [done |].
  rewrite Hfg. destruct (g x s); simpl; [apply IH | done | done].
Qed.

Lemma dispatch_gatherStep path v g :
  dispatch [packageGathererVisitor path; elementGathererVisitor] v g
  = gatherStep path v g.
Proof.
  destruct v as [[dd|idd|b|e|i|inspected] ancestors];
    unfold dispatch, gatherStep, broadcast; simpl; try done.
  - by destruct (ElementGatherer_visitBehavior b ancestors (elementsGatherer g)).
  - by destruct (ElementGatherer_visitElement e ancestors (elementsGatherer g)).
Qed.

Lemma gathered_visits path descriptors :
  gathered path descriptors
  = forEach (gatherStep path) (visitsOfForest descriptors) newGatherers.
Proof.
  unfold gathered. rewrite walk_visits.
  rewrite (forEach_ext _ (gatherStep path))
    by (intros; apply dispatch_gatherStep).
  by destruct (forEach (gatherStep path) _ newGatherers).
Qed.

Lemma visitElement_outcome d ancestors this :
  match ElementGatherer_visitElement d ancestors this with
  | Ok _ => True
  | Throw e => forall m, e <> UnresolvedBehavior m
  | Stuck => False
  end.
Proof.
  unfold ElementGatherer_visitElement.
  destruct (_getPathFromAncestors ancestors) as [p|]; [| done].
  destruct (truthy p); simpl; [| done].
  destruct (elementPaths this !! d) as [q|]; [| done].
  by destruct (decide (q = p)).
Qed.

Lemma visitBehavior_outcome d ancestors this :
  match ElementGatherer_visitBehavior d ancestors this with
  | Ok _ => True
  | Throw e => forall m, e <> UnresolvedBehavior m
  | Stuck => False
  end.
Proof.
  unfold ElementGatherer_visitBehavior.
  destruct (_getPathFromAncestors ancestors) as [p|]; [| done].
  destruct (truthy p); simpl; [| done].
  destruct (behaviorPaths this !! d) as [q|]; [| done].
  by destruct (decide (q = p)).
Qed.

(** The walk of the constructor returns or throws, and what it throws is
    not an unresolved behavior. *)
Lemma gather_outcome path visits g :
  match forEach (gatherStep path) visits g with
  | Ok _ => True
  | Throw e => forall m, e <> UnresolvedBehavior m
  | Stuck => False
  end.
Proof.
  revert g. induction visits as [|v visits IH]; intros g; simpl; [done |].
  destruct v as [[dd|idd|b|e|i|inspected] ancestors];
    unfold gatherStep at 1; simpl; try apply IH; [| | done].
  - pose proof (visitBehavior_outcome b ancestors (elementsGatherer g)) as H.
    destruct (ElementGatherer_visitBehavior b ancestors (elementsGatherer g));
      simpl; [apply IH | done | done].
  - pose proof (visitElement_outcome e ancestors (elementsGatherer g)) as H.
    destruct (ElementGatherer_visitElement e ancestors (elementsGatherer g));
      simpl; [apply IH | done | done].
Qed.

Lemma visitElement_members d ancestors this this' :
  recordedOnce this ->
  ElementGatherer_visitElement d ancestors this = Ok this' ->
  forall x, x ∈ elementDescriptors this'
            <-> x ∈ elementDescriptors this \/ x = d.
Proof.
  intros (_ & _ & He & _). unfold ElementGatherer_visitElement.
  destruct (_getPathFromAncestors ancestors) as [p|]; [| done].
  destruct (truthy p); [| done]. simpl.
  destruct (elementPaths this !! d) as [q|] eqn:Hq.
  - destruct (decide (q = p)); [| done]. intros [= <-] x.
    split; [by left |]. intros [?| ->]; [done |]. apply He. by rewrite Hq.
  - intros [= <-] x. simpl.
    by rewrite elem_of_app, list_elem_of_singleton.
Qed.

Lemma visitBehavior_members d ancestors this this' :
  recordedOnce this ->
  ElementGatherer_visitBehavior d ancestors this = Ok this' ->
  forall x, x ∈ behaviorDescriptors this'
            <-> x ∈ behaviorDescriptors this \/ x = d.
Proof.
  intros (_ & _ & _ & Hb). unfold ElementGatherer_visitBehavior.
  destruct (_getPathFromAncestors ancestors) as [p|]; [| done].
  destruct (truthy p); [| done]. simpl.
  destruct (behaviorPaths this !! d) as [q|] eqn:Hq.
  - destruct (decide (q = p)); [| done]. intros [= <-] x.
    split; [by left |]. intros [?| ->]; [done |]. apply Hb. by rewrite Hq.
  - intros [= <-] x. simpl.
    by rewrite elem_of_app, list_elem_of_singleton.
Qed.

Lemma gatherStep_elements path v g g1 :
  recordedOnce (elementsGatherer g) ->
  gatherStep path v g = Ok g1 ->
  recordedOnce (elementsGatherer g1)
  /\ (forall l, l ∈ elementDescriptors (elementsGatherer g1)
                <-> l ∈ elementDescriptors (elementsGatherer g)
                    \/ VElement l = v.1)
  /\ (forall b, b ∈ behaviorDescriptors (elementsGatherer g1)
                <-> b ∈ behaviorDescriptors (elementsGatherer g)
                    \/ VBehavior b = v.1).
Proof.
  intros Hok H1.
  destruct v as [[dd|idd|b|e|i|inspected] ancestors];
    unfold gatherStep in H1; simpl in *;
    try (injection H1 as <-; simpl; split; [done |];
         split; intros x; (split; [by left | by intros [?|?]])).
  - apply bind_Ok in H1 as (eg & Hv & [= <-]). simpl.
    destruct (visitBehavior_recordedOnce _ _ _ _ Hok Hv) as (Hok' & _ & He & _).
    split; [done |]. rewrite He. split.
    + intros x. split; [by left | by intros [?|?]].
    + intros x. rewrite (visitBehavior_members _ _ _ _ Hok Hv x).
      split; (intros [?|Hx]; [by left | right; congruence]).
  - apply bind_Ok in H1 as (eg & Hv & [= <-]). simpl.
    destruct (visitElement_recordedOnce _ _ _ _ Hok Hv) as (Hok' & _ & Hb & _).
    split; [done |]. rewrite Hb. split.
    + intros x. rewrite (visitElement_members _ _ _ _ Hok Hv x).
      split; (intros [?|Hx]; [by left | right; congruence]).
    + intros x. split; [by left | by intros [?|?]].
  - done.
Qed.

(** What a walk that returns has gathered: every descriptor listed once,
    and exactly those met. *)
Lemma gather_elements path visits g g' :
  recordedOnce (elementsGatherer g) ->
  forEach (gatherStep path) visits g = Ok g' ->
  recordedOnce (elementsGatherer g')
  /\ (forall l, l ∈ elementDescriptors (elementsGatherer g')
                <-> l ∈ elementDescriptors (elementsGatherer g)
                    \/ VElement l ∈ visits.*1)
  /\ (forall b, b ∈ behaviorDescriptors (elementsGatherer g')
                <-> b ∈ behaviorDescriptors (elementsGatherer g)
                    \/ VBehavior b ∈ visits.*1).
Proof.
  revert g. induction visits as [|v visits IH]; intros g Hok H; simpl in H.
  - injection H as <-. split; [done |].
    split; intros x; (split; [by left | intros [?|Hx]; [done |]]);
      by apply elem_of_nil in Hx.
  - apply bind_Ok in H as (g1 & H1 & H2).
    destruct (gatherStep_elements _ _ _ _ Hok H1) as (Hok1 & He1 & Hb1).
    destruct (IH _ Hok1 H2) as (Hok' & He & Hb).
    split; [done |]. split.
    + intros x. rewrite He, He1, fmap_cons, elem_of_cons.
      split; [intros [[?|?]|?] | intros [?|[?|?]]]; auto.
    + intros x. rewrite Hb, Hb1, fmap_cons, elem_of_cons.
      split; [intros [[?|?]|?] | intros [?|[?|?]]]; auto.
Qed.

Lemma recordedOnce_new : recordedOnce (elementsGatherer newGatherers).
Proof.
  split; [apply NoDup_nil_2 |]. split; [apply NoDup_nil_2 |].
  split; intros l; simpl; rewrite lookup_empty;
    (split; [intros H; by apply elem_of_nil in H | by intros [? ?]]).
Qed.

(** The elements and behaviors a walk of the constructor has gathered are
    those of the forest. *)
Lemma gathered_inForest path descriptors g :
  gathered path descriptors = Ok g ->
  recordedOnce (elementsGatherer g)
  /\ (forall l, l ∈ elementDescriptors (elementsGatherer g)
                <-> inForest descriptors (DElement l))
  /\ (forall b, b ∈ behaviorDescriptors (elementsGatherer g)
                <-> inForest descriptors (DBehavior b)).
Proof.
  rewrite gathered_visits. intros H.
  destruct (gather_elements _ _ _ _ recordedOnce_new H) as (Hok & He & Hb).
  split; [done |]. split.
  - intros l. rewrite He, (visitsOfForest_inForest descriptors (DElement l))
      by done.
    simpl. split; [intros [Hl|?]; [by apply elem_of_nil in Hl | done] |].
    by right.
  - intros b. rewrite Hb, (visitsOfForest_inForest descriptors (DBehavior b))
      by done.
    simpl. split; [intros [Hl|?]; [by apply elem_of_nil in Hl | done] |].
    by right.
Qed.

(** ** The claims about the walk and its gatherers *)

Lemma gatherStep_packageDirs path v g g1 :
  gatherStep path v g = Ok g1 ->
  (NoDup (packageDirs (packageGatherer g)) ->
   NoDup (packageDirs (packageGatherer g1)))
  /\ (forall d, d ∈ packageDirs (packageGatherer g) ->
                d ∈ packageDirs (packageGatherer g1))
  /\ (forall dd, v.1 = VDocument dd ->
        isJsonDocument (document dd) = true ->
        basename path (document_url (document dd)) ∈ packageFileNames ->
        dirname path (document_url (document dd))
        ∈ packageDirs (packageGatherer g1)).
Proof.
  intros H1.
  destruct v as [[dd|idd|b|e|i|inspected] ancestors];
    unfold gatherStep in H1; simpl in *.
  - injection H1 as <-. simpl.
    destruct (visitDocumentDescriptor_records path dd (packageGatherer g))
      as (Hnd & Hmono & Hrec & _).
    split; [done |]. split; [done |]. by intros dd' [= <-].
  - injection H1 as <-. by repeat split.
  - apply bind_Ok in H1 as (eg & _ & [= <-]). by repeat split.
  - apply bind_Ok in H1 as (eg & _ & [= <-]). by repeat split.
  - injection H1 as <-. by repeat split.
  - done.
Qed.

Lemma gather_packageDirs path visits g g' :
  forEach (gatherStep path) visits g = Ok g' ->
  (NoDup (packageDirs (packageGatherer g)) ->
   NoDup (packageDirs (packageGatherer g')))
  /\ (forall d, d ∈ packageDirs (packageGatherer g) ->
                d ∈ packageDirs (packageGatherer g'))
  /\ (forall dd, VDocument dd ∈ visits.*1 ->
        isJsonDocument (document dd) = true ->
        basename path (document_url (document dd)) ∈ packageFileNames ->
        dirname path (document_url (document dd))
        ∈ packageDirs (packageGatherer g')).
Proof.
  revert g. induction visits as [|v visits IH]; intros g H; simpl in H.
  - injection H as <-. split; [done |]. split; [done |].
    intros dd Hdd. by apply elem_of_nil in Hdd.
  - apply bind_Ok in H as (g1 & H1 & H2).
    destruct (gatherStep_packageDirs _ _ _ _ H1) as (Hnd1 & Hmono1 & Hrec1).
    destruct (IH _ H2) as (Hnd & Hmono & Hrec).
    split; [auto |]. split; [auto |].
    intros dd Hdd Hjson Hname. rewrite fmap_cons in Hdd.
    apply elem_of_cons in Hdd as [Hdd|Hdd]; [| by apply Hrec].
    by apply Hmono, (Hrec1 dd).
Qed.

(** C8, as amended.  On a visit the set keeps what it held and stays free
    of duplicates; the containing directory is recorded when the
    descriptor's document is a [JsonDocument] and the basename of its URL
    is a manifest file name, and the set is left as it was otherwise.  So
    after a walk that returns the set has no duplicates and holds the
    directory of every such document of the forest. *)
Theorem packageGatherer_records_json_manifests (path : Path)
  (dd : DocumentDescriptor) (this : PackageGatherer) :
  let this' := PackageGatherer_visitDocumentDescriptor path dd this in
  let documentUrl := document_url (document dd) in
  (NoDup (packageDirs this) -> NoDup (packageDirs this'))
  /\ (forall d, d ∈ packageDirs this -> d ∈ packageDirs this')
  /\ (isJsonDocument (document dd) = true ->
      basename path documentUrl ∈ packageFileNames ->
      dirname path documentUrl ∈ packageDirs this')
  /\ (isJsonDocument (document dd) = false
      \/ basename path documentUrl ∉ packageFileNames ->
      this' = this)
  /\ (forall descriptors g,
        gathered path descriptors = Ok g ->
        NoDup (packageDirs (packageGatherer g))
        /\ (inForest descriptors (DDocument dd) ->
            isJsonDocument (document dd) = true ->
            basename path documentUrl ∈ packageFileNames ->
            dirname path documentUrl ∈ packageDirs (packageGatherer g))).
Proof.
  simpl.
  destruct (visitDocumentDescriptor_records path dd this)
    as (Hnd & Hmono & Hrec & Hskip).
  split; [done |]. split; [done |]. split; [done |]. split; [done |].
  intros descriptors g Hg. rewrite gathered_visits in Hg.
  destruct (gather_packageDirs _ _ _ _ Hg) as (Hnd' & _ & Hrec').
  split; [apply Hnd', NoDup_nil_2 |].
  intros Hin. apply Hrec'.
  by apply (visitsOfForest_inForest descriptors (DDocument dd) (VDocument dd)).
Qed.


Lemma packageGatherer_records_json_manifests_witness :
  isJsonDocument (document (mkDocumentDescriptor "/a/b/bower.json"
                              (mkDocument true "/a/b/bower.json") [] []))
  = true
  /\ basename posixPath "/a/b/bower.json" ∈ packageFileNames
  /\ dirname posixPath "/a/b/bower.json"
     ∈ packageDirs (PackageGatherer_visitDocumentDescriptor posixPath
                      (mkDocumentDescriptor "/a/b/bower.json"
                         (mkDocument true "/a/b/bower.json") [] [])
                      (mkPackageGatherer ["/a"])).
Proof.
  assert (Hb : basename posixPath "/a/b/bower.json" ∈ packageFileNames).
  { apply (bool_decide_unpack _). vm_compute. exact I. }
  split; [reflexivity |]. split; [exact Hb |].
  by apply (packageGatherer_records_json_manifests posixPath
              (mkDocumentDescriptor "/a/b/bower.json"
                 (mkDocument true "/a/b/bower.json") [] [])
              (mkPackageGatherer ["/a"])).
Defined.

(** C8 as it is stated fails for a document named [package.json] that is
    not a [JsonDocument]: its directory is not recorded, by the visit or by
    the walk of the constructor. *)
Lemma packageGatherer_skips_non_json_manifest :
  basename posixPath (document_url (document packageJsonAsHtml))
  ∈ packageFileNames
  /\ dirname posixPath (document_url (document packageJsonAsHtml)) = "/a"
  /\ packageDirs (PackageGatherer_visitDocumentDescriptor posixPath
                    packageJsonAsHtml (mkPackageGatherer [])) = []
  /\ packageDirs <$> (packageGatherer <$>
       match gathered posixPath [packageJsonAsHtml] with
       | Ok g => Some g
       | _ => None
       end) = Some [].
Proof.
  split; [apply (bool_decide_unpack _); vm_compute; exact I |].
  repeat split; vm_compute; reflexivity.
Qed.


(** C6.  For a visit whose owning path is [path]: a descriptor already
    recorded with that path leaves the gatherer as it is; one recorded with
    another path makes the visit throw the error that names both paths;
    and a visit that returns keeps every descriptor listed once, after the
    ones listed before, as does every walk of the constructor that
    returns. *)
Theorem revisit_is_noop_or_fatal (d : loc) (ancestors : list Descriptor)
  (this : ElementGatherer) (path : string) :
  _getPathFromAncestors ancestors = Some path ->
  (forall recorded, elementPaths this !! d = Some recorded ->
     (recorded = path ->
      ElementGatherer_visitElement d ancestors this = Ok this)
     /\ (recorded <> path ->
         ElementGatherer_visitElement d ancestors this
         = Throw (DistinctPaths d path recorded)))
  /\ (forall recorded, behaviorPaths this !! d = Some recorded ->
        (recorded = path ->
         ElementGatherer_visitBehavior d ancestors this = Ok this)
        /\ (recorded <> path ->
            ElementGatherer_visitBehavior d ancestors this
            = Throw (DistinctPaths d path recorded)))
  /\ (forall toString recorded,
        occursIn path (message toString (DistinctPaths d path recorded))
        /\ occursIn recorded
             (message toString (DistinctPaths d path recorded)))
  /\ (forall this',
        recordedOnce this ->
        ElementGatherer_visitElement d ancestors this = Ok this'
        \/ ElementGatherer_visitBehavior d ancestors this = Ok this' ->
        recordedOnce this'
        /\ elementDescriptors this `prefix_of` elementDescriptors this'
        /\ behaviorDescriptors this `prefix_of` behaviorDescriptors this')
  /\ (forall p descriptors g,
        gathered p descriptors = Ok g -> recordedOnce (elementsGatherer g)).
Proof.
  intros Hp. split; [| split; [| split; [| split]]].
  - intros recorded Hr. rewrite (visitElement_recorded _ _ _ _ _ Hp Hr).
    split; intros Hq; [by rewrite decide_True | by rewrite decide_False].
  - intros recorded Hr. rewrite (visitBehavior_recorded _ _ _ _ _ Hp Hr).
    split; intros Hq; [by rewrite decide_True | by rewrite decide_False].
  - intros toString recorded. apply distinctPaths_message_names_both.
  - intros this' Hok [H|H].
    + destruct (visitElement_recordedOnce _ _ _ _ Hok H) as (? & ? & Hb & _).
      split; [done |]. split; [done |]. by rewrite Hb.
    + destruct (visitBehavior_recordedOnce _ _ _ _ Hok H) as (? & ? & He & _).
      split; [done |]. split; [| done]. by rewrite He.
  - intros p descriptors g Hg. by apply (gathered_inForest p descriptors g).
Qed.

(** In the sample forest element [10] is recorded under [/a/b/c.html]:
    meeting it again there changes nothing, meeting it in
    [/a/behaviors.html] is fatal. *)
Lemma revisit_is_noop_or_fatal_witness :
  _getPathFromAncestors [DDocument behaviors_html] = Some "/a/behaviors.html"
  /\ elementPaths (elementsGatherer sampleGathered) !! 10 = Some "/a/b/c.html"
  /\ ElementGatherer_visitElement 10 [DDocument c_html]
       (elementsGatherer sampleGathered)
     = Ok (elementsGatherer sampleGathered)
  /\ ElementGatherer_visitElement 10 [DDocument behaviors_html]
       (elementsGatherer sampleGathered)
     = Throw (DistinctPaths 10 "/a/behaviors.html" "/a/b/c.html").
Proof.
  assert (Hp : _getPathFromAncestors [DDocument behaviors_html]
               = Some "/a/behaviors.html") by reflexivity.
  assert (Hr : elementPaths (elementsGatherer sampleGathered) !! 10
               = Some "/a/b/c.html") by (vm_compute; reflexivity).
  split; [exact Hp |]. split; [exact Hr |].
  split; [vm_compute; reflexivity |].
  by apply (revisit_is_noop_or_fatal 10 [DDocument behaviors_html]
              (elementsGatherer sampleGathered) "/a/behaviors.html" Hp).
Defined.

(** C3, as amended.  A walk that returns has visited, in walk order,
    exactly the descriptors contained in the top-level documents through
    the entities and dependencies of document descriptors, and it returns
    when none of them is of an unknown kind.  On an inline document the
    walker calls [visitInlineDocumentDescriptor] of every visitor and does
    nothing else: like elements, behaviors and imports, it is a leaf.  The
    elements and behaviors the constructor gathers are therefore those so
    contained. *)
Theorem walk_enters_documents_only (documents : list DocumentDescriptor) :
  (forall log,
      walk [recorder] documents [] = Ok log ->
      log = visitsOfForest documents
      /\ forall d v, toVisit d = Some v ->
                     (v ∈ log.*1 <-> inForest documents d))
  /\ ((forall inspected, ~ inForest documents (DUnknown inspected)) ->
      walk [recorder] documents [] = Ok (visitsOfForest documents))
  /\ (forall (S : Type) (visitors : list (AnalysisVisitor S)) idd ancestors s,
         _walkEntity visitors (DInlineDocument idd) ancestors s
         = broadcast visitors visitInlineDocumentDescriptor idd ancestors s)
  /\ (forall path g,
        gathered path documents = Ok g ->
        (forall l, l ∈ elementDescriptors (elementsGatherer g)
                   <-> inForest documents (DElement l))
        /\ (forall b, b ∈ behaviorDescriptors (elementsGatherer g)
                      <-> inForest documents (DBehavior b))).
Proof.
  split; [| split; [| split; [done |]]].
  3: { intros path g Hg. by apply (gathered_inForest path documents g). }
  - intros log H. rewrite walk_visits in H.
    apply bind_Ok in H as (log1 & H1 & H2). simpl in H2.
    injection H2 as <-. apply forEach_recorder in H1. simpl in H1.
    subst log1. split; [done |]. intros d v Hv.
    by apply visitsOfForest_inForest.
  - intros Hno. rewrite walk_visits.
    rewrite (forEach_recorder_total (visitsOfForest documents) []); [done |].
    intros inspected Hin. apply (Hno inspected).
    by apply (visitsOfForest_inForest documents (DUnknown inspected)
                (VUnknown inspected)).
Qed.

Lemma walk_enters_documents_only_witness :
  walk [recorder] sampleForest [] = Ok (visitsOfForest sampleForest)
  /\ (visitsOfForest sampleForest = visitsOfForest sampleForest
      /\ forall d v, toVisit d = Some v ->
                     (v ∈ (visitsOfForest sampleForest).*1
                      <-> inForest sampleForest d)).
Proof.
  assert (H : walk [recorder] sampleForest []
              = Ok (visitsOfForest sampleForest))
    by (vm_compute; reflexivity).
  split; [exact H |].
  exact (proj1 (walk_enters_documents_only sampleForest) _ H).
Defined.

(** C3 as it is stated fails: an element inside an inline document is not
    visited and not gathered, while the same element inside a nested
    document is. *)
Lemma walk_skips_inline_contents :
  DElement 10 ∈ inline_entities inlineBlock
  /\ walk [recorder] inlineForest []
     = Ok [(VDocument inline_html, [DDocument inline_html]);
           (VInlineDocument inlineBlock, [DDocument inline_html])]
  /\ elementDescriptors <$> (elementsGatherer <$>
       match gathered posixPath inlineForest with
       | Ok g => Some g
       | _ => None
       end) = Some []
  /\ elementDescriptors <$> (elementsGatherer <$>
       match gathered posixPath nestedForest with
       | Ok g => Some g
       | _ => None
       end) = Some [10].
Proof.
  split; [left |]. repeat split; vm_compute; reflexivity.
Qed.

(** ** The indexing loop of the constructor *)

Lemma map_set_elem {K V} `{EqDecision K} (m : list (K * V)) k v k' v' :
  (k', v') ∈ map_set m k v -> (k', v') ∈ m \/ (k', v') = (k, v).
Proof.
  induction m as [|[k0 v0] m IH]; simpl.
  - intros Hin. apply list_elem_of_singleton in Hin. by right.
  - destruct (decide (k0 = k)) as [->|Hne]; intros Hin;
      apply elem_of_cons in Hin as [Hin|Hin].
    + by right.
    + left. by right.
    + left. rewrite Hin. left.
    + destruct (IH Hin) as [?|?]; [left; by right | by right].
Qed.

Lemma extendsStore_refl σ : extendsStore σ σ.
Proof. by split. Qed.

Lemma extendsStore_trans σ1 σ2 σ3 :
  extendsStore σ1 σ2 -> extendsStore σ2 σ3 -> extendsStore σ1 σ3.
Proof.
  intros [H12 B12] [H23 B23]. split; [| congruence].
  intros l Hl. rewrite H23; [by apply H12 |]. by rewrite H12.
Qed.


Lemma indexElement_Ok pg eg l σ this σ' this' :
  indexElement pg eg l (σ, this) = Ok (σ', this') ->
  exists e properties attributes events matching,
    let obj := cloneWith e properties attributes events in
    let c := (alloc σ obj).2 in
    let d := longestOf matching in
    elementObjects σ !! l = Some e
    /\ matchingPackageDirs (packageDirs pg) (elementPaths eg !! l)
       = Ok matching
    /\ σ' = (alloc σ obj).1
    /\ _elementsByTagName this' =
       match tagName e with
       | Some tag =>
           if truthy tag then map_set (_elementsByTagName this) tag c
           else _elementsByTagName this
       | None => _elementsByTagName this
       end
    /\ _elementsByPackageDir this' =
       <[d := default [] (_elementsByPackageDir this !! d) ++ [c]]>
         (_elementsByPackageDir this)
    /\ _behaviorsByIdentifierName this' = _behaviorsByIdentifierName this
    /\ _descriptors this' = _descriptors this.
Proof.
  unfold indexElement. intros H.
  apply bind_Ok in H as ([σ1 c] & Hres & H).
  apply resolveElement_Ok in Hres as (e & ps & as_ & es & He & Ha).
  assert (Hσ1 : σ1 = (alloc σ (cloneWith e ps as_ es)).1) by by rewrite <- Ha.
  assert (Hc : c = (alloc σ (cloneWith e ps as_ es)).2) by by rewrite <- Ha.
  pose proof (alloc_lookup σ (cloneWith e ps as_ es)) as Hl.
  rewrite <- Hσ1, <- Hc in Hl. rewrite Hl in H.
  apply bind_Ok in H as (matching & Hm & H).
  injection H as <- <-. subst c.
  exists e, ps, as_, es, matching. simpl. by repeat split.
Qed.

Lemma indexElements_Ok pg eg elements σ this σ' this' :
  (forall l, l ∈ elements -> is_Some (elementPaths eg !! l)) ->
  forEach (indexElement pg eg) elements (σ, this) = Ok (σ', this') ->
  exists resolved,
    length resolved = length elements
    /\ NoDup resolved
    /\ (forall c, c ∈ resolved -> elementObjects σ !! c = None)
    /\ extendsStore σ σ'
    /\ Forall2 (fun l c => resolvedCopyOf σ' l c
                           /\ is_Some (elementPaths eg !! l))
         elements resolved
    /\ (forall d, default [] (_elementsByPackageDir this' !! d)
                  = default [] (_elementsByPackageDir this !! d)
                      ++ filedUnder pg eg d elements resolved)
    /\ (forall d, is_Some (_elementsByPackageDir this' !! d) <->
                  is_Some (_elementsByPackageDir this !! d)
                  \/ filedUnder pg eg d elements resolved <> [])
    /\ (forall t c, (t, c) ∈ _elementsByTagName this' ->
          (t, c) ∈ _elementsByTagName this
          \/ (c ∈ resolved
              /\ exists obj, elementObjects σ' !! c = Some obj
                             /\ tagName obj = Some t))
    /\ _behaviorsByIdentifierName this' = _behaviorsByIdentifierName this
    /\ _descriptors this' = _descriptors this.
Proof.
  intros Hpaths. revert σ this.
  induction elements as [|l elements IH]; intros σ this H; simpl in H.
  - injection H as <- <-. exists []. unfold filedUnder. simpl.
    split; [done |]. split; [apply NoDup_nil_2 |].
    split; [intros c Hc; by apply elem_of_nil in Hc |].
    split; [apply extendsStore_refl |]. split; [constructor |].
    split; [intros d; by rewrite app_nil_r |].
    split; [intros d; split; [by left | by intros [?|?]] |].
    split; [by left | done].
  - apply bind_Ok in H as ([σ1 this1] & Hstep & Hrest).
    apply indexElement_Ok in Hstep
      as (e & ps & as_ & es & matching & He & Hm & Hσ1 & Htag & Hpkg & Hbeh
          & Hdesc).
    destruct (Hpaths l) as [p Hp]; [left |].
    rewrite Hp in Hm. simpl in Hm. injection Hm as <-.
    fold (longestMatchingPackageDir (packageDirs pg) p) in Hpkg.
    simpl in *.
    set (obj := cloneWith e ps as_ es) in *.
    set (c := (alloc σ obj).2) in *.
    set (d0 := longestMatchingPackageDir (packageDirs pg) p) in *.
    destruct (IH (fun l' Hl' => Hpaths l' (list_elem_of_further _ _ _ Hl'))
                _ _ Hrest)
      as (cs & Hlen & Hnd & Hfresh & Hext & Hall & Hbk & Hsome & Htags
          & Hbeh' & Hdesc').
    assert (Hext1 : extendsStore σ σ1) by (subst σ1; apply alloc_extends).
    assert (Hc1 : elementObjects σ1 !! c = Some obj)
      by (subst σ1; apply alloc_lookup).
    assert (Hc0 : elementObjects σ !! c = None) by apply alloc_fresh.
    assert (Hext' : extendsStore σ σ') by by apply (extendsStore_trans _ σ1).
    assert (Hdir : packageDirOf pg eg l = Some d0)
      by (unfold packageDirOf; by rewrite Hp).
    exists (c :: cs). split; [simpl; by rewrite Hlen |].
    split.
    { apply NoDup_cons. split; [| done]. intros Hin.
      apply Hfresh in Hin. congruence. }
    split.
    { intros c' Hin. apply elem_of_cons in Hin as [->|Hin]; [done |].
      apply Hfresh in Hin. destruct (elementObjects σ !! c') eqn:Hc'; [| done].
      destruct Hext1 as [Hext1 _]. rewrite Hext1 in Hin; [congruence |].
      by rewrite Hc'. }
    split; [done |].
    split.
    { constructor; [| done]. split; [| by rewrite Hp].
      exists e, obj. destruct Hext' as [Hext' _]. destruct Hext as [Hext _].
      split; [rewrite Hext'; [done | by rewrite He] |].
      split; [rewrite Hext; [done | by rewrite Hc1] |]. done. }
    split.
    { intros d. rewrite Hbk, Hpkg. unfold filedUnder. simpl.
      rewrite filter_cons. simpl. rewrite Hdir.
      destruct (decide (d0 = d)) as [<-|Hne].
      - rewrite lookup_insert_eq, decide_True by done. simpl.
        by rewrite <- app_assoc.
      - rewrite lookup_insert_ne by done.
        rewrite decide_False by congruence. done. }
    split.
    { intros d. rewrite Hsome, Hpkg. unfold filedUnder. simpl.
      rewrite filter_cons. simpl. rewrite Hdir.
      destruct (decide (d0 = d)) as [<-|Hne].
      - rewrite lookup_insert_eq, decide_True by done. simpl.
        split; [intros _; by right | intros _; left; by eexists].
      - rewrite lookup_insert_ne by done.
        rewrite decide_False by congruence. done. }
    split; [| split; [congruence | congruence]].
    intros t c' Hin. destruct (Htags t c' Hin) as [Hin1|[Hin1 Hobj]].
    + rewrite Htag in Hin1.
      assert (Hcase : (t, c') ∈ _elementsByTagName this
                      \/ (tagName e = Some t /\ c' = c)).
      { destruct (tagName e) as [tag|]; [| by left].
        destruct (truthy tag); [| by left].
        apply map_set_elem in Hin1 as [?|[= -> ->]]; [by left | by right]. }
      destruct Hcase as [?|[Ht ->]]; [by left |]. right.
      split; [left |]. exists obj. destruct Hext as [Hext _].
      split; [rewrite Hext; [done | by rewrite Hc1] | done].
    + right. split; [by right | done].
Qed.

(** ** [max] and the longest matching directory *)

Lemma max_step (acc : option string) (x : string) :
  exists y,
    (if (0 <? byLength acc x)%Z then acc else Some x) = Some y
    /\ (y = x \/ acc = Some y)
    /\ String.length x <= String.length y
    /\ (forall a, acc = Some a -> String.length a <= String.length y).
Proof.
  destruct acc as [a|]; simpl.
  - destruct (Z.eqb_spec (Z.of_nat (String.length a)
                          - Z.of_nat (String.length x)) 0) as [Hz|Hz].
    + exists x. simpl. split; [done |]. split; [by left |]. split; [done |].
      intros ? [= <-]. lia.
    + destruct (Z.ltb_spec 0 (Z.of_nat (String.length a)
                              - Z.of_nat (String.length x))) as [Hlt|Hge].
      * exists a. split; [done |]. split; [by right |]. split; [lia |].
        by intros ? [= <-].
      * exists x. split; [done |]. split; [by left |]. split; [done |].
        intros ? [= <-]. lia.
  - exists x. split; [done |]. split; [by left |]. split; [done |]. done.
Qed.

Lemma max_byLength_fold (l : list string) (acc : option string) :
  match foldl (fun prev cur =>
                 if (0 <? byLength prev cur)%Z then prev else Some cur)
              acc l with
  | None => acc = None /\ l = []
  | Some d =>
      (acc = Some d \/ d ∈ l)
      /\ (forall d', d' ∈ l -> String.length d' <= String.length d)
      /\ (forall a, acc = Some a -> String.length a <= String.length d)
  end.
Proof.
  revert acc. induction l as [|x l IH]; intros acc; simpl.
  - destruct acc as [a|]; [| done].
    split; [by left |]. split; [| by intros ? [= <-]].
    intros d' Hd'. by apply elem_of_nil in Hd'.
  - destruct (max_step acc x) as (y & Hy & Hyx & Hlx & Hla). rewrite Hy.
    specialize (IH (Some y)).
    destruct (foldl _ (Some y) l) as [d|]; [| by destruct IH].
    destruct IH as (Hd & Hmax & Hacc). specialize (Hacc y eq_refl).
    split; [| split].
    + destruct Hd as [[= <-]|Hd]; [| right; by right].
      destruct Hyx as [->|?]; [right; left | by left].
    + intros d' Hd'. apply elem_of_cons in Hd' as [->|Hd']; [lia | auto].
    + intros a Ha. specialize (Hla a Ha). lia.
Qed.

Lemma orEmpty_Some d : orEmpty (Some d) = d.
Proof. by destruct d. Qed.

(** The directory chosen is a gathered directory that is a prefix of the
    path and no shorter than any other such, or [""] when there is none. *)
Lemma longestMatchingPackageDir_spec (dirs : list string) (p : string) :
  let d := longestMatchingPackageDir dirs p in
  (d ∈ dirs /\ String.prefix d p = true
   /\ forall d', d' ∈ dirs -> String.prefix d' p = true ->
                 String.length d' <= String.length d)
  \/ (d = "" /\ forall d', d' ∈ dirs -> String.prefix d' p = false).
Proof.
  simpl. unfold longestMatchingPackageDir, longestOf, max.
  pose proof (max_byLength_fold
                (List.filter (fun dir => String.prefix dir p) dirs) None) as H.
  destruct (foldl _ None _) as [d|].
  - left. rewrite orEmpty_Some. destruct H as ([?|Hd] & Hmax & _); [done |].
    apply list_elem_of_In, filter_In in Hd as [Hd Hp].
    split; [by apply list_elem_of_In |]. split; [done |].
    intros d' Hd' Hp'. apply Hmax, list_elem_of_In, filter_In.
    split; [by apply list_elem_of_In | done].
  - right. destruct H as [_ Hnil]. split; [done |].
    intros d' Hd'. destruct (String.prefix d' p) eqn:Hp; [| done].
    assert (Hin : In d' (List.filter (fun dir => String.prefix dir p) dirs)).
    { apply filter_In. split; [by apply list_elem_of_In | done]. }
    rewrite Hnil in Hin. by destruct Hin.
Qed.

(** ** What the constructor builds *)

Lemma filedUnder_elem pg eg d elements resolved i l c :
  NoDup resolved -> elements !! i = Some l -> resolved !! i = Some c ->
  c ∈ filedUnder pg eg d elements resolved <-> packageDirOf pg eg l = Some d.
Proof.
  intros Hnd Hl Hc. unfold filedUnder. rewrite list_elem_of_fmap. split.
  - intros ([l' c'] & -> & Hin). apply list_elem_of_filter in Hin as [HP Hin].
    simpl in *. apply list_elem_of_lookup in Hin as [j Hj].
    apply lookup_zip_with_Some in Hj as (x & y & [= -> ->] & Hx & Hy).
    assert (i = j) as <- by by apply (NoDup_lookup resolved i j y).
    congruence.
  - intros HP. exists (l, c). split; [done |].
    apply list_elem_of_filter. split; [done |].
    apply list_elem_of_lookup. exists i.
    apply lookup_zip_with_Some. by exists l, c.
Qed.

Lemma filedUnder_NoDup pg eg d elements resolved :
  length resolved = length elements -> NoDup resolved ->
  NoDup (filedUnder pg eg d elements resolved).
Proof.
  intros Hlen Hnd. unfold filedUnder.
  apply (sublist_NoDup _ resolved); [done |].
  rewrite <- (snd_zip elements resolved) at 2 by lia.
  apply fmap_sublist, sublist_filter.
Qed.

Lemma Analysis_new_Ok path σ descriptors σ' a :
  Analysis_new path σ descriptors = Ok (σ', a) ->
  exists g index this',
    gathered path descriptors = Ok g
    /\ forEach (indexBehavior σ)
         (behaviorDescriptors (elementsGatherer g)) ∅ = Ok index
    /\ forEach (indexElement (packageGatherer g) (elementsGatherer g))
         (elementDescriptors (elementsGatherer g))
         (σ, mkAnalysis descriptors [] ∅ index ∅) = Ok (σ', this')
    /\ a = mkAnalysis (_descriptors this') (_elementsByTagName this')
             (_elementsByPackageDir this') (_behaviorsByIdentifierName this')
             (indexDocuments descriptors).
Proof.
  unfold Analysis_new, gathered. intros H.
  apply bind_Ok in H as (g & Hg & H).
  apply bind_Ok in H as (index & Hindex & H).
  apply bind_Ok in H as ([σ1 this'] & Hloop & H).
  injection H as <- <-. by exists g, index, this'.
Qed.

(** The resolved elements of a construction, one per gathered element. *)
Lemma Analysis_new_resolved path σ descriptors σ' a g :
  gathered path descriptors = Ok g ->
  Analysis_new path σ descriptors = Ok (σ', a) ->
  let pg := packageGatherer g in
  let eg := elementsGatherer g in
  exists resolved,
    length resolved = length (elementDescriptors eg)
    /\ NoDup resolved
    /\ extendsStore σ σ'
    /\ Forall2 (fun l c => resolvedCopyOf σ' l c
                           /\ is_Some (elementPaths eg !! l))
         (elementDescriptors eg) resolved
    /\ (forall d, default [] (getElementsForPackage a d)
                  = filedUnder pg eg d (elementDescriptors eg) resolved)
    /\ (forall d, is_Some (getElementsForPackage a d) <->
                  filedUnder pg eg d (elementDescriptors eg) resolved <> [])
    /\ (forall t c, (t, c) ∈ _elementsByTagName a ->
          exists obj, elementObjects σ' !! c = Some obj
                      /\ tagName obj = Some t).
Proof.
  intros Hg H. simpl.
  apply Analysis_new_Ok in H as (g' & index & this' & Hg' & _ & Hloop & ->).
  rewrite Hg in Hg'. injection Hg' as <-.
  destruct (gathered_inForest _ _ _ Hg) as ((_ & _ & Hpaths & _) & _).
  apply indexElements_Ok in Hloop
    as (cs & Hlen & Hnd & _ & Hext & Hall & Hbk & Hsome & Htags & _);
    [| intros l Hl; by apply Hpaths].
  simpl in *. exists cs. unfold getElementsForPackage. simpl.
  split; [done |]. split; [done |]. split; [done |]. split; [done |].
  split; [intros d; by rewrite Hbk, lookup_empty |].
  split.
  - intros d. rewrite Hsome, lookup_empty. split; [| by right].
    intros [[? ?]|?]; done.
  - intros t c Hin. destruct (Htags t c Hin) as [Hin0|[_ ?]]; [| done].
    by apply elem_of_nil in Hin0.
Qed.

(** C5.  A construction that returns has made one resolved element per
    gathered element; each is in the bucket of exactly one directory,
    once: the gathered package directory that is a prefix of the element's
    owning path and is no shorter than any other such prefix, or the
    empty-string bucket when no gathered directory is a prefix. *)
Theorem elements_filed_under_longest_prefix (path : Path) (σ : Store)
  (descriptors : list DocumentDescriptor) (σ' : Store) (a : Analysis)
  (g : Gatherers) :
  gathered path descriptors = Ok g ->
  Analysis_new path σ descriptors = Ok (σ', a) ->
  let pg := packageGatherer g in
  let eg := elementsGatherer g in
  exists resolved : list loc,
    length resolved = length (elementDescriptors eg)
    /\ NoDup resolved
    /\ forall i l c,
         elementDescriptors eg !! i = Some l -> resolved !! i = Some c ->
         resolvedCopyOf σ' l c
         /\ exists p,
              elementPaths eg !! l = Some p
              /\ let d := longestMatchingPackageDir (packageDirs pg) p in
                 (exists bucket,
                     getElementsForPackage a d = Some bucket
                     /\ c ∈ bucket /\ NoDup bucket)
                 /\ (forall d' bucket,
                        getElementsForPackage a d' = Some bucket ->
                        c ∈ bucket -> d' = d)
                 /\ ((d ∈ packageDirs pg
                      /\ String.prefix d p = true
                      /\ forall d', d' ∈ packageDirs pg ->
                                    String.prefix d' p = true ->
                                    String.length d' <= String.length d)
                     \/ (d = ""
                         /\ forall d', d' ∈ packageDirs pg ->
                                       String.prefix d' p = false)).
Proof.
  intros Hg H. simpl.
  destruct (Analysis_new_resolved _ _ _ _ _ _ Hg H)
    as (cs & Hlen & Hnd & _ & Hall & Hbk & Hsome & _).
  exists cs. split; [done |]. split; [done |].
  intros i l c Hl Hc.
  destruct (Forall2_lookup_lr _ _ _ _ _ _ Hall Hl Hc) as [Hcopy [p Hp]].
  split; [done |]. exists p. split; [done |].
  assert (Hdir : packageDirOf (packageGatherer g) (elementsGatherer g) l
                 = Some (longestMatchingPackageDir
                           (packageDirs (packageGatherer g)) p))
    by (unfold packageDirOf; by rewrite Hp).
  assert (Hin : forall d, c ∈ default [] (getElementsForPackage a d)
                          <-> packageDirOf (packageGatherer g)
                                (elementsGatherer g) l = Some d).
  { intros d. rewrite Hbk. by apply (filedUnder_elem _ _ _ _ _ i). }
  split; [| split].
  - pose proof (proj2 (Hin _) Hdir) as Hc'.
    destruct (getElementsForPackage a _) as [bucket|] eqn:Hb;
      [| by apply elem_of_nil in Hc'].
    exists bucket. split; [done |]. split; [done |].
    specialize (Hbk (longestMatchingPackageDir
                       (packageDirs (packageGatherer g)) p)).
    rewrite Hb in Hbk. simpl in Hbk. rewrite Hbk.
    by apply filedUnder_NoDup.
  - intros d' bucket Hb Hcb.
    assert (Hd' : packageDirOf (packageGatherer g) (elementsGatherer g) l
                  = Some d') by (apply Hin; by rewrite Hb).
    congruence.
  - apply longestMatchingPackageDir_spec.
Qed.

(** The example of the claim: package directories [/a] and [/a/b], owning
    path [/a/b/c.html]. *)
Lemma elements_filed_under_longest_prefix_witness :
  packageDirs (packageGatherer sampleGathered) = ["/a"; "/a/b"]
  /\ elementPaths (elementsGatherer sampleGathered) !! 10 = Some "/a/b/c.html"
  /\ getElementsForPackage sampleConstructed.2 "/a/b" = Some [12; 13]
  /\ getElementsForPackage sampleConstructed.2 "/a" = None
  /\ exists resolved : list loc,
       length resolved
       = length (elementDescriptors (elementsGatherer sampleGathered))
       /\ NoDup resolved
       /\ forall i l c,
            elementDescriptors (elementsGatherer sampleGathered) !! i = Some l ->
            resolved !! i = Some c ->
            resolvedCopyOf sampleConstructed.1 l c
            /\ exists p,
                 elementPaths (elementsGatherer sampleGathered) !! l = Some p
                 /\ let d := longestMatchingPackageDir
                               (packageDirs (packageGatherer sampleGathered))
                               p in
                    (exists bucket,
                        getElementsForPackage sampleConstructed.2 d
                        = Some bucket
                        /\ c ∈ bucket /\ NoDup bucket)
                    /\ (forall d' bucket,
                           getElementsForPackage sampleConstructed.2 d'
                           = Some bucket ->
                           c ∈ bucket -> d' = d)
                    /\ ((d ∈ packageDirs (packageGatherer sampleGathered)
                         /\ String.prefix d p = true
                         /\ forall d',
                              d' ∈ packageDirs (packageGatherer sampleGathered)
                              -> String.prefix d' p = true ->
                              String.length d' <= String.length d)
                        \/ (d = ""
                            /\ forall d',
                                 d' ∈ packageDirs
                                        (packageGatherer sampleGathered) ->
                                 String.prefix d' p = false)).
Proof.
  split; [vm_compute; reflexivity |]. split; [vm_compute; reflexivity |].
  split; [vm_compute; reflexivity |]. split; [vm_compute; reflexivity |].
  apply (elements_filed_under_longest_prefix posixPath sampleStore
           sampleForest sampleConstructed.1 sampleConstructed.2
           sampleGathered).
  - vm_compute. reflexivity.
  - vm_compute. reflexivity.
Defined.

(** ** The behavior index *)


Lemma indexBehaviors_returns σ behaviors index0 :
  (forall b, b ∈ behaviors -> is_Some (behaviorObjects σ !! b)) ->
  exists index, forEach (indexBehavior σ) behaviors index0 = Ok index.
Proof.
  revert index0.
  induction behaviors as [|b behaviors IH]; intros index0 Hall; simpl.
  - by eexists.
  - destruct (Hall b) as [obj Hobj]; [left |].
    assert (exists index1, indexBehavior σ b index0 = Ok index1) as [index1 ->].
    { unfold indexBehavior. rewrite Hobj.
      destruct (className obj) as [c|]; [| by eexists].
      destruct (truthy c); by eexists. }
    simpl. apply IH. intros b' Hb'. apply Hall. by right.
Qed.

(** ** Outcomes of [resolveElement] *)

Section FlattenStore.
Context (σ : Store) (analysis : Analysis).

Local Abbreviation flat fuel bs V :=
  (_getFlattenedAndResolvedBehaviors fuel σ bs analysis V).


(** Whatever a run adds to the set is an object of the store. *)
Lemma flatten_in_store fuel bs V V' :
  flat fuel bs V = Ok V' ->
  forall b, b ∈ V' -> b ∈ V \/ is_Some (behaviorObjects σ !! b).
Proof.
  revert V'.
  apply (flatten_ind σ analysis
           (fun fuel bs V o =>
              forall V', o = Ok V' ->
                forall b, b ∈ V' -> b ∈ V \/ is_Some (behaviorObjects σ !! b))).
  - done.
  - intros _ V0 V' [= <-] b Hb. by left.
  - done.
  - auto.
  - done.
  - intros f r rest V0 b obj Hr Hb Hobj IH1 IH2 V' HV' b' Hb'.
    apply bind_Ok in HV' as (V1 & H1 & H2).
    destruct (IH2 V1 H1 V' H2 b' Hb') as [Hb1|?]; [| by right].
    destruct (IH1 V1 H1 b' Hb1) as [Hb0|?]; [| by right].
    apply elem_of_app in Hb0 as [?|Hb0]; [by left |].
    apply list_elem_of_singleton in Hb0 as ->. right. by rewrite Hobj.
Qed.


Lemma sourcesOf_returns (f : BehaviorObj -> list Item) (behaviors : list loc) :
  (forall b, b ∈ behaviors -> is_Some (behaviorObjects σ !! b)) ->
  exists sources, sourcesOf σ f behaviors = Ok sources.
Proof.
  unfold sourcesOf. intros Hall.
  assert (H : forall acc : list Source,
             exists sources,
               forEach (fun b acc =>
                          match behaviorObjects σ !! b with
                          | Some obj =>
                              Ok (acc ++ [mkSource (className obj) (f obj)])
                          | None => Stuck
                          end) behaviors acc = Ok sources); [| apply H].
  induction behaviors as [|b behaviors IH]; intros acc; simpl.
  - by eexists.
  - destruct (Hall b) as [obj ->]; [left |]. simpl.
    apply IH. intros b' Hb'. apply Hall. by right.
Qed.

End FlattenStore.

(** ** Outcomes of the constructor *)

Lemma lookupBehavior_index a a' r :
  _behaviorsByIdentifierName a = _behaviorsByIdentifierName a' ->
  lookupBehavior a r = lookupBehavior a' r.
Proof.
  intros H. destruct r as [n|b]; [| done]. simpl. unfold getBehavior.
  by rewrite H.
Qed.



Lemma forEach_cons {A S} (body : A -> S -> Outcome S) (x : A) (xs : list A)
  (s : S) :
  forEach body (x :: xs) s = (s' <- body x s ;; forEach body xs s').
Proof. reflexivity. Qed.


Lemma resolveElement_first_unresolved σ l analysis e n others :
  elementObjects σ !! l = Some e ->
  e_class e = PolymerElementDescriptorClass ->
  e_behaviors e = ByName n :: others ->
  getBehavior analysis n = None ->
  resolveElement σ l analysis = Throw (UnresolvedBehavior n).
Proof.
  intros He Hc Hb Hn. unfold resolveElement. rewrite He, Hc, Hb.
  unfold getFlattenedAndResolvedBehaviors, flattenFuel.
  rewrite flatten_cons. simpl. by rewrite Hn.
Qed.

Lemma Analysis_new_unfold path σ descriptors :
  Analysis_new path σ descriptors
  = (g <- gathered path descriptors ;;
     index <- forEach (indexBehavior σ)
                (behaviorDescriptors (elementsGatherer g)) ∅ ;;
     st <- forEach (indexElement (packageGatherer g) (elementsGatherer g))
             (elementDescriptors (elementsGatherer g))
             (σ, mkAnalysis descriptors [] ∅ index ∅) ;;
     let '(σ, this) := st in
     Ok (σ,
         mkAnalysis (_descriptors this) (_elementsByTagName this)
           (_elementsByPackageDir this) (_behaviorsByIdentifierName this)
           (indexDocuments descriptors))).
Proof. reflexivity. Qed.






(** * Further properties of the code *)

(** ** [RedirectResolver] *)

Lemma prefix_append (a rest : string) : String.prefix a (a +:+ rest) = true.
Proof.
  induction a as [|x a IH]; [by destruct rest |].
  change (String.prefix (String x a) (String x (a +:+ rest)) = true).
  simpl. by destruct (ascii_dec x x).
Qed.

Lemma prefix_split (a s : string) :
  String.prefix a s = true -> exists rest, s = a +:+ rest.
Proof.
  revert s. induction a as [|x a IH]; intros s H; [by exists s |].
  destruct s as [|y s]; [done |]. simpl in H.
  destruct (ascii_dec x y) as [->|]; [| done].
  destruct (IH s H) as [rest ->]. by exists rest.
Qed.

Lemma slice_append (a rest : string) : slice (String.length a) (a +:+ rest) = rest.
Proof. induction a as [|x a IH]; [done | exact IH]. Qed.

Lemma length_append (a b : string) :
  String.length (a +:+ b) = String.length a + String.length b.
Proof.
  induction a as [|x a IH]; [done |].
  change (S (String.length (a +:+ b)) = S (String.length a + String.length b)).
  by rewrite IH.
Qed.

Lemma resolve_append from to rest :
  resolve (mkRedirectResolver from to) (from +:+ rest) = Resolved (to +:+ rest).
Proof.
  unfold resolve, canResolve. simpl. by rewrite prefix_append, slice_append.
Qed.

(** X1.  A URL that a resolver can resolve comes back through the resolver
    with the two prefixes exchanged. *)
Theorem redirect_round_trip (from to url : string) :
  canResolve (mkRedirectResolver from to) url = true ->
  exists redirected,
    resolve (mkRedirectResolver from to) url = Resolved redirected
    /\ canResolve (mkRedirectResolver to from) redirected = true
    /\ resolve (mkRedirectResolver to from) redirected = Resolved url.
Proof.
  unfold canResolve at 1. simpl. intros H.
  apply prefix_split in H as [rest ->]. exists (to +:+ rest).
  split; [apply resolve_append |]. split; [apply prefix_append |].
  apply resolve_append.
Qed.

Lemma redirect_round_trip_witness :
  canResolve (mkRedirectResolver "https://cdn/" "/local/")
    "https://cdn/x/y.html" = true
  /\ resolve (mkRedirectResolver "https://cdn/" "/local/")
       "https://cdn/x/y.html" = Resolved "/local/x/y.html"
  /\ exists redirected,
       resolve (mkRedirectResolver "https://cdn/" "/local/")
         "https://cdn/x/y.html" = Resolved redirected
       /\ canResolve (mkRedirectResolver "/local/" "https://cdn/") redirected
          = true
       /\ resolve (mkRedirectResolver "/local/" "https://cdn/") redirected
          = Resolved "https://cdn/x/y.html".
Proof.
  split; [reflexivity |]. split; [vm_compute; reflexivity |].
  apply (redirect_round_trip "https://cdn/" "/local/" "https://cdn/x/y.html").
  reflexivity.
Defined.

(** X2.  Redirects chain: resolving from [a] to [b] and the result from [b]
    to [c] is resolving from [a] to [c]. *)
Theorem redirect_compose (a b c url redirected : string) :
  resolve (mkRedirectResolver a b) url = Resolved redirected ->
  resolve (mkRedirectResolver b c) redirected
  = resolve (mkRedirectResolver a c) url
  /\ exists final, resolve (mkRedirectResolver a c) url = Resolved final.
Proof.
  unfold resolve at 1. unfold canResolve. simpl.
  destruct (String.prefix a url) eqn:H; simpl; [| done].
  apply prefix_split in H as [rest ->]. rewrite slice_append.
  intros [= <-]. rewrite !resolve_append. split; [done | by eexists].
Qed.

Lemma redirect_compose_witness :
  resolve (mkRedirectResolver "a/" "b/") "a/x" = Resolved "b/x"
  /\ (resolve (mkRedirectResolver "b/" "c/") "b/x"
      = resolve (mkRedirectResolver "a/" "c/") "a/x"
      /\ exists final,
           resolve (mkRedirectResolver "a/" "c/") "a/x" = Resolved final).
Proof.
  assert (H : resolve (mkRedirectResolver "a/" "b/") "a/x" = Resolved "b/x")
    by (vm_compute; reflexivity).
  split; [exact H |]. exact (redirect_compose "a/" "b/" "c/" "a/x" "b/x" H).
Defined.

(** X3.  [resolve] returns exactly on the URLs that start with
    [_redirectFrom]: it then replaces that prefix by [_redirectTo] and
    keeps the rest; on any other URL it throws, with a message that quotes
    the URL and both prefixes. *)
Theorem resolve_outcome (this : RedirectResolver) (url : string) :
  (canResolve this url = true ->
   exists rest,
     url = _redirectFrom this +:+ rest
     /\ resolve this url = Resolved (_redirectTo this +:+ rest)
     /\ String.length (_redirectTo this +:+ rest)
        + String.length (_redirectFrom this)
        = String.length url + String.length (_redirectTo this))
  /\ (canResolve this url = false ->
      exists message,
        resolve this url = CannotResolve message
        /\ occursIn url message
        /\ occursIn (_redirectFrom this) message
        /\ occursIn (_redirectTo this) message).
Proof.
  destruct this as [from to]. simpl. split.
  - unfold canResolve. simpl. intros H.
    apply prefix_split in H as [rest ->]. exists rest.
    split; [done |]. split; [apply resolve_append |].
    rewrite !length_append. lia.
  - intros H. unfold resolve. rewrite H. simpl. eexists.
    split; [reflexivity |]. split; [| split].
    + do 2 apply occursIn_app_l. apply occursIn_app_r, occursIn_refl.
    + do 6 apply occursIn_app_l. apply occursIn_app_r, occursIn_refl.
    + do 10 apply occursIn_app_l. apply occursIn_app_r, occursIn_refl.
Qed.

Lemma resolve_outcome_witness :
  canResolve (mkRedirectResolver "https://cdn/" "/local/") "/other/x" = false
  /\ exists message,
       resolve (mkRedirectResolver "https://cdn/" "/local/") "/other/x"
       = CannotResolve message
       /\ occursIn "/other/x" message
       /\ occursIn "https://cdn/" message
       /\ occursIn "/local/" message.
Proof.
  split; [reflexivity |].
  by apply (resolve_outcome (mkRedirectResolver "https://cdn/" "/local/")
              "/other/x").
Defined.

(** ** The version pattern and [validate] *)

Lemma ascii_is (c d : ascii) (P : Prop) :
  (c = d -> P) -> (c <> d -> P) -> P.
Proof. intros Heq Hne. destruct (decide (c = d)); auto. Qed.

Lemma testSchemaVersion_head s :
  testSchemaVersion s = true ->
  exists s1,
    s = String "1" (String "." s1)
    /\ exists s2,
         digits1 s1 = Some (String "." s2) /\ digits1 s2 = Some EmptyString.
Proof.
  destruct s as [|c1 [|c2 s1]]; try done.
  - destruct c1 as [[] [] [] [] [] [] [] []]; done.
  - destruct c1 as [[] [] [] [] [] [] [] []]; try done.
    destruct c2 as [[] [] [] [] [] [] [] []]; try done.
    simpl. intros H. exists s1. split; [done |].
    destruct (digits1 s1) as [[|c s2]|]; try done.
    destruct c as [[] [] [] [] [] [] [] []]; try done.
    exists s2. split; [done |].
    destruct (digits1 s2) as [[|]|]; done.
Qed.

Lemma skipDigits_split s :
  exists a,
    allDigits a = true
    /\ s = a +:+ skipDigits s
    /\ match skipDigits s with
       | String c _ => isDigit c = false
       | EmptyString => True
       end.
Proof.
  induction s as [|c s (a & Ha & Hs & Hrest)]; [by exists "" |].
  simpl. destruct (isDigit c) eqn:Hc.
  - exists (String c a). simpl. rewrite Hc, Ha. split; [done |].
    split; [| done]. change (String c s = String c (a +:+ skipDigits s)).
    by rewrite <- Hs.
  - exists "". by rewrite Hc.
Qed.

Lemma skipDigits_append a rest :
  allDigits a = true ->
  match rest with
  | String c _ => isDigit c = false
  | EmptyString => True
  end ->
  skipDigits (a +:+ rest) = rest.
Proof.
  intros Ha Hrest. induction a as [|c a IH].
  - destruct rest as [|c rest]; [done |]. simpl. by rewrite Hrest.
  - simpl in Ha. apply andb_true_iff in Ha as [Hc Ha].
    change (skipDigits (String c (a +:+ rest)) = rest). simpl.
    rewrite Hc. by apply IH.
Qed.

Lemma digits1_Some s rest :
  digits1 s = Some rest <->
  exists a, a <> "" /\ allDigits a = true /\ s = a +:+ rest
            /\ match rest with
               | String c _ => isDigit c = false
               | EmptyString => True
               end.
Proof.
  split.
  - destruct s as [|c s]; [done |]. simpl.
    destruct (isDigit c) eqn:Hc; [| done]. intros [= <-].
    destruct (skipDigits_split s) as (a & Ha & Hs & Hrest).
    exists (String c a). split; [done |]. simpl. rewrite Hc, Ha.
    split; [done |]. split; [| done].
    change (String c s = String c (a +:+ skipDigits s)). by rewrite <- Hs.
  - intros (a & Hne & Ha & -> & Hrest). destruct a as [|c a]; [done |].
    simpl in Ha. apply andb_true_iff in Ha as [Hc Ha].
    change (digits1 (String c (a +:+ rest)) = Some rest). simpl.
    by rewrite Hc, skipDigits_append.
Qed.

(** X4.  The version test accepts exactly the strings [1.], digits, [.],
    digits, with at least one digit in each group and nothing before or
    after. *)
Theorem testSchemaVersion_accepts (s : string) :
  testSchemaVersion s = true <->
  exists minor patch,
    s = "1." +:+ minor +:+ "." +:+ patch
    /\ minor <> "" /\ patch <> ""
    /\ allDigits minor = true /\ allDigits patch = true.
Proof.
  split.
  - intros H. apply testSchemaVersion_head in H as (s1 & -> & s2 & H1 & H2).
    apply digits1_Some in H1 as (minor & Hm & Hmd & -> & _).
    apply digits1_Some in H2 as (patch & Hp & Hpd & -> & _).
    exists minor, patch. rewrite append_empty_r. by repeat split.
  - intros (minor & patch & -> & Hm & Hp & Hmd & Hpd).
    change (testSchemaVersion
              (String "1" (String "." (minor +:+ "." +:+ patch))) = true).
    assert (H1 : digits1 (minor +:+ "." +:+ patch)
                 = Some (String "." patch)).
    { apply digits1_Some. exists minor. by repeat split. }
    assert (H2 : digits1 patch = Some EmptyString).
    { apply digits1_Some. exists patch. rewrite append_empty_r.
      by repeat split. }
    cbv beta iota delta [testSchemaVersion]. by rewrite H1, H2.
Qed.

(** X5.  [validate] returns normally exactly when the validator neither
    asks to throw nor reports a violation and the object is there with a
    version that passes the test.  An error the validator asks to throw
    comes first, whatever else holds, and a missing object that the
    validator lets through fails on reading its version. *)
Theorem validate_returns_iff
  (validator : option Elements -> ValidationResult)
  (analyzedPackage : option Elements) :
  (validate validator analyzedPackage = None <->
   throwError (validator analyzedPackage) = None
   /\ errors (validator analyzedPackage) = []
   /\ exists p, analyzedPackage = Some p
                /\ testSchemaVersion (schema_version p) = true)
  /\ (forall e, throwError (validator analyzedPackage) = Some e ->
                validate validator analyzedPackage = Some (ThrowError e))
  /\ (throwError (validator analyzedPackage) = None ->
      errors (validator analyzedPackage) = [] ->
      analyzedPackage = None ->
      validate validator analyzedPackage = Some NullDereference).
Proof.
  unfold validate.
  destruct (throwError (validator analyzedPackage)) as [e|] eqn:Ht.
  - split; [| split; [by intros ? [= <-] | done]].
    split; [done | by intros [? _]].
  - destruct (errors (validator analyzedPackage)) as [|v vs] eqn:He; simpl.
    + split; [| split; [done |]].
      * destruct analyzedPackage as [p|].
        -- destruct (testSchemaVersion (schema_version p)) eqn:Hv; simpl.
           ++ split; [intros _; split; [done |]; split; [done |]; by exists p
                     | done].
           ++ split; [done |]. intros (_ & _ & p' & [= <-] & Hv').
              congruence.
        -- split; [done |]. by intros (_ & _ & p' & ? & _).
      * by intros _ _ ->.
    + split; [| split; [done | done]].
      split; [done | by intros (_ & ? & _)].
Qed.

Lemma validate_returns_iff_witness :
  throwError (lenientValidator None) = None
  /\ errors (lenientValidator None) = []
  /\ validate lenientValidator None = Some NullDereference.
Proof.
  split; [reflexivity |]. split; [reflexivity |].
  by apply (validate_returns_iff lenientValidator None).
Defined.

(** ** More on [mergeByName] *)

Lemma byNameOk_pairs m :
  byNameOk m -> (fun x => (name x, x)) <$> map_values m = m.
Proof.
  intros [_ Hnm]. unfold map_values.
  induction m as [|[k v] m IH]; simpl; [done |].
  f_equal.
  - f_equal. apply Hnm. left.
  - apply IH. intros k' v' Hin. apply Hnm. by right.
Qed.

Lemma mergeBase_values m : byNameOk m -> mergeBase [] (map_values m) = m.
Proof.
  intros Hok. rewrite mergeBase_distinct.
  - simpl. by apply byNameOk_pairs.
  - rewrite byNameOk_names by done. apply Hok.
  - done.
Qed.

(** X6.  Merging in two steps is merging once: the result of a merge,
    taken as the base of a second merge, gives what one merge from the
    sources of both, in order, gives. *)
Theorem mergeByName_app (base : list Item) (first second : list Source) :
  mergeByName (mergeByName base first) second
  = mergeByName base (first ++ second).
Proof.
  unfold mergeByName.
  rewrite mergeBase_values by apply mergeByName_byNameOk.
  by rewrite foldl_app.
Qed.

Lemma firstNamed_None n items :
  firstNamed n items = None <-> n ∉ name <$> items.
Proof.
  induction items as [|y items IH]; simpl.
  - split; [intros _; apply not_elem_of_nil | done].
  - rewrite not_elem_of_cons, <- IH.
    destruct (decide (name y = n)) as [Hy|Hy].
    + split; [done | intros [Hn _]; by destruct Hn].
    + split; [intros Hn; split; [congruence | done] | by intros [_ ?]].
Qed.

Lemma firstNamed_elem n items x : firstNamed n items = Some x -> x ∈ items.
Proof.
  induction items as [|y items IH]; simpl; [done |].
  destruct (decide (name y = n)); [intros [= <-]; left |].
  intros Hx. right. by apply IH.
Qed.

Lemma firstDefining_None n inheritFrom :
  firstDefining n inheritFrom = None
  <-> forall s, s ∈ inheritFrom -> n ∉ name <$> vals s.
Proof.
  induction inheritFrom as [|s rest IH]; simpl.
  - split; [| done]. intros _ s Hs. by apply elem_of_nil in Hs.
  - destruct (firstNamed n (vals s)) as [i|] eqn:Hi.
    + split; [done |]. intros Hall.
      assert (Hn : n ∉ name <$> vals s) by (apply Hall; left).
      apply firstNamed_None in Hn. congruence.
    + rewrite IH. apply firstNamed_None in Hi. split.
      * intros Hall s' Hs'. apply elem_of_cons in Hs' as [->|Hs']; auto.
      * intros Hall s' Hs'. apply Hall. by right.
Qed.

Lemma firstDefining_source n inheritFrom x :
  firstDefining n inheritFrom = Some x ->
  exists s i, s ∈ inheritFrom /\ i ∈ vals s /\ name i = n
              /\ x = annotate s i.
Proof.
  induction inheritFrom as [|s rest IH]; simpl; [done |].
  destruct (firstNamed n (vals s)) as [i|] eqn:Hi.
  - intros [= <-]. exists s, i. split; [left |].
    split; [by apply firstNamed_elem in Hi |].
    split; [by apply firstNamed_name in Hi | done].
  - intros Hx. destruct (IH Hx) as (s' & i & Hs' & Hrest).
    exists s', i. split; [by right | done].
Qed.

Lemma mergeByName_name_iff base inheritFrom n :
  n ∈ name <$> mergeByName base inheritFrom
  <-> n ∈ name <$> base
      \/ exists s, s ∈ inheritFrom /\ n ∈ name <$> vals s.
Proof.
  pose proof (mergeByName_byNameOk base inheritFrom) as Hok.
  unfold mergeByName. rewrite byNameOk_names by done.
  destruct (map_get (foldl mergeSource (mergeBase [] base) inheritFrom) n)
    as [v|] eqn:Hg.
  - assert (Hin : n ∈ map_keys
              (foldl mergeSource (mergeBase [] base) inheritFrom)).
    { destruct (decide (n ∈ map_keys
        (foldl mergeSource (mergeBase [] base) inheritFrom))) as [|Hn];
        [done |].
      apply map_get_None in Hn. congruence. }
    split; [intros _ | done].
    rewrite mergeByName_get in Hg. unfold resolvedItem in Hg.
    destruct (lastNamed n base) as [y|] eqn:Hy.
    + left. destruct (decide (n ∈ name <$> base)) as [|Hn]; [done |].
      apply lastNamed_None in Hn. congruence.
    + right. destruct (firstDefining_source _ _ _ Hg)
        as (s & i & Hs & Hi & Hni & _).
      exists s. split; [done |]. apply list_elem_of_fmap. by exists i.
  - pose proof Hg as Hnone. apply map_get_None in Hnone.
    split; [done |]. intros Hn. exfalso.
    rewrite mergeByName_get in Hg. unfold resolvedItem in Hg.
    destruct (lastNamed n base) as [y|] eqn:Hy; [done |].
    apply lastNamed_None in Hy.
    destruct Hn as [Hn|(s & Hs & Hn)]; [done |].
    by apply (proj1 (firstDefining_None n inheritFrom) Hg s Hs).
Qed.

Lemma mergeByName_origin base inheritFrom x :
  x ∈ mergeByName base inheritFrom ->
  x ∈ base
  \/ exists s i, s ∈ inheritFrom /\ i ∈ vals s
                 /\ x = annotate s i
                 /\ name i ∉ name <$> base.
Proof.
  pose proof (mergeByName_byNameOk base inheritFrom) as Hok.
  unfold mergeByName. intros Hx. apply byNameOk_elem in Hx; [| done].
  rewrite mergeByName_get in Hx. unfold resolvedItem in Hx.
  destruct (lastNamed (name x) base) as [y|] eqn:Hy.
  - left. injection Hx as <-. by apply lastNamed_elem in Hy.
  - right. destruct (firstDefining_source _ _ _ Hx)
      as (s & i & Hs & Hi & Hni & ->).
    exists s, i. split; [done |]. split; [done |]. split; [done |].
    apply lastNamed_None in Hy. simpl in Hy. by rewrite Hni.
Qed.

Lemma mergeByName_NoDup base inheritFrom :
  NoDup (name <$> mergeByName base inheritFrom).
Proof.
  pose proof (mergeByName_byNameOk base inheritFrom) as Hok.
  unfold mergeByName. rewrite byNameOk_names by done. apply Hok.
Qed.

(** X7.  The names of the merged list are those of the base and of the
    sources together: none is lost and none is made up.  Every merged item
    is a base item or the annotated copy of an item of a source whose name
    the base does not have, and the items taken from the sources come
    after all those of the base. *)
Theorem mergeByName_names (base : list Item) (inheritFrom : list Source) :
  (forall n, n ∈ name <$> mergeByName base inheritFrom
             <-> n ∈ name <$> base
                 \/ exists s, s ∈ inheritFrom /\ n ∈ name <$> vals s)
  /\ (forall x, x ∈ mergeByName base inheritFrom ->
                x ∈ base
                \/ exists s i, s ∈ inheritFrom /\ i ∈ vals s
                               /\ x = annotate s i
                               /\ name i ∉ name <$> base)
  /\ mergeByName base [] `prefix_of` mergeByName base inheritFrom.
Proof.
  split; [apply mergeByName_name_iff |].
  split; [apply mergeByName_origin |].
  unfold mergeByName. simpl. unfold map_values.
  destruct (mergeSources_extends (mergeBase [] base) inheritFrom)
    as [k ->].
  rewrite fmap_app. by apply prefix_app_r.
Qed.

(** ** When flattening returns *)

Section FlattenReturns.
Context (σ : Store) (analysis : Analysis).

Local Abbreviation flat fuel bs V :=
  (_getFlattenedAndResolvedBehaviors fuel σ bs analysis V).

(** A run that returns has resolved every entry of its list into the set,
    and every object it has added has had its own list resolved so. *)
Lemma flatten_resolved fuel bs V V' :
  flat fuel bs V = Ok V' ->
  (forall r, r ∈ bs ->
             exists l, lookupBehavior analysis r = Ok l /\ l ∈ V')
  /\ (forall l, l ∈ V' ->
        l ∈ V
        \/ exists obj,
             behaviorObjects σ !! l = Some obj
             /\ forall r, r ∈ b_behaviors obj ->
                          exists l', lookupBehavior analysis r = Ok l'
                                     /\ l' ∈ V').
Proof.
  revert V'.
  apply (flatten_ind σ analysis
           (fun fuel bs V o =>
              forall V', o = Ok V' ->
                (forall r, r ∈ bs ->
                   exists l, lookupBehavior analysis r = Ok l /\ l ∈ V')
                /\ (forall l, l ∈ V' ->
                      l ∈ V
                      \/ exists obj,
                           behaviorObjects σ !! l = Some obj
                           /\ forall r, r ∈ b_behaviors obj ->
                                exists l', lookupBehavior analysis r = Ok l'
                                           /\ l' ∈ V'))).
  - done.
  - intros _ V0 V' [= <-]. split; [| by left].
    intros r Hr. by apply elem_of_nil in Hr.
  - done.
  - intros f r rest V0 b Hr Hb IH V' HV'.
    destruct (IH V' HV') as [IHa IHb]. split; [| done].
    intros r' Hr'. apply elem_of_cons in Hr' as [->|Hr']; [| by apply IHa].
    exists b. split; [done |].
    apply flatten_extends in HV' as [k ->]. apply elem_of_app. by left.
  - done.
  - intros f r rest V0 b obj Hr Hb Hobj IH1 IH2 V' HV'.
    apply bind_Ok in HV' as (V1 & H1 & H2).
    destruct (IH1 V1 H1) as [IH1a IH1b].
    destruct (IH2 V1 H1 V' H2) as [IH2a IH2b].
    pose proof (flatten_extends _ _ _ _ _ _ H1) as [k1 Hk1].
    pose proof (flatten_extends _ _ _ _ _ _ H2) as [k2 Hk2].
    assert (Hlift : forall x, x ∈ V1 -> x ∈ V').
    { intros x Hx. rewrite Hk2. apply elem_of_app. by left. }
    assert (Hown : forall r0, r0 ∈ b_behaviors obj ->
              exists l', lookupBehavior analysis r0 = Ok l' /\ l' ∈ V').
    { intros r0 Hr0. destruct (IH1a r0 Hr0) as (l' & Hl' & Hin).
      exists l'. split; [done | by apply Hlift]. }
    split.
    + intros r' Hr'. apply elem_of_cons in Hr' as [->|Hr']; [| by apply IH2a].
      exists b. split; [done |]. apply Hlift. rewrite Hk1.
      rewrite <- app_assoc. apply elem_of_app. right. left.
    + intros l Hl. destruct (IH2b l Hl) as [Hl1|?]; [| by right].
      destruct (IH1b l Hl1) as [Hl0|(obj' & Hobj' & Hall)].
      * apply elem_of_app in Hl0 as [?|Hl0]; [by left |].
        apply list_elem_of_singleton in Hl0 as ->. right. by exists obj.
      * right. exists obj'. split; [done |]. intros r0 Hr0.
        destruct (Hall r0 Hr0) as (l' & Hl' & Hin).
        exists l'. split; [done | by apply Hlift].
Qed.

Lemma flatten_Ok_all_resolve bs V :
  getFlattenedAndResolvedBehaviors σ bs analysis = Ok V ->
  forall r, encountered σ analysis bs r -> resolves σ analysis r.
Proof.
  unfold getFlattenedAndResolvedBehaviors. intros HV.
  destruct (flatten_resolved _ _ _ _ HV) as [Hbs Hobjs].
  assert (Hstore : forall l, l ∈ V ->
            exists obj,
              behaviorObjects σ !! l = Some obj
              /\ forall r, r ∈ b_behaviors obj ->
                   exists l', lookupBehavior analysis r = Ok l' /\ l' ∈ V).
  { intros l Hl. destruct (Hobjs l Hl) as [Hnil|?]; [| done].
    by apply elem_of_nil in Hnil. }
  assert (Hres : forall l' r, lookupBehavior analysis r = Ok l' -> l' ∈ V ->
            resolves σ analysis r).
  { intros l' r Hl' Hin. exists l'. split; [done |].
    destruct (Hstore l' Hin) as (obj & -> & _). by eexists. }
  intros r [Hr|(l & obj & Hreach & Hobj & Hr)].
  - destruct (Hbs r Hr) as (l' & Hl' & Hin). by apply (Hres l').
  - assert (Hl : l ∈ V) by by apply (flatten_complete _ _ _ _ _ _ HV).
    destruct (Hstore l Hl) as (obj' & Hobj' & Hall).
    rewrite Hobj in Hobj'. injection Hobj' as <-.
    destruct (Hall r Hr) as (l' & Hl' & Hin). by apply (Hres l').
Qed.
End FlattenReturns.

(** X8.  Flattening returns exactly when every entry the traversal can
    come across resolves: a name to a behavior of the index, and either
    kind of entry to an object of the store.  When it throws, the error
    reports a name that the traversal came across and that the index does
    not hold. *)
Theorem flatten_returns_iff (σ : Store) (analysis : Analysis)
  (behaviors : list BehaviorRef) :
  ((exists flattened,
       getFlattenedAndResolvedBehaviors σ behaviors analysis = Ok flattened)
   <-> forall r, encountered σ analysis behaviors r -> resolves σ analysis r)
  /\ (forall e,
        getFlattenedAndResolvedBehaviors σ behaviors analysis = Throw e ->
        exists n, e = UnresolvedBehavior n
                  /\ getBehavior analysis n = None
                  /\ encountered σ analysis behaviors (ByName n)).
Proof.
  split.
  - split.
    + intros [V HV]. by apply (flatten_Ok_all_resolve σ analysis behaviors V).
    + apply flatten_returns.
  - intros e He. by apply flatten_Throw in He.
Qed.

(** ** What [resolveElement] puts in the merged lists *)

Lemma sourcesOf_Ok σ (f : BehaviorObj -> list Item) (behaviors : list loc)
  (sources : list Source) :
  sourcesOf σ f behaviors = Ok sources ->
  forall s, s ∈ sources
            <-> exists b obj, b ∈ behaviors
                              /\ behaviorObjects σ !! b = Some obj
                              /\ s = mkSource (className obj) (f obj).
Proof.
  unfold sourcesOf.
  assert (H : forall acc : list Source,
             forEach (fun b acc =>
                        match behaviorObjects σ !! b with
                        | Some obj =>
                            Ok (acc ++ [mkSource (className obj) (f obj)])
                        | None => Stuck
                        end) behaviors acc = Ok sources ->
             forall s, s ∈ sources
                       <-> s ∈ acc
                           \/ exists b obj,
                                b ∈ behaviors
                                /\ behaviorObjects σ !! b = Some obj
                                /\ s = mkSource (className obj) (f obj)).
  { revert sources.
    induction behaviors as [|b behaviors IH]; intros sources acc; simpl.
    - intros [= <-] s. split; [by left |].
      intros [?|(b & obj & Hb & _)]; [done |]. by apply elem_of_nil in Hb.
    - destruct (behaviorObjects σ !! b) as [obj|] eqn:Hobj; [| done]. simpl.
      intros Hrest s. rewrite (IH _ _ Hrest s), elem_of_app.
      rewrite list_elem_of_singleton. split.
      + intros [[? | ->] | (b' & obj' & Hb' & Hrest')]; [by left | |].
        * right. exists b, obj. split; [left | done].
        * right. exists b', obj'. split; [by right | done].
      + intros [?|(b' & obj' & Hb' & Hobj' & ->)]; [by left; left |].
        apply elem_of_cons in Hb' as [->|Hb'].
        * left. right. rewrite Hobj in Hobj'. by injection Hobj' as <-.
        * right. by exists b', obj'. }
  intros Hs s. rewrite (H [] Hs s). split; [| by right].
  intros [Hnil|?]; [by apply elem_of_nil in Hnil | done].
Qed.

Lemma flatten_reachable σ analysis behaviors flattened :
  getFlattenedAndResolvedBehaviors σ behaviors analysis = Ok flattened ->
  forall l, l ∈ flattened <-> reachableFrom σ analysis behaviors l.
Proof.
  unfold getFlattenedAndResolvedBehaviors. intros HV l. split.
  - intros Hl.
    destruct (flatten_sound _ _ _ _ _ _ HV l Hl) as [Hnil|?]; [| done].
    by apply elem_of_nil in Hnil.
  - by apply (flatten_complete _ _ _ _ _ _ HV).
Qed.

Lemma merged_inheritsFrom σ analysis behaviors own f flattened sources :
  getFlattenedAndResolvedBehaviors σ behaviors analysis = Ok flattened ->
  sourcesOf σ f flattened = Ok sources ->
  inheritsFrom σ analysis behaviors own f (mergeByName own sources).
Proof.
  intros Hflat Hsrc.
  pose proof (flatten_reachable _ _ _ _ Hflat) as Hreach.
  pose proof (sourcesOf_Ok _ _ _ _ Hsrc) as Hin.
  split; [apply mergeByName_NoDup |]. split.
  - intros n. rewrite mergeByName_name_iff. split.
    + intros [?|(s & Hs & Hn)]; [by left |]. right.
      apply Hin in Hs as (b & obj & Hb & Hobj & ->).
      exists b, obj. split; [by apply Hreach | done].
    + intros [?|(b & obj & Hb & Hobj & Hn)]; [by left |]. right.
      exists (mkSource (className obj) (f obj)). split; [| done].
      apply Hin. exists b, obj. split; [by apply Hreach | done].
  - intros x Hx.
    destruct (mergeByName_origin _ _ _ Hx) as [?|(s & i & Hs & Hi & -> & Hn)];
      [by left |].
    right. apply Hin in Hs as (b & obj & Hb & Hobj & ->).
    exists b, obj, i. split; [by apply Hreach | done].
Qed.

(** X9.  The object [resolveElement] returns for a Polymer element holds,
    in each of its three lists, one item per name: the element's own items
    and, for every name that only behaviors reachable from its behaviors
    list have, a copy of such a behavior's item marked with that behavior's
    class name.  For an element of another class the three lists are the
    element's own. *)
Theorem resolveElement_inherits (σ : Store) (elementDescriptor : loc)
  (analysis : Analysis) (σ' : Store) (resolved : loc) :
  resolveElement σ elementDescriptor analysis = Ok (σ', resolved) ->
  exists e clone,
    elementObjects σ !! elementDescriptor = Some e
    /\ elementObjects σ' !! resolved = Some clone
    /\ (e_class e = PolymerElementDescriptorClass ->
        inheritsFrom σ analysis (e_behaviors e) (e_properties e)
          b_properties (e_properties clone)
        /\ inheritsFrom σ analysis (e_behaviors e) (e_attributes e)
             b_attributes (e_attributes clone)
        /\ inheritsFrom σ analysis (e_behaviors e) (e_events e)
             b_events (e_events clone))
    /\ (e_class e <> PolymerElementDescriptorClass ->
        e_properties clone = e_properties e
        /\ e_attributes clone = e_attributes e
        /\ e_events clone = e_events e).
Proof.
  unfold resolveElement.
  destruct (elementObjects σ !! elementDescriptor) as [e|]; [| done].
  intros H. exists e.
  destruct (e_class e) eqn:Hclass.
  - simpl in H. injection H as <- <-. eexists.
    split; [done |]. split; [apply alloc_lookup |]. by split.
  - simpl in H. injection H as <- <-. eexists.
    split; [done |]. split; [apply alloc_lookup |]. by split.
  - apply bind_Ok in H as ([[ps as_] es] & Hm & H).
    apply bind_Ok in Hm as (flattened & Hflat & Hm).
    apply bind_Ok in Hm as (sp & Hsp & Hm).
    apply bind_Ok in Hm as (sa & Hsa & Hm).
    apply bind_Ok in Hm as (se & Hse & Hm).
    injection Hm as <- <- <-. injection H as <- <-. eexists.
    split; [done |]. split; [apply alloc_lookup |]. split; [| done].
    intros _. simpl.
    split; [by apply (merged_inheritsFrom _ _ _ _ _ flattened) |].
    split; by apply (merged_inheritsFrom _ _ _ _ _ flattened).
Qed.

Lemma resolveElement_inherits_witness :
  exists σ' resolved,
    resolveElement sampleStore 10 sampleIndexed = Ok (σ', resolved)
    /\ exists e clone,
         elementObjects sampleStore !! 10 = Some e
         /\ elementObjects σ' !! resolved = Some clone
         /\ (e_class e = PolymerElementDescriptorClass ->
             inheritsFrom sampleStore sampleIndexed (e_behaviors e)
               (e_properties e) b_properties (e_properties clone)
             /\ inheritsFrom sampleStore sampleIndexed (e_behaviors e)
                  (e_attributes e) b_attributes (e_attributes clone)
             /\ inheritsFrom sampleStore sampleIndexed (e_behaviors e)
                  (e_events e) b_events (e_events clone))
         /\ (e_class e <> PolymerElementDescriptorClass ->
             e_properties clone = e_properties e
             /\ e_attributes clone = e_attributes e
             /\ e_events clone = e_events e).
Proof.
  assert (H : resolveElement sampleStore 10 sampleIndexed
              = Ok (alloc sampleStore
                      (cloneWith x_a [q_local; mkItem "p1" (Some "B") ""]
                         [] []))).
  { vm_compute. reflexivity. }
  eexists _, _. split; [exact H |].
  exact (resolveElement_inherits _ _ _ _ _ H).
Defined.

(** ** The owning path *)

Lemma getPathFromAncestors_snoc ancestors d :
  _getPathFromAncestors (ancestors ++ [d]) =
  match d with
  | DDocument dd =>
      if truthy (url dd) then Some (url dd)
      else _getPathFromAncestors ancestors
  | _ => _getPathFromAncestors ancestors
  end.
Proof.
  unfold _getPathFromAncestors, documentAncestors.
  rewrite omap_app. simpl.
  destruct d as [dd| | | | | |]; simpl; rewrite ?app_nil_r; try done.
  destruct (truthy (url dd)); simpl; [| by rewrite app_nil_r].
  by rewrite last_snoc.
Qed.

Lemma getPathFromAncestors_nearest ancestors :
  match _getPathFromAncestors ancestors with
  | Some p =>
      truthy p = true
      /\ exists before dd after,
           ancestors = before ++ DDocument dd :: after
           /\ url dd = p
           /\ forall dd', DDocument dd' ∈ after -> truthy (url dd') = false
  | None => forall dd, DDocument dd ∈ ancestors -> truthy (url dd) = false
  end.
Proof.
  induction ancestors as [|d ancestors IH] using rev_ind.
  - simpl. intros dd Hdd. by apply elem_of_nil in Hdd.
  - rewrite getPathFromAncestors_snoc.
    assert (Hskip :
      (forall dd, d = DDocument dd -> truthy (url dd) = false) ->
      match _getPathFromAncestors ancestors with
      | Some p =>
          truthy p = true
          /\ exists before dd after,
               ancestors ++ [d] = before ++ DDocument dd :: after
               /\ url dd = p
               /\ forall dd', DDocument dd' ∈ after ->
                              truthy (url dd') = false
      | None => forall dd, DDocument dd ∈ ancestors ++ [d] ->
                           truthy (url dd) = false
      end).
    { intros Hd. destruct (_getPathFromAncestors ancestors) as [p|].
      - destruct IH as (Hp & before & dd & after & -> & Hu & Hafter).
        split; [done |]. exists before, dd, (after ++ [d]).
        split; [by rewrite <- app_assoc |]. split; [done |].
        intros dd' Hdd'. apply elem_of_app in Hdd' as [?|Hdd']; [auto |].
        apply list_elem_of_singleton in Hdd'. by apply Hd.
      - intros dd Hdd. apply elem_of_app in Hdd as [?|Hdd]; [auto |].
        apply list_elem_of_singleton in Hdd. by apply Hd. }
    destruct d as [dd| | | | | |]; try (apply Hskip; done).
    destruct (truthy (url dd)) eqn:Ht.
    + split; [done |]. exists ancestors, dd, []. split; [done |].
      split; [done |]. intros dd' Hdd'. by apply elem_of_nil in Hdd'.
    + apply Hskip. by intros dd' [= <-].
Qed.

Lemma getPathFromAncestors_decomp before dd after :
  truthy (url dd) = true ->
  (forall dd', DDocument dd' ∈ after -> truthy (url dd') = false) ->
  _getPathFromAncestors (before ++ DDocument dd :: after) = Some (url dd).
Proof.
  intros Ht. induction after as [|x after IH] using rev_ind; intros Hafter.
  - by rewrite getPathFromAncestors_snoc, Ht.
  - rewrite app_comm_cons, app_assoc, getPathFromAncestors_snoc.
    assert (IH' : _getPathFromAncestors (before ++ DDocument dd :: after)
                  = Some (url dd)).
    { apply IH. intros dd' Hdd'. apply Hafter, elem_of_app. by left. }
    destruct x as [dd0| | | | | |]; try done.
    rewrite (Hafter dd0); [done |]. apply elem_of_app. right. left.
Qed.

(** X10.  The owning path is the URL of the last document among the
    ancestors that has a non-empty URL, and there is none exactly when no
    document among them has one.  A path it returns is never empty, and a
    visit of an element or a behavior throws the error about an
    undeterminable path exactly in the case where there is none. *)
Theorem owning_path_is_nearest_document_url (ancestors : list Descriptor) :
  (forall p,
      _getPathFromAncestors ancestors = Some p <->
      truthy p = true
      /\ exists before dd after,
           ancestors = before ++ DDocument dd :: after
           /\ url dd = p
           /\ forall dd', DDocument dd' ∈ after -> truthy (url dd') = false)
  /\ (_getPathFromAncestors ancestors = None <->
      forall dd, DDocument dd ∈ ancestors -> truthy (url dd) = false)
  /\ (forall d this,
        ElementGatherer_visitElement d ancestors this
        = Throw (UnableToDeterminePath KElement d)
        <-> _getPathFromAncestors ancestors = None)
  /\ (forall d this,
        ElementGatherer_visitBehavior d ancestors this
        = Throw (UnableToDeterminePath KBehavior d)
        <-> _getPathFromAncestors ancestors = None).
Proof.
  pose proof (getPathFromAncestors_nearest ancestors) as Hn.
  split; [| split; [| split]].
  - intros p. split.
    + intros Hp. by rewrite Hp in Hn.
    + intros (Hp & before & dd & after & -> & <- & Hafter).
      by apply getPathFromAncestors_decomp.
  - split.
    + intros Hnone. by rewrite Hnone in Hn.
    + intros Hall. destruct (_getPathFromAncestors ancestors) as [p|];
        [| done].
      destruct Hn as (Hp & before & dd & after & -> & <- & _).
      rewrite (Hall dd) in Hp; [done |].
      apply elem_of_app. right. left.
  - intros d this. unfold ElementGatherer_visitElement.
    destruct (_getPathFromAncestors ancestors) as [p|]; [| done].
    destruct Hn as [-> _]. simpl.
    destruct (elementPaths this !! d) as [q|]; [| done].
    by destruct (decide (q = p)).
  - intros d this. unfold ElementGatherer_visitBehavior.
    destruct (_getPathFromAncestors ancestors) as [p|]; [| done].
    destruct Hn as [-> _]. simpl.
    destruct (behaviorPaths this !! d) as [q|]; [| done].
    by destruct (decide (q = p)).
Qed.

(** ** The ancestors passed to the visitors *)

Lemma visitsOf_leaf d pre v anc :
  (forall dd, d <> DDocument dd) ->
  (v, anc) ∈ visitsOf d pre <-> toVisit d = Some v /\ anc = pre.
Proof.
  intros Hd. destruct d as [dd| | | | | |]; simpl;
    rewrite ?list_elem_of_singleton.
  - by destruct (Hd dd).
  - split; [by intros [= -> ->] | by intros [[= <-] ->]].
  - split; [by intros [= -> ->] | by intros [[= <-] ->]].
  - split; [by intros [= -> ->] | by intros [[= <-] ->]].
  - split; [by intros [= -> ->] | by intros [[= <-] ->]].
  - split; [intros H; by apply elem_of_nil in H | by intros [? _]].
  - split; [by intros [= -> ->] | by intros [[= <-] ->]].
Qed.

Lemma tip_leaf parent d v :
  (forall dd, d <> DDocument dd) -> childOf parent d -> toVisit d = Some v ->
  tip parent v.
Proof.
  intros Hd Hc Hv. destruct v as [dd| | | | |]; simpl; try by exists d.
  destruct d as [dd'| | | | | |]; simpl in Hv; try done.
  by destruct (Hd dd').
Qed.

Lemma visitsOfDocument_chain :
  (forall d dd, d = DDocument dd ->
     forall pre v anc,
       (v, anc) ∈ visitsOfDocument dd pre
       <-> exists chain parent,
             descent dd chain
             /\ anc = pre ++ (DDocument <$> (dd :: chain))
             /\ last (dd :: chain) = Some parent
             /\ tip parent v)
  /\ (forall dd pre v anc,
        (v, anc) ∈ visitsOfDocument dd pre
        <-> exists chain parent,
              descent dd chain
              /\ anc = pre ++ (DDocument <$> (dd :: chain))
              /\ last (dd :: chain) = Some parent
              /\ tip parent v).
Proof.
  apply Descriptor_nested_ind; try done.
  - intros dd Hdd d' [= <-]. exact Hdd.
  - intros u doc es ds Hes Hds pre v anc.
    set (dd := mkDocumentDescriptor u doc es ds).
    rewrite visitsOfDocument_unfold. fold dd.
    set (pre' := pre ++ [DDocument dd]).
    assert (Hchildren : forall l : list Descriptor,
      Forall (fun d => forall dd0, d = DDocument dd0 ->
                forall pre v anc,
                  (v, anc) ∈ visitsOfDocument dd0 pre
                  <-> exists chain parent,
                        descent dd0 chain
                        /\ anc = pre ++ (DDocument <$> (dd0 :: chain))
                        /\ last (dd0 :: chain) = Some parent
                        /\ tip parent v) l ->
      (v, anc) ∈ flat_map (fun e => visitsOf e pre') l
      <-> exists e, e ∈ l
            /\ ((exists dd0,
                   e = DDocument dd0
                   /\ exists chain parent,
                        descent dd0 chain
                        /\ anc = pre' ++ (DDocument <$> (dd0 :: chain))
                        /\ last (dd0 :: chain) = Some parent
                        /\ tip parent v)
                \/ ((forall dd0, e <> DDocument dd0)
                    /\ toVisit e = Some v /\ anc = pre'))).
    { intros l Hl. rewrite list_elem_of_In, in_flat_map.
      rewrite Forall_forall in Hl. split.
      - intros (e & He & Hin). apply list_elem_of_In in He, Hin.
        exists e. split; [done |].
        destruct e as [dd0| | | | | |];
          try (right; split; [done |]; by apply visitsOf_leaf in Hin).
        left. exists dd0. split; [done |].
        by apply (Hl _ He dd0 eq_refl pre' v anc).
      - intros (e & He & [(dd0 & -> & Hch)|(Hleaf & Hv & ->)]).
        + exists (DDocument dd0). split; [by apply list_elem_of_In |].
          apply list_elem_of_In. simpl.
          by apply (Hl _ He dd0 eq_refl pre' v anc).
        + exists e. split; [by apply list_elem_of_In |].
          apply list_elem_of_In. by apply visitsOf_leaf. }
    rewrite elem_of_cons, elem_of_app.
    rewrite (Hchildren (entities dd)) by exact Hes.
    rewrite (Hchildren (dependencies dd)) by exact Hds.
    split.
    + intros [[= -> ->]|Hin].
      * exists [], dd. split; [done |]. split; [done |]. by split.
      * assert (Hc : exists e, childOf dd e
          /\ ((exists dd0,
                 e = DDocument dd0
                 /\ exists chain parent,
                      descent dd0 chain
                      /\ anc = pre' ++ (DDocument <$> (dd0 :: chain))
                      /\ last (dd0 :: chain) = Some parent
                      /\ tip parent v)
              \/ ((forall dd0, e <> DDocument dd0)
                  /\ toVisit e = Some v /\ anc = pre'))).
        { destruct Hin as [(e & He & H)|(e & He & H)]; exists e;
            (split; [| exact H]); [by left | by right]. }
        destruct Hc as (e & Hchild & [(dd0 & -> & chain & parent & Hd & -> & Hl
                                        & Ht)
                                     |(Hleaf & Hv & ->)]).
        -- exists (dd0 :: chain), parent. split; [by split |].
           split; [| by split].
           unfold pre'. by rewrite <- app_assoc.
        -- exists [], dd. split; [done |]. split; [done |].
           split; [done |]. by apply (tip_leaf dd e).
    + intros (chain & parent & Hd & -> & Hl & Ht).
      destruct chain as [|dd0 chain].
      * simpl in Hl. injection Hl as <-.
        destruct v as [dd1| | | | |]; simpl in Ht;
          try (right;
               destruct Ht as (d & [Hd'|Hd'] & Hv); [left | right];
               exists d; (split; [done |]); right;
               (split; [| by split]);
               intros dd1 ->; simpl in Hv; congruence).
        left. by rewrite Ht.
      * destruct Hd as [Hchild Hd]. right.
        assert (Hgoal : (exists dd1,
                   DDocument dd0 = DDocument dd1
                   /\ exists chain0 parent0,
                        descent dd1 chain0
                        /\ pre ++ (DDocument <$> (dd :: dd0 :: chain))
                           = pre' ++ (DDocument <$> (dd1 :: chain0))
                        /\ last (dd1 :: chain0) = Some parent0
                        /\ tip parent0 v)
                \/ ((forall dd1, DDocument dd0 <> DDocument dd1)
                    /\ toVisit (DDocument dd0) = Some v
                    /\ pre ++ (DDocument <$> (dd :: dd0 :: chain)) = pre')).
        { left. exists dd0. split; [done |]. exists chain, parent.
          split; [done |]. split; [| by split].
          unfold pre'. by rewrite <- app_assoc. }
        destruct Hchild as [Hc|Hc]; [left | right];
          by exists (DDocument dd0).
Qed.

Lemma visitsOfForest_ancestry documents v anc :
  (v, anc) ∈ visitsOfForest documents <-> ancestry documents anc v.
Proof.
  unfold visitsOfForest, ancestry.
  rewrite list_elem_of_In, in_flat_map. split.
  - intros (top & Htop & Hin). apply list_elem_of_In in Htop, Hin.
    apply (proj2 visitsOfDocument_chain) in Hin
      as (chain & parent & Hd & -> & Hl & Ht).
    by exists top, chain, parent.
  - intros (top & chain & parent & Htop & Hd & -> & Hl & Ht).
    exists top. split; [by apply list_elem_of_In |].
    apply list_elem_of_In, (proj2 visitsOfDocument_chain).
    by exists chain, parent.
Qed.

Lemma walk_recorder_log documents log :
  walk [recorder] documents [] = Ok log -> log = visitsOfForest documents.
Proof.
  rewrite walk_visits. intros H.
  apply bind_Ok in H as (log' & Hlog & Hdone).
  apply forEach_recorder in Hlog. simpl in Hlog, Hdone. congruence.
Qed.

(** X11.  In a walk that returns, every call of a visitor method is passed
    as ancestors a path of documents: it starts at a top-level document of
    the forest and goes down from each document to one of its entities or
    dependencies.  For a document the path ends with the document itself;
    for anything else it ends with the document that holds the visited
    descriptor.  Every such path is passed in some call. *)
Theorem walk_passes_document_paths (documents : list DocumentDescriptor)
  (log : list (Visit * list Descriptor)) :
  walk [recorder] documents [] = Ok log ->
  forall v ancestors, (v, ancestors) ∈ log <-> ancestry documents ancestors v.
Proof.
  intros Hlog v ancestors. rewrite (walk_recorder_log _ _ Hlog).
  apply visitsOfForest_ancestry.
Qed.

Lemma walk_passes_document_paths_witness :
  walk [recorder] nestedForest [] = Ok (visitsOfForest nestedForest)
  /\ forall v ancestors,
       (v, ancestors) ∈ visitsOfForest nestedForest
       <-> ancestry nestedForest ancestors v.
Proof.
  assert (H : walk [recorder] nestedForest []
              = Ok (visitsOfForest nestedForest)).
  { vm_compute. reflexivity. }
  split; [exact H |].
  exact (walk_passes_document_paths nestedForest _ H).
Defined.

(** ** When the walk of the constructor returns *)

Lemma visitElement_Ok d ancestors this this' :
  ElementGatherer_visitElement d ancestors this = Ok this' ->
  exists p,
    _getPathFromAncestors ancestors = Some p
    /\ behaviorPaths this' = behaviorPaths this
    /\ ((elementPaths this !! d = Some p /\ this' = this)
        \/ (elementPaths this !! d = None
            /\ elementPaths this' = <[d := p]> (elementPaths this))).
Proof.
  unfold ElementGatherer_visitElement.
  destruct (_getPathFromAncestors ancestors) as [p|]; [| done].
  destruct (truthy p); simpl; [| done].
  destruct (elementPaths this !! d) as [q|] eqn:Hq.
  - destruct (decide (q = p)) as [->|]; [| done].
    intros [= <-]. exists p. split; [done |]. split; [done |]. by left.
  - intros [= <-]. exists p. split; [done |]. split; [done |]. by right.
Qed.

Lemma visitBehavior_Ok d ancestors this this' :
  ElementGatherer_visitBehavior d ancestors this = Ok this' ->
  exists p,
    _getPathFromAncestors ancestors = Some p
    /\ elementPaths this' = elementPaths this
    /\ ((behaviorPaths this !! d = Some p /\ this' = this)
        \/ (behaviorPaths this !! d = None
            /\ behaviorPaths this' = <[d := p]> (behaviorPaths this))).
Proof.
  unfold ElementGatherer_visitBehavior.
  destruct (_getPathFromAncestors ancestors) as [p|]; [| done].
  destruct (truthy p); simpl; [| done].
  destruct (behaviorPaths this !! d) as [q|] eqn:Hq.
  - destruct (decide (q = p)) as [->|]; [| done].
    intros [= <-]. exists p. split; [done |]. split; [done |]. by left.
  - intros [= <-]. exists p. split; [done |]. split; [done |]. by right.
Qed.

(** What one more visit records, for one kind of descriptor. *)
Lemma record_path (K : loc -> Visit) (visits : list (Visit * list Descriptor))
  (paths paths' : gmap loc string) (d : loc) (ancestors : list Descriptor)
  (p : string) :
  (forall x y, K x = K y -> x = y) ->
  (forall l q, paths !! l = Some q
               <-> exists anc, (K l, anc) ∈ visits
                               /\ _getPathFromAncestors anc = Some q) ->
  _getPathFromAncestors ancestors = Some p ->
  (paths !! d = Some p /\ paths' = paths)
  \/ (paths !! d = None /\ paths' = <[d := p]> paths) ->
  forall l q, paths' !! l = Some q
              <-> exists anc, (K l, anc) ∈ visits ++ [(K d, ancestors)]
                              /\ _getPathFromAncestors anc = Some q.
Proof.
  intros Hinj Hinv Hp Hcase l q. split.
  - intros Hl. destruct Hcase as [[Hd ->]|[Hd ->]].
    + apply Hinv in Hl as (anc & Hin & Hq). exists anc.
      split; [| done]. apply elem_of_app. by left.
    + destruct (decide (d = l)) as [->|Hne].
      * rewrite lookup_insert_eq in Hl. injection Hl as <-.
        exists ancestors. split; [| done]. apply elem_of_app. right. left.
      * rewrite lookup_insert_ne in Hl by done.
        apply Hinv in Hl as (anc & Hin & Hq). exists anc.
        split; [| done]. apply elem_of_app. by left.
  - intros (anc & Hin & Hq). apply elem_of_app in Hin as [Hin|Hin].
    + assert (Hl : paths !! l = Some q) by (apply Hinv; by exists anc).
      destruct Hcase as [[Hd ->]|[Hd ->]]; [done |].
      rewrite lookup_insert_ne; [done |]. intros <-. congruence.
    + apply list_elem_of_singleton in Hin. injection Hin as Hk <-.
      apply Hinj in Hk as ->. rewrite Hp in Hq. injection Hq as <-.
      destruct Hcase as [[Hd ->]|[Hd ->]]; [done |].
      apply lookup_insert_eq.
Qed.

(** A visit of another kind records nothing for this kind. *)
Lemma record_nothing (K : loc -> Visit)
  (visits : list (Visit * list Descriptor)) (paths : gmap loc string)
  (v : Visit * list Descriptor) :
  (forall x, K x <> v.1) ->
  (forall l q, paths !! l = Some q
               <-> exists anc, (K l, anc) ∈ visits
                               /\ _getPathFromAncestors anc = Some q) ->
  forall l q, paths !! l = Some q
              <-> exists anc, (K l, anc) ∈ visits ++ [v]
                              /\ _getPathFromAncestors anc = Some q.
Proof.
  intros Hk Hinv l q. rewrite Hinv. split.
  - intros (anc & Hin & Hq). exists anc. split; [| done].
    apply elem_of_app. by left.
  - intros (anc & Hin & Hq). exists anc. split; [| done].
    apply elem_of_app in Hin as [?|Hin]; [done |].
    apply list_elem_of_singleton in Hin. destruct (Hk l). by rewrite <- Hin.
Qed.

Lemma gatherStep_pathsRecorded path visits v g g1 :
  gatherStep path v g = Ok g1 ->
  pathsRecorded visits g -> pathsRecorded (visits ++ [v]) g1.
Proof.
  intros Hstep [He Hb]. destruct v as [v anc]. unfold gatherStep in Hstep.
  simpl in Hstep. destruct v as [dd|idd|b|e|i|u].
  - injection Hstep as <-. split; simpl.
    + by apply (record_nothing VElement).
    + by apply (record_nothing VBehavior).
  - injection Hstep as <-. split.
    + by apply (record_nothing VElement).
    + by apply (record_nothing VBehavior).
  - apply bind_Ok in Hstep as (eg & Hv & [= <-]).
    apply visitBehavior_Ok in Hv as (p & Hp & Hsame & Hcase).
    split; simpl.
    + rewrite Hsame. by apply (record_nothing VElement).
    + apply (record_path VBehavior _ (behaviorPaths (elementsGatherer g))
               _ b anc p); [by intros ?? [= ->] | done | done |].
      destruct Hcase as [[? ->]|[? ?]]; [by left | by right].
  - apply bind_Ok in Hstep as (eg & Hv & [= <-]).
    apply visitElement_Ok in Hv as (p & Hp & Hsame & Hcase).
    split; simpl.
    + apply (record_path VElement _ (elementPaths (elementsGatherer g))
               _ e anc p); [by intros ?? [= ->] | done | done |].
      destruct Hcase as [[? ->]|[? ?]]; [by left | by right].
    + rewrite Hsame. by apply (record_nothing VBehavior).
  - injection Hstep as <-. split.
    + by apply (record_nothing VElement).
    + by apply (record_nothing VBehavior).
  - done.
Qed.

Lemma gatherStep_allLocated path visits v g g1 :
  gatherStep path v g = Ok g1 ->
  allLocated visits -> allLocated (visits ++ [v]).
Proof.
  intros Hstep (Hu & He & Hb). destruct v as [v anc].
  unfold gatherStep in Hstep. simpl in Hstep.
  assert (Hold : forall w a, (w, a) ∈ visits ++ [(v, anc)] ->
            (w, a) ∈ visits \/ (w = v /\ a = anc)).
  { intros w a Hin. apply elem_of_app in Hin as [?|Hin]; [by left |].
    apply list_elem_of_singleton in Hin. right. by injection Hin. }
  split; [| split].
  - intros u a Hin. destruct (Hold _ _ Hin) as [?|[<- _]]; [by apply (Hu u a) |].
    done.
  - intros l a Hin. destruct (Hold _ _ Hin) as [?|[<- ->]]; [by apply (He l) |].
    apply bind_Ok in Hstep as (eg & Hv & _).
    apply visitElement_Ok in Hv as (p & -> & _). by eexists.
  - intros b a Hin. destruct (Hold _ _ Hin) as [?|[<- ->]]; [by apply (Hb b) |].
    apply bind_Ok in Hstep as (eg & Hv & _).
    apply visitBehavior_Ok in Hv as (p & -> & _). by eexists.
Qed.

Lemma gather_pathsRecorded path rest visits g g' :
  forEach (gatherStep path) rest g = Ok g' ->
  pathsRecorded visits g -> allLocated visits ->
  pathsRecorded (visits ++ rest) g' /\ allLocated (visits ++ rest).
Proof.
  revert visits g. induction rest as [|v rest IH]; intros visits g.
  - intros [= <-]. by rewrite app_nil_r.
  - rewrite forEach_cons. intros H Hrec Hloc.
    apply bind_Ok in H as (g1 & Hstep & Hrest).
    replace (visits ++ v :: rest) with ((visits ++ [v]) ++ rest)
      by by rewrite <- app_assoc.
    apply (IH _ g1); [done | |].
    + by apply (gatherStep_pathsRecorded path _ _ g).
    + by apply (gatherStep_allLocated path _ _ g g1).
Qed.

Lemma pathsRecorded_agree visits g :
  pathsRecorded visits g -> allLocated visits -> pathsAgree visits.
Proof.
  intros [He Hb] Hloc. split; [done |]. destruct Hloc as (_ & Hle & Hlb).
  split.
  - intros l a a' Ha Ha'.
    destruct (Hle l a Ha) as [p Hp]. destruct (Hle l a' Ha') as [p' Hp'].
    assert (H1 : elementPaths (elementsGatherer g) !! l = Some p)
      by (apply He; by exists a).
    assert (H2 : elementPaths (elementsGatherer g) !! l = Some p')
      by (apply He; by exists a').
    congruence.
  - intros b a a' Ha Ha'.
    destruct (Hlb b a Ha) as [p Hp]. destruct (Hlb b a' Ha') as [p' Hp'].
    assert (H1 : behaviorPaths (elementsGatherer g) !! b = Some p)
      by (apply Hb; by exists a).
    assert (H2 : behaviorPaths (elementsGatherer g) !! b = Some p')
      by (apply Hb; by exists a').
    congruence.
Qed.

Lemma gatherStep_returns path visits v rest g :
  pathsRecorded visits g -> pathsAgree (visits ++ v :: rest) ->
  exists g1, gatherStep path v g = Ok g1.
Proof.
  intros [He Hb] ((Hu & Hle & Hlb) & Hae & Hab).
  destruct v as [v anc].
  assert (Hin : (v, anc) ∈ visits ++ (v, anc) :: rest).
  { apply elem_of_app. right. left. }
  unfold gatherStep. simpl. destruct v as [dd|idd|b|e|i|u].
  - by eexists.
  - by eexists.
  - destruct (Hlb b anc Hin) as [p Hp].
    unfold ElementGatherer_visitBehavior. rewrite Hp.
    rewrite (getPathFromAncestors_truthy _ _ Hp). simpl.
    destruct (behaviorPaths (elementsGatherer g) !! b) as [q|] eqn:Hq;
      [| by eexists].
    apply Hb in Hq as (anc' & Hin' & Hq).
    assert (Heq : _getPathFromAncestors anc' = _getPathFromAncestors anc).
    { apply (Hab b); [| done]. apply elem_of_app. by left. }
    rewrite Hq, Hp in Heq. injection Heq as ->.
    rewrite decide_True by done. by eexists.
  - destruct (Hle e anc Hin) as [p Hp].
    unfold ElementGatherer_visitElement. rewrite Hp.
    rewrite (getPathFromAncestors_truthy _ _ Hp). simpl.
    destruct (elementPaths (elementsGatherer g) !! e) as [q|] eqn:Hq;
      [| by eexists].
    apply He in Hq as (anc' & Hin' & Hq).
    assert (Heq : _getPathFromAncestors anc' = _getPathFromAncestors anc).
    { apply (Hae e); [| done]. apply elem_of_app. by left. }
    rewrite Hq, Hp in Heq. injection Heq as ->.
    rewrite decide_True by done. by eexists.
  - by eexists.
  - by destruct (Hu u anc).
Qed.

Lemma gather_returns path rest visits g :
  pathsRecorded visits g -> pathsAgree (visits ++ rest) ->
  exists g', forEach (gatherStep path) rest g = Ok g'.
Proof.
  revert visits g. induction rest as [|v rest IH]; intros visits g Hrec Hall.
  - by eexists.
  - rewrite forEach_cons.
    destruct (gatherStep_returns path visits v rest g Hrec Hall)
      as [g1 Hstep].
    rewrite Hstep. simpl. apply (IH (visits ++ [v])).
    + by apply (gatherStep_pathsRecorded path _ _ g).
    + by rewrite <- app_assoc.
Qed.

Lemma pathsRecorded_new : pathsRecorded [] newGatherers.
Proof.
  split; intros l p; simpl; rewrite lookup_empty;
    (split; [done |]); intros (anc & Hin & _); by apply elem_of_nil in Hin.
Qed.

Lemma allLocated_nil : allLocated [].
Proof.
  split; [| split].
  - intros u a. apply not_elem_of_nil.
  - intros l a Hin. by apply elem_of_nil in Hin.
  - intros l a Hin. by apply elem_of_nil in Hin.
Qed.

(** X12.  The walk of the constructor returns exactly when no descriptor
    it visits is of an unknown kind, every visit of an element or a
    behavior has an owning path, and all the visits of one element, or of
    one behavior, have the same owning path.  The path it then holds for
    an element or a behavior is that common owning path. *)
Theorem gathered_returns_iff (path : Path)
  (documents : list DocumentDescriptor) :
  ((exists g, gathered path documents = Ok g)
   <-> pathsAgree (visitsOfForest documents))
  /\ (forall g, gathered path documents = Ok g ->
                pathsRecorded (visitsOfForest documents) g).
Proof.
  rewrite gathered_visits. split.
  - split.
    + intros [g Hg].
      destruct (gather_pathsRecorded path _ [] _ _ Hg pathsRecorded_new
                  allLocated_nil) as [Hrec Hloc].
      by apply (pathsRecorded_agree _ g).
    + intros Hall. by apply (gather_returns path _ [] _ pathsRecorded_new).
  - intros g Hg.
    by destruct (gather_pathsRecorded path _ [] _ _ Hg pathsRecorded_new
                   allLocated_nil) as [Hrec _].
Qed.

Lemma gathered_returns_iff_witness :
  gathered posixPath sampleForest = Ok sampleGathered
  /\ pathsRecorded (visitsOfForest sampleForest) sampleGathered.
Proof.
  assert (H : gathered posixPath sampleForest = Ok sampleGathered).
  { vm_compute. reflexivity. }
  split; [exact H |].
  exact (proj2 (gathered_returns_iff posixPath sampleForest) _ H).
Defined.

Example gathered_twiceForest :
  gathered posixPath twiceForest
  = Throw (DistinctPaths 10 "/a/two.html" "/a/one.html").
Proof. vm_compute. reflexivity. Qed.

(** ** The last of a list that satisfies a predicate *)

Lemma lastSuch_snoc {A} (P : A -> Prop) (l : list A) (x b : A) :
  lastSuch P (l ++ [x]) b
  <-> (P x /\ b = x) \/ (~ P x /\ lastSuch P l b).
Proof.
  unfold lastSuch. split.
  - intros (before & after & Heq & Hb & Hafter).
    destruct after as [|y after _] using rev_ind.
    + apply app_inj_tail in Heq as [_ ->]. by left.
    + rewrite app_comm_cons, app_assoc in Heq.
      apply app_inj_tail in Heq as [-> <-]. right. split.
      * apply Hafter, elem_of_app. right. left.
      * exists before, after. split; [done |]. split; [done |].
        intros z Hz. apply Hafter, elem_of_app. by left.
  - intros [[Hx ->]|(Hx & before & after & -> & Hb & Hafter)].
    + exists l, []. split; [done |]. split; [done |].
      intros y Hy. by apply elem_of_nil in Hy.
    + exists before, (after ++ [x]). split; [by rewrite <- app_assoc |].
      split; [done |]. intros y Hy.
      apply elem_of_app in Hy as [?|Hy]; [by apply Hafter |].
      by apply list_elem_of_singleton in Hy as ->.
Qed.

Lemma lastSuch_nil {A} (P : A -> Prop) (b : A) : ~ lastSuch P [] b.
Proof. intros (before & after & Heq & _). by destruct before. Qed.

Lemma lastSuch_cons {A} (P : A -> Prop) (x : A) (l : list A) (b : A) :
  lastSuch P (x :: l) b
  <-> lastSuch P l b \/ (b = x /\ P x /\ forall y, y ∈ l -> ~ P y).
Proof.
  unfold lastSuch. split.
  - intros (before & after & Heq & Hb & Hafter).
    destruct before as [|z before]; simpl in Heq; injection Heq as -> ->.
    + right. by split.
    + left. by exists before, after.
  - intros [(before & after & -> & Hb & Hafter)|(-> & Hx & Hl)].
    + by exists (x :: before), after.
    + by exists [], l.
Qed.

Lemma lastSuch_elem {A} (P : A -> Prop) (l : list A) (b : A) :
  lastSuch P l b -> b ∈ l /\ P b.
Proof.
  intros (before & after & -> & Hb & _). split; [| done].
  apply elem_of_app. right. left.
Qed.

Lemma lastSuch_unique {A} (P : A -> Prop) (l : list A) (b b' : A) :
  lastSuch P l b -> lastSuch P l b' -> b = b'.
Proof.
  revert b b'. induction l as [|x l IH] using rev_ind; intros b b' Hb Hb'.
  - by destruct (lastSuch_nil P b).
  - apply lastSuch_snoc in Hb, Hb'.
    destruct Hb as [[Hx ->]|[Hx Hb]], Hb' as [[Hx' ->]|[Hx' Hb']];
      try done.
    by apply IH.
Qed.

(** ** The behavior index *)

Lemma bind_ret {A} (m : Outcome A) : (x <- m ;; Ok x) = m.
Proof. by destruct m. Qed.

Lemma forEach_snoc {A S} (body : A -> S -> Outcome S) (xs : list A) (x : A)
  (s : S) :
  forEach body (xs ++ [x]) s = (s' <- forEach body xs s ;; body x s').
Proof.
  rewrite forEach_app. destruct (forEach body xs s) as [s'| |]; simpl;
    [| done | done].
  apply bind_ret.
Qed.

Lemma indexBehaviors_last σ behaviors index :
  forEach (indexBehavior σ) behaviors ∅ = Ok index ->
  forall n b, index !! n = Some b
              <-> truthy n = true /\ lastSuch (declares σ n) behaviors b.
Proof.
  revert index.
  induction behaviors as [|x behaviors IH] using rev_ind; intros index H n b.
  - injection H as <-. rewrite lookup_empty. split; [done |].
    intros [_ Hl]. by destruct (lastSuch_nil _ _ Hl).
  - rewrite forEach_snoc in H. apply bind_Ok in H as (index1 & H1 & Hstep).
    specialize (IH index1 H1 n b). rewrite lastSuch_snoc.
    unfold indexBehavior in Hstep.
    destruct (behaviorObjects σ !! x) as [obj|] eqn:Hobj; [| done].
    assert (Hdecl : forall m, declares σ m x <-> className obj = Some m).
    { intros m. split.
      - intros (obj' & Hobj' & Hm). congruence.
      - intros Hm. by exists obj. }
    assert (Hskip : ~ declares σ n x -> index = index1 ->
              index !! n = Some b
              <-> truthy n = true
                  /\ ((declares σ n x /\ b = x)
                      \/ (~ declares σ n x
                          /\ lastSuch (declares σ n) behaviors b))).
    { intros Hx ->. rewrite IH. split.
      - intros [Ht Hl]. split; [done |]. by right.
      - intros [Ht [[? _]|[_ Hl]]]; [done | by split]. }
    destruct (className obj) as [c|] eqn:Hc.
    + destruct (truthy c) eqn:Htc.
      * injection Hstep as <-. destruct (decide (c = n)) as [->|Hne].
        -- rewrite lookup_insert_eq. split.
           ++ intros [= <-]. split; [done |]. left. split; [| done].
              by apply Hdecl.
           ++ intros [_ [[_ ->]|[Hx _]]]; [done |].
              destruct Hx. by apply Hdecl.
        -- rewrite lookup_insert_ne by done. rewrite IH.
           assert (Hx : ~ declares σ n x).
           { intros Hd. apply Hdecl in Hd. congruence. }
           split.
           ++ intros [Ht Hl]. split; [done |]. by right.
           ++ intros [Ht [[? _]|[_ Hl]]]; [done | by split].
      * injection Hstep as <-.
        destruct (truthy n) eqn:Htn.
        -- apply Hskip; [| done]. intros Hd. apply Hdecl in Hd.
           congruence.
        -- rewrite IH. split; by intros [? _].
    + injection Hstep as <-. apply Hskip; [| done].
      intros Hd. by apply Hdecl in Hd.
Qed.

Lemma indexElements_behaviors pg eg elements σ this σ' this' :
  forEach (indexElement pg eg) elements (σ, this) = Ok (σ', this') ->
  _behaviorsByIdentifierName this' = _behaviorsByIdentifierName this.
Proof.
  revert σ this. induction elements as [|l elements IH]; intros σ this.
  - by intros [= <- <-].
  - rewrite forEach_cons. intros H.
    apply bind_Ok in H as ([σ1 this1] & H1 & H2).
    rewrite (IH _ _ H2).
    by apply indexElement_Ok in H1 as (? & ? & ? & ? & ? & _ & _ & _ & _ & _
                                        & ? & _).
Qed.

(** X13.  After a construction that returns, [getBehavior] maps a
    non-empty name to the last of the gathered behaviors that declare it
    as their class name, and maps nothing else: the empty name is bound to
    nothing, a behavior with no class name is bound to no name, and of two
    behaviors with one class name only the one gathered later can be
    looked up.  Every behavior it returns is a behavior of the forest. *)
Theorem getBehavior_last_declared (path : Path) (σ : Store)
  (descriptors : list DocumentDescriptor) (σ' : Store) (a : Analysis)
  (g : Gatherers) :
  gathered path descriptors = Ok g ->
  Analysis_new path σ descriptors = Ok (σ', a) ->
  (forall n b,
      getBehavior a n = Some b
      <-> truthy n = true
          /\ lastSuch (declares σ n)
               (behaviorDescriptors (elementsGatherer g)) b)
  /\ (forall n b, getBehavior a n = Some b ->
                  inForest descriptors (DBehavior b)).
Proof.
  intros Hg H.
  apply Analysis_new_Ok in H as (g' & index & this' & Hg' & Hindex & Hloop
                                 & ->).
  rewrite Hg in Hg'. injection Hg' as <-.
  apply indexElements_behaviors in Hloop. unfold getBehavior. simpl.
  rewrite Hloop. simpl.
  pose proof (indexBehaviors_last _ _ _ Hindex) as Hlast.
  split; [exact Hlast |].
  intros n b Hb. apply Hlast in Hb as [_ Hb].
  apply lastSuch_elem in Hb as [Hb _].
  by apply (gathered_inForest _ _ _ Hg).
Qed.

Lemma getBehavior_last_declared_witness :
  gathered posixPath shadowForest = Ok shadowGathered
  /\ Analysis_new posixPath shadowStore shadowForest = Ok shadowConstructed
  /\ getBehavior shadowConstructed.2 "B" = Some 21
  /\ lastSuch (declares shadowStore "B")
       (behaviorDescriptors (elementsGatherer shadowGathered)) 21.
Proof.
  assert (Hg : gathered posixPath shadowForest = Ok shadowGathered).
  { vm_compute. reflexivity. }
  assert (H : Analysis_new posixPath shadowStore shadowForest
              = Ok shadowConstructed).
  { vm_compute. reflexivity. }
  split; [exact Hg |]. split; [exact H |].
  assert (Hb : getBehavior shadowConstructed.2 "B" = Some 21).
  { vm_compute. reflexivity. }
  split; [exact Hb |].
  exact (proj2 (proj1 (proj1 (getBehavior_last_declared posixPath shadowStore
                                shadowForest shadowConstructed.1
                                shadowConstructed.2 shadowGathered Hg H)
                         "B" 21) Hb)).
Defined.

(** ** The document index *)

Lemma indexDocuments_last descriptors p dd :
  indexDocuments descriptors !! p = Some dd
  <-> lastSuch (fun dd => url dd = p) descriptors dd.
Proof.
  unfold indexDocuments.
  induction descriptors as [|x descriptors IH] using rev_ind.
  - simpl. rewrite lookup_empty. split; [done |].
    intros Hl. by destruct (lastSuch_nil _ _ Hl).
  - rewrite foldl_app, lastSuch_snoc. simpl.
    destruct (decide (url x = p)) as [Hx|Hx].
    + rewrite Hx, lookup_insert_eq. split.
      * intros [= <-]. by left.
      * intros [[_ ->]|[? _]]; done.
    + rewrite lookup_insert_ne by done. rewrite IH. split.
      * intros Hl. by right.
      * intros [[? _]|[_ Hl]]; done.
Qed.

(** X14.  After a construction that returns, [getDocument] knows the
    top-level documents only, each by its own URL, and a URL that several
    of them have leads to the last of these: a document that is only
    nested in another one is not found. *)
Theorem getDocument_last_top_level (path : Path) (σ : Store)
  (descriptors : list DocumentDescriptor) (σ' : Store) (a : Analysis) :
  Analysis_new path σ descriptors = Ok (σ', a) ->
  (forall p dd,
      getDocument a p = Some dd
      <-> lastSuch (fun dd => url dd = p) descriptors dd)
  /\ (forall p dd, getDocument a p = Some dd ->
                   dd ∈ descriptors /\ url dd = p)
  /\ (forall dd, dd ∈ descriptors -> is_Some (getDocument a (url dd))).
Proof.
  intros H.
  apply Analysis_new_Ok in H as (g & index & this' & _ & _ & _ & ->).
  unfold getDocument. simpl. split; [| split].
  - intros p dd. apply indexDocuments_last.
  - intros p dd Hdd. apply indexDocuments_last in Hdd.
    by apply lastSuch_elem in Hdd.
  - intros dd Hdd.
    assert (Hex : forall l : list DocumentDescriptor, dd ∈ l ->
              exists dd', lastSuch (fun x => url x = url dd) l dd').
    { intros l. induction l as [|x l IH] using rev_ind; intros Hin.
      - by apply elem_of_nil in Hin.
      - destruct (decide (url x = url dd)) as [Hx|Hx].
        + exists x. apply lastSuch_snoc. by left.
        + apply elem_of_app in Hin as [Hin|Hin].
          * destruct (IH Hin) as [dd' Hdd']. exists dd'.
            apply lastSuch_snoc. by right.
          * apply list_elem_of_singleton in Hin. by subst. }
    destruct (Hex _ Hdd) as [dd' Hdd'].
    exists dd'. by apply indexDocuments_last.
Qed.

Lemma getDocument_last_top_level_witness :
  Analysis_new posixPath shadowStore shadowForest = Ok shadowConstructed
  /\ forall p dd,
       getDocument shadowConstructed.2 p = Some dd
       <-> lastSuch (fun dd => url dd = p) shadowForest dd.
Proof.
  assert (H : Analysis_new posixPath shadowStore shadowForest
              = Ok shadowConstructed).
  { vm_compute. reflexivity. }
  split; [exact H |].
  exact (proj1 (getDocument_last_top_level posixPath shadowStore shadowForest
                  shadowConstructed.1 shadowConstructed.2 H)).
Defined.

(** ** The tag-name index *)

Lemma indexElements_tags pg eg elements σ this σ' this' :
  forEach (indexElement pg eg) elements (σ, this) = Ok (σ', this') ->
  exists resolved,
    length resolved = length elements
    /\ extendsStore σ σ'
    /\ (forall c, c ∈ resolved -> elementObjects σ !! c = None)
    /\ Forall2 (resolvedCopyOf σ') elements resolved
    /\ (NoDup (map_keys (_elementsByTagName this)) ->
        NoDup (map_keys (_elementsByTagName this')))
    /\ forall tag c,
         map_get (_elementsByTagName this') tag = Some c
         <-> (truthy tag = true
              /\ exists l, lastSuch (fun z => tagged σ' tag z.1)
                             (zip elements resolved) (l, c))
             \/ ((truthy tag = true ->
                  forall z, z ∈ zip elements resolved ->
                            ~ tagged σ' tag z.1)
                 /\ map_get (_elementsByTagName this) tag = Some c).
Proof.
  revert σ this.
  induction elements as [|l elements IH]; intros σ this H; simpl in H.
  - injection H as <- <-. exists []. simpl.
    split; [done |]. split; [apply extendsStore_refl |].
    split; [intros c Hc; by apply elem_of_nil in Hc |].
    split; [constructor |]. split; [done |].
    intros tag c. split.
    + intros Hc. right. split; [| done].
      intros _ z Hz. by apply elem_of_nil in Hz.
    + intros [[_ [l0 Hl]]|[_ ?]]; [| done].
      by destruct (lastSuch_nil _ _ Hl).
  - apply bind_Ok in H as ([σ1 this1] & Hstep & Hrest).
    apply indexElement_Ok in Hstep
      as (e & ps & as_ & es & matching & He & _ & Hσ1 & Htag & _ & _ & _).
    simpl in *.
    set (obj := cloneWith e ps as_ es) in *.
    set (c1 := (alloc σ obj).2) in *.
    destruct (IH _ _ Hrest)
      as (cs & Hlen & Hext & Hfresh & Hall & Hnd & Htags).
    assert (Hext1 : extendsStore σ σ1) by (subst σ1; apply alloc_extends).
    assert (Hc1 : elementObjects σ1 !! c1 = Some obj)
      by (subst σ1; apply alloc_lookup).
    assert (Hext' : extendsStore σ σ') by by apply (extendsStore_trans _ σ1).
    assert (He' : elementObjects σ' !! l = Some e).
    { destruct Hext' as [Hext' _]. rewrite Hext'; [done | by rewrite He]. }
    exists (c1 :: cs). split; [simpl; by rewrite Hlen |].
    split; [done |]. split.
    { intros c' Hin. apply elem_of_cons in Hin as [->|Hin];
        [apply alloc_fresh |].
      apply Hfresh in Hin. destruct (elementObjects σ !! c') eqn:Hc'; [| done].
      destruct Hext1 as [Hext1 _]. rewrite Hext1 in Hin; [congruence |].
      by rewrite Hc'. }
    split.
    { constructor; [| done]. exists e, obj. destruct Hext as [Hext _].
      split; [done |].
      split; [rewrite Hext; [done | by rewrite Hc1] |]. done. }
    split.
    { intros Hnd0. apply Hnd. rewrite Htag.
      destruct (tagName e) as [t|]; [| done].
      destruct (truthy t); [| done]. by apply map_keys_set_NoDup. }
    intros tag c. simpl. rewrite Htags. clear Htags.
    assert (Htagged : tagged σ' tag l <-> tagName e = Some tag).
    { split.
      - intros (e' & He'' & Ht). congruence.
      - intros Ht. by exists e. }
    assert (Hget : map_get (_elementsByTagName this1) tag
                   = if decide (tagName e = Some tag /\ truthy tag = true)
                     then Some c1
                     else map_get (_elementsByTagName this) tag).
    { rewrite Htag. destruct (tagName e) as [t|] eqn:Ht.
      - destruct (truthy t) eqn:Htt.
        + destruct (decide (t = tag)) as [->|Hne].
          * rewrite map_get_set_eq. by rewrite decide_True.
          * rewrite map_get_set_ne by done.
            rewrite decide_False; [done |]. intros [[= ?] _]. done.
        + rewrite decide_False; [done |]. intros [[= ->] ?]. congruence.
      - rewrite decide_False; [done |]. by intros [? _]. }
    rewrite Hget. clear Hget.
    destruct (decide (tagName e = Some tag /\ truthy tag = true))
      as [[HT HTg]|Hno].
    + split.
      * intros [[_ [l0 Hl]]|[Hnone [= <-]]].
        -- left. split; [done |]. exists l0. apply lastSuch_cons. by left.
        -- left. split; [done |]. exists l. apply lastSuch_cons. right.
           split; [done |]. split; [by apply Htagged |]. by apply Hnone.
      * intros [[_ [l0 Hl]]|[Hnone _]].
        -- apply lastSuch_cons in Hl as [Hl|([= -> ->] & _ & Hrest')].
           ++ left. split; [done |]. by exists l0.
           ++ right. split; [| done]. by intros _.
        -- exfalso. apply (Hnone HTg (l, c1)); [left |].
           by apply Htagged.
    + split.
      * intros [[HTg [l0 Hl]]|[Hnone Hc]].
        -- left. split; [done |]. exists l0. apply lastSuch_cons. by left.
        -- right. split; [| done]. intros HTg z Hz.
           apply elem_of_cons in Hz as [->|Hz]; [| by apply Hnone].
           simpl. intros Ht. apply Hno. split; [| done]. by apply Htagged.
      * intros [[HTg [l0 Hl]]|[Hnone Hc]].
        -- apply lastSuch_cons in Hl as [Hl|([= -> ->] & Ht & _)].
           ++ left. split; [done |]. by exists l0.
           ++ destruct Hno. split; [| done]. by apply Htagged.
        -- right. split; [| done]. intros HTg z Hz.
           apply Hnone; [done |]. by right.
Qed.

Lemma map_values_get {V} (m : list (string * V)) (c : V) :
  NoDup (map_keys m) ->
  c ∈ map_values m <-> exists k, map_get m k = Some c.
Proof.
  intros Hnd. unfold map_values. rewrite list_elem_of_fmap. split.
  - intros ([k v] & -> & Hin). exists k. by apply map_elem_get.
  - intros [k Hk]. exists (k, c). split; [done |].
    by apply map_get_Some_elem.
Qed.

(** X15.  After a construction that returns, [getElement] maps a non-empty
    tag name to the resolved copy of the last gathered element that has
    it, and maps nothing else; [getElements] lists what [getElement]
    returns for some tag, so of several elements with one tag name only
    the one gathered last is listed.  What they return are objects made by
    the construction, none of which is an object of the store it ran in,
    and every object of that store is left as it was. *)
Theorem getElement_last_tagged (path : Path) (σ : Store)
  (descriptors : list DocumentDescriptor) (σ' : Store) (a : Analysis)
  (g : Gatherers) :
  gathered path descriptors = Ok g ->
  Analysis_new path σ descriptors = Ok (σ', a) ->
  exists resolved : list loc,
    Forall2 (resolvedCopyOf σ')
      (elementDescriptors (elementsGatherer g)) resolved
    /\ extendsStore σ σ'
    /\ (forall c, c ∈ resolved -> elementObjects σ !! c = None)
    /\ (forall tag c,
          getElement a tag = Some c
          <-> truthy tag = true
              /\ exists l,
                   lastSuch (fun z => tagged σ' tag z.1)
                     (zip (elementDescriptors (elementsGatherer g)) resolved)
                     (l, c))
    /\ (forall c, c ∈ getElements a
                  <-> exists tag, getElement a tag = Some c).
Proof.
  intros Hg H.
  apply Analysis_new_Ok in H as (g' & index & this' & Hg' & _ & Hloop & ->).
  rewrite Hg in Hg'. injection Hg' as <-.
  apply indexElements_tags in Hloop
    as (resolved & _ & Hext & Hfresh & Hall & Hnd & Htags).
  exists resolved. split; [done |]. split; [done |]. split; [done |].
  unfold getElement, getElements. simpl. split.
  - intros tag c. rewrite Htags. simpl. split.
    + intros [?|[_ ?]]; done.
    + intros ?. by left.
  - intros c. apply map_values_get, Hnd. simpl. apply NoDup_nil_2.
Qed.

Lemma getElement_last_tagged_witness :
  gathered posixPath tagForest = Ok tagGathered
  /\ Analysis_new posixPath tagStore tagForest = Ok tagConstructed
  /\ exists resolved : list loc,
       Forall2 (resolvedCopyOf tagConstructed.1)
         (elementDescriptors (elementsGatherer tagGathered)) resolved
       /\ extendsStore tagStore tagConstructed.1
       /\ (forall c, c ∈ resolved -> elementObjects tagStore !! c = None)
       /\ (forall tag c,
             getElement tagConstructed.2 tag = Some c
             <-> truthy tag = true
                 /\ exists l,
                      lastSuch (fun z => tagged tagConstructed.1 tag z.1)
                        (zip (elementDescriptors (elementsGatherer tagGathered))
                           resolved)
                        (l, c))
       /\ (forall c, c ∈ getElements tagConstructed.2
                     <-> exists tag, getElement tagConstructed.2 tag = Some c).
Proof.
  assert (Hg : gathered posixPath tagForest = Ok tagGathered).
  { vm_compute. reflexivity. }
  assert (H : Analysis_new posixPath tagStore tagForest = Ok tagConstructed).
  { vm_compute. reflexivity. }
  split; [exact Hg |]. split; [exact H |].
  exact (getElement_last_tagged posixPath tagStore tagForest
           tagConstructed.1 tagConstructed.2 tagGathered Hg H).
Defined.

(** ** Where the package directories come from *)

Lemma visitDocumentDescriptor_sound path dd this d :
  d ∈ packageDirs (PackageGatherer_visitDocumentDescriptor path dd this) ->
  d ∈ packageDirs this
  \/ (isJsonDocument (document dd) = true
      /\ basename path (document_url (document dd)) ∈ packageFileNames
      /\ dirname path (document_url (document dd)) = d).
Proof.
  unfold PackageGatherer_visitDocumentDescriptor, set_has.
  destruct (isJsonDocument (document dd)); simpl; [| by left].
  case_bool_decide as Hb; simpl; [| by left].
  case_bool_decide as Hd; simpl; [by left |].
  unfold set_add, set_has. case_bool_decide; [by left |].
  intros Hin. apply elem_of_app in Hin as [?|Hin]; [by left |].
  apply list_elem_of_singleton in Hin. right. by split.
Qed.

Lemma gather_packageDirs_sound path visits g g' :
  forEach (gatherStep path) visits g = Ok g' ->
  forall d, d ∈ packageDirs (packageGatherer g') ->
    d ∈ packageDirs (packageGatherer g)
    \/ exists dd,
         VDocument dd ∈ visits.*1
         /\ isJsonDocument (document dd) = true
         /\ basename path (document_url (document dd)) ∈ packageFileNames
         /\ dirname path (document_url (document dd)) = d.
Proof.
  revert g. induction visits as [|v visits IH]; intros g H d Hd.
  - injection H as <-. by left.
  - rewrite forEach_cons in H. apply bind_Ok in H as (g1 & H1 & H2).
    destruct (IH _ H2 d Hd) as [Hd1|(dd & Hin & Hrest)].
    + destruct v as [[dd|idd|b|e|i|inspected] ancestors];
        unfold gatherStep in H1; simpl in H1.
      * injection H1 as <-. simpl in Hd1.
        apply visitDocumentDescriptor_sound in Hd1 as [?|Hnew]; [by left |].
        right. exists dd. split; [| done]. rewrite fmap_cons. left.
      * injection H1 as <-. by left.
      * apply bind_Ok in H1 as (eg & _ & [= <-]). by left.
      * apply bind_Ok in H1 as (eg & _ & [= <-]). by left.
      * injection H1 as <-. by left.
      * done.
    + right. exists dd. split; [| done]. rewrite fmap_cons. by right.
Qed.

(** X16.  After a walk of the constructor that returns, the package
    directories are exactly the containing directories of the documents of
    the forest that are JSON documents named as a manifest: none is
    recorded for anything else. *)
Theorem packageDirs_are_manifest_dirs (path : Path)
  (descriptors : list DocumentDescriptor) (g : Gatherers) :
  gathered path descriptors = Ok g ->
  forall d,
    d ∈ packageDirs (packageGatherer g)
    <-> exists dd,
          inForest descriptors (DDocument dd)
          /\ isJsonDocument (document dd) = true
          /\ basename path (document_url (document dd)) ∈ packageFileNames
          /\ dirname path (document_url (document dd)) = d.
Proof.
  rewrite gathered_visits. intros H d. split.
  - intros Hd.
    destruct (gather_packageDirs_sound _ _ _ _ H d Hd)
      as [Hnil|(dd & Hin & Hrest)]; [by apply elem_of_nil in Hnil |].
    exists dd. split; [| done].
    by apply (visitsOfForest_inForest descriptors (DDocument dd)
                (VDocument dd)).
  - intros (dd & Hin & Hjson & Hname & <-).
    destruct (gather_packageDirs _ _ _ _ H) as (_ & _ & Hrec).
    apply Hrec; [| done | done].
    by apply (visitsOfForest_inForest descriptors (DDocument dd)
                (VDocument dd)).
Qed.

Lemma packageDirs_are_manifest_dirs_witness :
  gathered posixPath sampleForest = Ok sampleGathered
  /\ forall d,
       d ∈ packageDirs (packageGatherer sampleGathered)
       <-> exists dd,
             inForest sampleForest (DDocument dd)
             /\ isJsonDocument (document dd) = true
             /\ basename posixPath (document_url (document dd))
                ∈ packageFileNames
             /\ dirname posixPath (document_url (document dd)) = d.
Proof.
  assert (H : gathered posixPath sampleForest = Ok sampleGathered).
  { vm_compute. reflexivity. }
  split; [exact H |].
  exact (packageDirs_are_manifest_dirs posixPath sampleForest _ H).
Defined.

(** ** [max] *)

Lemma max_snoc {T} (arr : list T) (x : T) (comparison : option T -> T -> Z) :
  max (arr ++ [x]) comparison
  = if (0 <? comparison (max arr comparison) x)%Z
    then max arr comparison else Some x.
Proof. unfold max. by rewrite foldl_app. Qed.

Lemma max_member {T} (arr : list T) (comparison : option T -> T -> Z) :
  match max arr comparison with
  | Some x => x ∈ arr
  | None => arr = []
             \/ exists x, x ∈ arr /\ (0 < comparison None x)%Z
  end.
Proof.
  induction arr as [|x arr IH] using rev_ind; [by left |].
  rewrite max_snoc.
  destruct (Z.ltb_spec 0 (comparison (max arr comparison) x)) as [Hlt|Hge].
  - destruct (max arr comparison) as [m|].
    + apply elem_of_app. by left.
    + right. exists x. split; [| done]. apply elem_of_app. right. left.
  - apply elem_of_app. right. left.
Qed.

Lemma max_byLength_last (arr : list string) :
  match max arr byLength with
  | Some m =>
      exists before after,
        arr = before ++ m :: after
        /\ (forall z, z ∈ before -> String.length z <= String.length m)
        /\ (forall z, z ∈ after -> String.length z < String.length m)
  | None => arr = []
  end.
Proof.
  induction arr as [|x arr IH] using rev_ind; [done |].
  rewrite max_snoc. destruct (max arr byLength) as [m|]; simpl.
  - destruct IH as (before & after & -> & Hb & Ha).
    destruct (Z.eqb_spec (Z.of_nat (String.length m)
                          - Z.of_nat (String.length x)) 0) as [Hz|Hz];
      [| destruct (Z.ltb_spec 0 (Z.of_nat (String.length m)
                                 - Z.of_nat (String.length x))) as [Hlt|Hge]].
    + simpl. exists (before ++ m :: after), []. split; [done |].
      split; [| intros z Hz'; by apply elem_of_nil in Hz'].
      intros z Hin. apply elem_of_app in Hin as [Hin|Hin];
        [apply Hb in Hin; lia |].
      apply elem_of_cons in Hin as [->|Hin]; [lia |].
      apply Ha in Hin. lia.
    + exists before, (after ++ [x]). split; [by rewrite <- app_assoc |].
      split; [done |]. intros z Hin.
      apply elem_of_app in Hin as [Hin|Hin]; [by apply Ha |].
      apply list_elem_of_singleton in Hin as ->. lia.
    + exists (before ++ m :: after), []. split; [done |].
      split; [| intros z Hz'; by apply elem_of_nil in Hz'].
      intros z Hin. apply elem_of_app in Hin as [Hin|Hin];
        [apply Hb in Hin; lia |].
      apply elem_of_cons in Hin as [->|Hin]; [lia |].
      apply Ha in Hin. lia.
  - subst arr. exists [], []. split; [done |].
    split; intros z Hz; by apply elem_of_nil in Hz.
Qed.

(** X17.  Whatever the comparison, what [max] returns is an element of the
    array, and it returns nothing only for the empty array or when the
    comparison prefers nothing to an element.  With the comparison of the
    constructor it returns nothing exactly for the empty array, and
    otherwise the last of the longest strings: one at least as long as
    every string before it and longer than every string after it. *)
Theorem max_picks_last_longest (arr : list string) :
  (forall (T : Type) (xs : list T) (comparison : option T -> T -> Z) x,
      max xs comparison = Some x -> x ∈ xs)
  /\ (forall (T : Type) (xs : list T) (comparison : option T -> T -> Z),
        max xs comparison = None ->
        xs = [] \/ exists x, x ∈ xs /\ (0 < comparison None x)%Z)
  /\ (max arr byLength = None <-> arr = [])
  /\ (forall m, max arr byLength = Some m <->
        exists before after,
          arr = before ++ m :: after
          /\ (forall z, z ∈ before -> String.length z <= String.length m)
          /\ (forall z, z ∈ after -> String.length z < String.length m)).
Proof.
  split; [| split; [| split]].
  - intros T xs comparison x Hx.
    pose proof (max_member xs comparison) as H. by rewrite Hx in H.
  - intros T xs comparison Hx.
    pose proof (max_member xs comparison) as H. by rewrite Hx in H.
  - pose proof (max_byLength_last arr) as H. split.
    + intros Hn. by rewrite Hn in H.
    + by intros ->.
  - intros m. pose proof (max_byLength_last arr) as H. split.
    + intros Hm. by rewrite Hm in H.
    + intros (before & after & Heq & Hb & Ha).
      destruct (max arr byLength) as [m'|]; [| by destruct before; subst].
      destruct H as (before' & after' & Heq' & Hb' & Ha'). f_equal.
      rewrite Heq in Heq'. clear Heq.
      revert before' Heq' Hb'.
      induction before as [|y before IH]; intros before' Heq' Hb'.
      * destruct before' as [|y' before']; simpl in Heq'.
        -- by injection Heq'.
        -- injection Heq' as -> ->.
           assert (String.length m' < String.length y').
           { apply Ha, elem_of_app. right. left. }
           assert (String.length y' <= String.length m') by (apply Hb'; left).
           lia.
      * destruct before' as [|y' before']; simpl in Heq'.
        -- injection Heq' as Hy <-.
           assert (String.length m < String.length m').
           { apply Ha', elem_of_app. right. left. }
           assert (String.length y <= String.length m) by (apply Hb; left).
           rewrite Hy in *. lia.
        -- injection Heq' as -> Heq'.
           apply (IH (fun z Hz => Hb z (list_elem_of_further _ _ _ Hz))
                    before' Heq').
           intros z Hz. apply Hb'. by right.
Qed.

(** ** When [resolveElement] returns *)

Lemma flattened_sourcesOf σ analysis behaviors flattened f :
  getFlattenedAndResolvedBehaviors σ behaviors analysis = Ok flattened ->
  exists sources, sourcesOf σ f flattened = Ok sources.
Proof.
  unfold getFlattenedAndResolvedBehaviors. intros H.
  apply sourcesOf_returns. intros b Hb.
  destruct (flatten_in_store _ _ _ _ _ _ H b Hb) as [Hnil|?]; [| done].
  by apply elem_of_nil in Hnil.
Qed.

Lemma resolveElement_returns (σ : Store) (elementDescriptor : loc)
  (analysis : Analysis) (e : ElementObj) :
  elementObjects σ !! elementDescriptor = Some e ->
  (exists r, resolveElement σ elementDescriptor analysis = Ok r)
  <-> (e_class e = PolymerElementDescriptorClass ->
       forall r, encountered σ analysis (e_behaviors e) r ->
                 resolves σ analysis r).
Proof.
  intros He. unfold resolveElement. rewrite He.
  destruct (e_class e) eqn:Hclass; simpl.
  - split; [done |]. intros _. by eexists.
  - split; [done |]. intros _. by eexists.
  - destruct (getFlattenedAndResolvedBehaviors σ (e_behaviors e) analysis)
      as [flattened|err0|] eqn:Hflat; simpl.
    + destruct (flattened_sourcesOf _ _ _ _ b_properties Hflat) as [ps ->].
      destruct (flattened_sourcesOf _ _ _ _ b_attributes Hflat) as [as_ ->].
      destruct (flattened_sourcesOf _ _ _ _ b_events Hflat) as [es ->].
      simpl. split; [| intros _; by eexists].
      intros _ _. by apply (flatten_Ok_all_resolve σ analysis _ flattened).
    + split; [by intros [? ?] |]. intros Hall.
      destruct (flatten_returns σ analysis (e_behaviors e) (Hall eq_refl))
        as [V HV].
      congruence.
    + split; [by intros [? ?] |]. intros Hall.
      destruct (flatten_returns σ analysis (e_behaviors e) (Hall eq_refl))
        as [V HV].
      congruence.
Qed.

(** X18.  On an element of the store, [resolveElement] returns exactly
    when the element is not a Polymer element or every entry that the
    traversal of its behaviors can come across resolves.  It throws only
    for a Polymer element, and then reports a name that the traversal came
    across and that the index does not hold. *)
Theorem resolveElement_returns_iff (σ : Store) (elementDescriptor : loc)
  (analysis : Analysis) (e : ElementObj) :
  elementObjects σ !! elementDescriptor = Some e ->
  ((exists r, resolveElement σ elementDescriptor analysis = Ok r)
   <-> (e_class e = PolymerElementDescriptorClass ->
        forall r, encountered σ analysis (e_behaviors e) r ->
                  resolves σ analysis r))
  /\ (forall err,
        resolveElement σ elementDescriptor analysis = Throw err ->
        e_class e = PolymerElementDescriptorClass
        /\ exists n, err = UnresolvedBehavior n
                     /\ getBehavior analysis n = None
                     /\ encountered σ analysis (e_behaviors e) (ByName n)).
Proof.
  intros He. split; [by apply resolveElement_returns |].
  intros err. unfold resolveElement. rewrite He.
  destruct (e_class e) eqn:Hclass; simpl; [done | done |].
  destruct (getFlattenedAndResolvedBehaviors σ (e_behaviors e) analysis)
    as [flattened|err0|] eqn:Hflat; simpl; [| | done].
  - destruct (flattened_sourcesOf _ _ _ _ b_properties Hflat) as [ps ->].
    destruct (flattened_sourcesOf _ _ _ _ b_attributes Hflat) as [as_ ->].
    by destruct (flattened_sourcesOf _ _ _ _ b_events Hflat) as [es ->].
  - intros [= <-]. split; [done |]. by apply flatten_Throw in Hflat.
Qed.

Lemma resolveElement_returns_iff_witness :
  elementObjects sampleStore !! 10 = Some x_a
  /\ ((exists r, resolveElement sampleStore 10 sampleIndexed = Ok r)
      <-> (e_class x_a = PolymerElementDescriptorClass ->
           forall r, encountered sampleStore sampleIndexed (e_behaviors x_a) r
                     -> resolves sampleStore sampleIndexed r)).
Proof.
  assert (H : elementObjects sampleStore !! 10 = Some x_a).
  { vm_compute. reflexivity. }
  split; [exact H |].
  exact (proj1 (resolveElement_returns_iff sampleStore 10 sampleIndexed x_a H)).
Defined.

(** ** When the construction returns *)

Lemma flatten_congr σ σ1 a a1 :
  behaviorObjects σ1 = behaviorObjects σ ->
  _behaviorsByIdentifierName a1 = _behaviorsByIdentifierName a ->
  forall fuel bs V,
    _getFlattenedAndResolvedBehaviors fuel σ1 bs a1 V
    = _getFlattenedAndResolvedBehaviors fuel σ bs a V.
Proof.
  intros Hbeh Hidx fuel.
  induction fuel as [|fuel IHf]; intros bs; [done |].
  induction bs as [|r rest IHb]; intros V; [done |].
  rewrite !flatten_cons, (lookupBehavior_index a1 a r Hidx).
  destruct (lookupBehavior a r) as [b| |]; cbv beta iota delta [bind];
    [| done | done].
  destruct (set_has V b); [apply IHb |].
  rewrite Hbeh. destruct (behaviorObjects σ !! b) as [obj|]; [| done].
  rewrite IHf.
  destruct (_getFlattenedAndResolvedBehaviors fuel σ (b_behaviors obj) a
              (set_add V b)) as [V1| |]; [| done | done].
  apply IHb.
Qed.

Lemma sourcesOf_congr σ σ1 f behaviors :
  behaviorObjects σ1 = behaviorObjects σ ->
  sourcesOf σ1 f behaviors = sourcesOf σ f behaviors.
Proof.
  intros Hbeh. unfold sourcesOf. apply forEach_ext.
  intros b acc. by rewrite Hbeh.
Qed.

Lemma resolveElement_congr σ σ1 a a1 l :
  behaviorObjects σ1 = behaviorObjects σ ->
  _behaviorsByIdentifierName a1 = _behaviorsByIdentifierName a ->
  elementObjects σ1 !! l = elementObjects σ !! l ->
  (exists r, resolveElement σ1 l a1 = Ok r)
  <-> (exists r, resolveElement σ l a = Ok r).
Proof.
  intros Hbeh Hidx Hl. unfold resolveElement. rewrite Hl.
  destruct (elementObjects σ !! l) as [e|]; [| done].
  unfold getFlattenedAndResolvedBehaviors, flattenFuel.
  rewrite Hbeh, (flatten_congr σ σ1 a a1 Hbeh Hidx).
  set (F := _getFlattenedAndResolvedBehaviors (S (size (behaviorObjects σ)))
              σ (e_behaviors e) a []).
  destruct (e_class e); simpl;
    try (split; intros _; by eexists).
  destruct F as [V| |]; simpl; try (split; by intros [? ?]).
  rewrite !(sourcesOf_congr σ σ1) by done.
  destruct (sourcesOf σ b_properties V); simpl; try (split; by intros [? ?]).
  destruct (sourcesOf σ b_attributes V); simpl; try (split; by intros [? ?]).
  destruct (sourcesOf σ b_events V); simpl; try (split; by intros [? ?]).
  split; intros _; by eexists.
Qed.

Lemma indexElement_returns pg eg l σ this :
  is_Some (elementPaths eg !! l) ->
  (exists st, indexElement pg eg l (σ, this) = Ok st)
  <-> (exists r, resolveElement σ l this = Ok r).
Proof.
  intros [p Hp]. unfold indexElement.
  destruct (resolveElement σ l this) as [[σ1 c]| |] eqn:Hr; simpl;
    try (split; by intros [? ?]).
  apply resolveElement_Ok in Hr as (e & ps & as_ & es & _ & Ha).
  assert (Hc : elementObjects σ1 !! c = Some (cloneWith e ps as_ es)).
  { pose proof (alloc_lookup σ (cloneWith e ps as_ es)) as Hl.
    by rewrite <- Ha in Hl. }
  rewrite Hc, Hp. simpl. split; intros _; by eexists.
Qed.

Lemma indexElements_returns pg eg elements σ0 this0 σ this :
  extendsStore σ0 σ ->
  _behaviorsByIdentifierName this = _behaviorsByIdentifierName this0 ->
  (forall l, l ∈ elements -> is_Some (elementObjects σ0 !! l)) ->
  (forall l, l ∈ elements -> is_Some (elementPaths eg !! l)) ->
  (exists st, forEach (indexElement pg eg) elements (σ, this) = Ok st)
  <-> (forall l, l ∈ elements ->
                 exists r, resolveElement σ0 l this0 = Ok r).
Proof.
  revert σ this.
  induction elements as [|l elements IH]; intros σ this Hext Hidx Hin Hpaths.
  - split; [| by eexists]. intros _ l Hl. by apply elem_of_nil in Hl.
  - rewrite forEach_cons.
    assert (Hhead : (exists st, indexElement pg eg l (σ, this) = Ok st)
                    <-> (exists r, resolveElement σ0 l this0 = Ok r)).
    { rewrite indexElement_returns by (apply Hpaths; left).
      apply resolveElement_congr; [apply Hext | done |].
      apply Hext, Hin. left. }
    assert (Htail : forall σ1 this1,
              indexElement pg eg l (σ, this) = Ok (σ1, this1) ->
              (exists st, forEach (indexElement pg eg) elements (σ1, this1)
                          = Ok st)
              <-> (forall l', l' ∈ elements ->
                              exists r, resolveElement σ0 l' this0 = Ok r)).
    { intros σ1 this1 H1.
      apply indexElement_Ok in H1
        as (e & ps & as_ & es & m & _ & _ & -> & _ & _ & Hb1 & _).
      apply IH.
      - apply (extendsStore_trans _ σ); [done | apply alloc_extends].
      - congruence.
      - intros l' Hl'. apply Hin. by right.
      - intros l' Hl'. apply Hpaths. by right. }
    split.
    + intros [st H]. apply bind_Ok in H as ([σ1 this1] & H1 & H2).
      intros l' Hl'. apply elem_of_cons in Hl' as [->|Hl'].
      * apply Hhead. by eexists.
      * apply (Htail _ _ H1); [by eexists | done].
    + intros Hall.
      destruct (proj2 Hhead (Hall l ltac:(left))) as [[σ1 this1] H1].
      rewrite H1. simpl. apply (Htail _ _ H1).
      intros l' Hl'. apply Hall. by right.
Qed.

(** X19.  On a store that holds the elements and behaviors of the forest,
    the construction returns exactly when its walk returns and, for every
    Polymer element gathered, every entry that the traversal of its
    behaviors can come across resolves in the index of the gathered
    behaviors.  Elements of another class never make it fail. *)
Theorem construction_returns_iff (path : Path) (σ : Store)
  (descriptors : list DocumentDescriptor) :
  (forall l, inForest descriptors (DElement l) ->
             is_Some (elementObjects σ !! l)) ->
  (forall b, inForest descriptors (DBehavior b) ->
             is_Some (behaviorObjects σ !! b)) ->
  (exists r, Analysis_new path σ descriptors = Ok r)
  <-> exists g,
        gathered path descriptors = Ok g
        /\ forall l e,
             l ∈ elementDescriptors (elementsGatherer g) ->
             elementObjects σ !! l = Some e ->
             e_class e = PolymerElementDescriptorClass ->
             forall r,
               encountered σ (indexed σ descriptors g) (e_behaviors e) r ->
               resolves σ (indexed σ descriptors g) r.
Proof.
  intros Hels Hbehs. rewrite Analysis_new_unfold.
  assert (Hloop : forall g index,
    gathered path descriptors = Ok g ->
    forEach (indexBehavior σ) (behaviorDescriptors (elementsGatherer g)) ∅
    = Ok index ->
    (exists st,
        forEach (indexElement (packageGatherer g) (elementsGatherer g))
          (elementDescriptors (elementsGatherer g))
          (σ, mkAnalysis descriptors [] ∅ index ∅) = Ok st)
    <-> forall l e,
          l ∈ elementDescriptors (elementsGatherer g) ->
          elementObjects σ !! l = Some e ->
          e_class e = PolymerElementDescriptorClass ->
          forall r,
            encountered σ (indexed σ descriptors g) (e_behaviors e) r ->
            resolves σ (indexed σ descriptors g) r).
  { intros g index Hg Hindex.
    destruct (gathered_inForest _ _ _ Hg) as ((_ & _ & Hpaths & _) & He & _).
    assert (Hthis : indexed σ descriptors g
                    = mkAnalysis descriptors [] ∅ index ∅).
    { unfold indexed, indexOf. by rewrite Hindex. }
    rewrite Hthis.
    rewrite (indexElements_returns _ _ _ σ
               (mkAnalysis descriptors [] ∅ index ∅));
      [| apply extendsStore_refl | done
       | intros l Hl; by apply Hels, He
       | intros l Hl; by apply Hpaths].
    split.
    - intros Hall l e Hl Hobj.
      by apply (resolveElement_returns σ l _ e Hobj), Hall.
    - intros Hall l Hl. destruct (Hels l) as [e Hobj]; [by apply He |].
      apply (resolveElement_returns σ l _ e Hobj). by apply (Hall l e). }
  split.
  - intros [r H]. apply bind_Ok in H as (g & Hg & H).
    apply bind_Ok in H as (index & Hindex & H).
    apply bind_Ok in H as (st & Hst & _).
    exists g. split; [done |].
    apply (Hloop g index Hg Hindex). by exists st.
  - intros (g & Hg & Hall). rewrite Hg. simpl.
    destruct (gathered_inForest _ _ _ Hg) as (_ & _ & Hb).
    destruct (indexBehaviors_returns σ
                (behaviorDescriptors (elementsGatherer g)) ∅) as [index Hindex].
    { intros b Hin. by apply Hbehs, Hb. }
    rewrite Hindex. simpl.
    destruct (proj2 (Hloop g index Hg Hindex) Hall) as [[σ1 this1] Hst].
    rewrite Hst. simpl. by eexists.
Qed.

Lemma construction_returns_iff_witness :
  (forall l, inForest sampleForest (DElement l) ->
             is_Some (elementObjects sampleStore !! l))
  /\ (forall b, inForest sampleForest (DBehavior b) ->
                is_Some (behaviorObjects sampleStore !! b))
  /\ ((exists r, Analysis_new posixPath sampleStore sampleForest = Ok r)
      <-> exists g,
            gathered posixPath sampleForest = Ok g
            /\ forall l e,
                 l ∈ elementDescriptors (elementsGatherer g) ->
                 elementObjects sampleStore !! l = Some e ->
                 e_class e = PolymerElementDescriptorClass ->
                 forall r,
                   encountered sampleStore
                     (indexed sampleStore sampleForest g) (e_behaviors e) r ->
                   resolves sampleStore
                     (indexed sampleStore sampleForest g) r).
Proof.
  assert (Hg : gathered posixPath sampleForest = Ok sampleGathered).
  { vm_compute. reflexivity. }
  destruct (gathered_inForest _ _ _ Hg) as (_ & He & Hb).
  assert (Hels : forall l, inForest sampleForest (DElement l) ->
                           is_Some (elementObjects sampleStore !! l)).
  { intros l Hl. apply He in Hl.
    change (l ∈ [10; 11]) in Hl.
    apply elem_of_cons in Hl as [->|Hl]; [by eexists |].
    apply list_elem_of_singleton in Hl as ->. by eexists. }
  assert (Hbehs : forall b, inForest sampleForest (DBehavior b) ->
                            is_Some (behaviorObjects sampleStore !! b)).
  { intros b Hin. apply Hb in Hin.
    change (b ∈ [20]) in Hin.
    apply list_elem_of_singleton in Hin as ->. by eexists. }
  split; [exact Hels |]. split; [exact Hbehs |].
  exact (construction_returns_iff posixPath sampleStore sampleForest
           Hels Hbehs).
Defined.

(** ** Descriptors of an unknown kind *)

Lemma forEach_blocked {A S} (body : A -> S -> Outcome S) (xs : list A)
  (x : A) :
  x ∈ xs -> (forall s s', body x s <> Ok s') ->
  forall s s', forEach body xs s <> Ok s'.
Proof.
  intros Hin Hx. induction xs as [|y xs IH]; intros s s'.
  - by apply elem_of_nil in Hin.
  - rewrite forEach_cons. intros H. apply bind_Ok in H as (s1 & H1 & H2).
    apply elem_of_cons in Hin as [<-|Hin]; [by apply (Hx s s1) |].
    by apply (IH Hin s1 s').
Qed.

(** X20.  A walk of a forest that holds a descriptor of an unknown kind,
    where the walk can reach it, never returns, whatever the visitors are
    and do; the construction on such a forest throws. *)
Theorem walk_unknown_never_returns (documents : list DocumentDescriptor)
  (inspected : string) :
  inForest documents (DUnknown inspected) ->
  (forall (S : Type) (visitors : list (AnalysisVisitor S)) (s s' : S),
      walk visitors documents s <> Ok s')
  /\ (forall path σ, exists e, Analysis_new path σ documents = Throw e).
Proof.
  intros Hin.
  apply (visitsOfForest_inForest documents (DUnknown inspected)
           (VUnknown inspected) eq_refl) in Hin.
  apply list_elem_of_fmap in Hin as ([v anc] & Hv & Hin). simpl in Hv.
  subst v. split.
  - intros S visitors s s'. rewrite walk_visits. intros H.
    apply bind_Ok in H as (s1 & H1 & _). revert H1.
    by apply (forEach_blocked _ _ (VUnknown inspected, anc)).
  - intros path σ. rewrite Analysis_new_unfold, gathered_visits.
    pose proof (gather_outcome path (visitsOfForest documents) newGatherers)
      as Hout.
    destruct (forEach (gatherStep path) (visitsOfForest documents)
                newGatherers) as [g|e|] eqn:Hg; [| by exists e | done].
    exfalso. revert Hg.
    by apply (forEach_blocked _ _ (VUnknown inspected, anc)).
Qed.

Lemma walk_unknown_never_returns_witness :
  inForest oddForest (DUnknown "{ kind: 1 }")
  /\ (forall (S : Type) (visitors : list (AnalysisVisitor S)) (s s' : S),
         walk visitors oddForest s <> Ok s')
  /\ (forall path σ, exists e, Analysis_new path σ oddForest = Throw e).
Proof.
  assert (H : inForest oddForest (DUnknown "{ kind: 1 }")).
  { exists odd_html. split; [left |].
    apply (contains_entity odd_html (DUnknown "{ kind: 1 }"));
      [| constructor].
    right. left. }
  split; [exact H |].
  exact (walk_unknown_never_returns oddForest "{ kind: 1 }" H).
Defined.

(** ** The order of the gathered descriptors *)

Lemma visitElement_list d ancestors this this' :
  recordedOnce this ->
  ElementGatherer_visitElement d ancestors this = Ok this' ->
  elementDescriptors this' = set_add (elementDescriptors this) d
  /\ behaviorDescriptors this' = behaviorDescriptors this.
Proof.
  intros (_ & _ & He & _). unfold ElementGatherer_visitElement.
  destruct (_getPathFromAncestors ancestors) as [p|]; [| done].
  destruct (truthy p); simpl; [| done].
  destruct (elementPaths this !! d) as [q|] eqn:Hq.
  - destruct (decide (q = p)); [| done]. intros [= <-]. split; [| done].
    rewrite set_add_old; [done |]. apply He. by rewrite Hq.
  - intros [= <-]. simpl. split; [| done].
    rewrite set_add_new; [done |]. intros Hin. apply He in Hin.
    rewrite Hq in Hin. by destruct Hin.
Qed.

Lemma visitBehavior_list d ancestors this this' :
  recordedOnce this ->
  ElementGatherer_visitBehavior d ancestors this = Ok this' ->
  behaviorDescriptors this' = set_add (behaviorDescriptors this) d
  /\ elementDescriptors this' = elementDescriptors this.
Proof.
  intros (_ & _ & _ & Hb). unfold ElementGatherer_visitBehavior.
  destruct (_getPathFromAncestors ancestors) as [p|]; [| done].
  destruct (truthy p); simpl; [| done].
  destruct (behaviorPaths this !! d) as [q|] eqn:Hq.
  - destruct (decide (q = p)); [| done]. intros [= <-]. split; [| done].
    rewrite set_add_old; [done |]. apply Hb. by rewrite Hq.
  - intros [= <-]. simpl. split; [| done].
    rewrite set_add_new; [done |]. intros Hin. apply Hb in Hin.
    rewrite Hq in Hin. by destruct Hin.
Qed.

Lemma gather_order path visits g g' :
  recordedOnce (elementsGatherer g) ->
  forEach (gatherStep path) visits g = Ok g' ->
  elementDescriptors (elementsGatherer g')
  = foldl set_add (elementDescriptors (elementsGatherer g))
      (elementVisits visits)
  /\ behaviorDescriptors (elementsGatherer g')
     = foldl set_add (behaviorDescriptors (elementsGatherer g))
         (behaviorVisits visits).
Proof.
  revert g. induction visits as [|v visits IH]; intros g Hok H.
  - by injection H as <-.
  - rewrite forEach_cons in H. apply bind_Ok in H as (g1 & H1 & H2).
    destruct (gatherStep_elements _ _ _ _ Hok H1) as (Hok1 & _ & _).
    destruct (IH _ Hok1 H2) as [-> ->]. clear IH H2.
    destruct v as [[dd|idd|b|e|i|inspected] ancestors];
      unfold gatherStep in H1; simpl in H1;
      unfold elementVisits, behaviorVisits; simpl.
    + by injection H1 as <-.
    + by injection H1 as <-.
    + apply bind_Ok in H1 as (eg & Hv & [= <-]). simpl.
      by destruct (visitBehavior_list _ _ _ _ Hok Hv) as [-> ->].
    + apply bind_Ok in H1 as (eg & Hv & [= <-]). simpl.
      by destruct (visitElement_list _ _ _ _ Hok Hv) as [-> ->].
    + by injection H1 as <-.
    + done.
Qed.

(** X21.  After a walk of the constructor that returns, the gatherer lists
    the elements in the order in which the walk first visits them, each
    once, and the behaviors likewise. *)
Theorem gathered_in_first_visit_order (path : Path)
  (descriptors : list DocumentDescriptor) (g : Gatherers) :
  gathered path descriptors = Ok g ->
  elementDescriptors (elementsGatherer g)
  = firstOccurrences (elementVisits (visitsOfForest descriptors))
  /\ behaviorDescriptors (elementsGatherer g)
     = firstOccurrences (behaviorVisits (visitsOfForest descriptors)).
Proof.
  rewrite gathered_visits. intros H.
  by destruct (gather_order _ _ _ _ recordedOnce_new H) as [-> ->].
Qed.

Lemma gathered_in_first_visit_order_witness :
  gathered posixPath sampleForest = Ok sampleGathered
  /\ elementDescriptors (elementsGatherer sampleGathered)
     = firstOccurrences (elementVisits (visitsOfForest sampleForest))
  /\ behaviorDescriptors (elementsGatherer sampleGathered)
     = firstOccurrences (behaviorVisits (visitsOfForest sampleForest)).
Proof.
  assert (H : gathered posixPath sampleForest = Ok sampleGathered).
  { vm_compute. reflexivity. }
  split; [exact H |].
  exact (gathered_in_first_visit_order posixPath sampleForest _ H).
Defined.

(** ** [mergeByName] on a base with distinct names *)

Lemma firstDefining_app_skip n before rest :
  (forall s', s' ∈ before -> n ∉ name <$> vals s') ->
  firstDefining n (before ++ rest) = firstDefining n rest.
Proof.
  induction before as [|s before IH]; intros Hskip; simpl; [done |].
  assert (Hs : firstNamed n (vals s) = None).
  { apply firstNamed_None, Hskip. left. }
  rewrite Hs. apply IH. intros s' Hs'. apply Hskip. by right.
Qed.

Lemma firstDefining_split n inheritFrom x :
  firstDefining n inheritFrom = Some x ->
  exists before s after item,
    inheritFrom = before ++ s :: after
    /\ (forall s', s' ∈ before -> n ∉ name <$> vals s')
    /\ firstNamed n (vals s) = Some item
    /\ x = annotate s item.
Proof.
  induction inheritFrom as [|s rest IH]; simpl; [done |].
  destruct (firstNamed n (vals s)) as [item|] eqn:Hi.
  - intros [= <-]. exists [], s, rest, item. split; [done |].
    split; [| done]. intros s' Hs'. by apply elem_of_nil in Hs'.
  - intros Hx. destruct (IH Hx) as (before & s0 & after & item & -> & Hb
                                     & Hitem & ->).
    exists (s :: before), s0, after, item. split; [done |].
    split; [| done]. intros s' Hs'.
    apply elem_of_cons in Hs' as [->|Hs']; [by apply firstNamed_None | auto].
Qed.

(** C1.  For a base whose names are pairwise distinct, as the data model
    has them, the merged list keeps every base item verbatim, in order and
    ahead of everything else, and an item it holds under a base name is
    that base item, never a source's.  For a name absent from the base it
    holds the copy of the item of that name of the first source, in order,
    that defines the name, annotated with that source's name as
    [inheritedFrom]; it holds no other item of that name, so later
    sources that define the name contribute nothing; and it holds an item
    for no name that neither the base nor a source defines. *)
Theorem mergeByName_base_kept_first_source_wins (base : list Item)
  (inheritFrom : list Source) :
  NoDup (name <$> base) ->
  let merged := mergeByName base inheritFrom in
  base `prefix_of` merged
  /\ (forall x, x ∈ base -> x ∈ merged)
  /\ (forall x, x ∈ merged -> name x ∈ name <$> base -> x ∈ base)
  /\ NoDup (name <$> merged)
  /\ (forall before s after item,
        inheritFrom = before ++ s :: after ->
        (forall s', s' ∈ before -> name item ∉ name <$> vals s') ->
        firstNamed (name item) (vals s) = Some item ->
        name item ∉ name <$> base ->
        annotate s item ∈ merged
        /\ inheritedFrom (annotate s item) = source_name s
        /\ detail (annotate s item) = detail item
        /\ forall x, x ∈ merged -> name x = name item -> x = annotate s item)
  /\ (forall x, x ∈ merged -> name x ∉ name <$> base ->
        exists before s after item,
          inheritFrom = before ++ s :: after
          /\ (forall s', s' ∈ before -> name x ∉ name <$> vals s')
          /\ firstNamed (name x) (vals s) = Some item
          /\ x = annotate s item).
Proof.
  intros Hnd. simpl.
  destruct (mergeByName_resolves base inheritFrom)
    as (Hmerged & Hchar & Hbase & Hsrc & Hpre).
  assert (Hprefix : base `prefix_of` mergeByName base inheritFrom)
    by by apply Hpre.
  split; [done |]. split.
  { intros x Hx. destruct Hprefix as [k ->]. apply elem_of_app. by left. }
  split; [done |]. split; [done |]. split.
  - intros before s after item -> Hskip Hitem Hnew.
    assert (Hfirst : firstDefining (name item) (before ++ s :: after)
                     = Some (annotate s item)).
    { rewrite firstDefining_app_skip by done. simpl. by rewrite Hitem. }
    assert (Hres : resolvedItem (name item) base (before ++ s :: after)
                   = Some (annotate s item)).
    { unfold resolvedItem.
      by rewrite (proj2 (lastNamed_None (name item) base) Hnew). }
    split; [by apply Hchar |]. split; [done |]. split; [done |].
    intros x Hx Hname. apply Hchar in Hx. rewrite Hname in Hx. congruence.
  - intros x Hx Hnew. by apply firstDefining_split, Hsrc.
Qed.

(** The base [p], [q] and the sources [B2] with [p] and [r], then [B3] with
    [r]: [p] stays the base's, and [r] is the copy from [B2]. *)
Lemma mergeByName_base_kept_first_source_wins_witness :
  NoDup (name <$> [p_first; q_local])
  /\ mergeByName [p_first; q_local] sampleSources
     = [p_first; q_local; mkItem "r" (Some "B2") "from B2"]
  /\ [p_first; q_local] `prefix_of` mergeByName [p_first; q_local] sampleSources
  /\ forall x, x ∈ mergeByName [p_first; q_local] sampleSources ->
               name x ∈ name <$> [p_first; q_local] ->
               x ∈ [p_first; q_local].
Proof.
  assert (Hnd : NoDup (name <$> [p_first; q_local])).
  { apply (bool_decide_unpack _). vm_compute. exact I. }
  split; [exact Hnd |]. split; [reflexivity |].
  pose proof (mergeByName_base_kept_first_source_wins [p_first; q_local]
                sampleSources Hnd) as H.
  split; [exact (proj1 H) | exact (proj1 (proj2 (proj2 H)))].
Defined.

(** ** The resolved copies of a construction *)

Lemma behaviorEdge_congr σ σ1 a a1 l c :
  behaviorObjects σ1 = behaviorObjects σ ->
  _behaviorsByIdentifierName a1 = _behaviorsByIdentifierName a ->
  behaviorEdge σ a l c -> behaviorEdge σ1 a1 l c.
Proof.
  intros Hbeh Hidx (obj & r & Hobj & Hr & Hc). exists obj, r.
  rewrite Hbeh, (lookupBehavior_index a1 a r Hidx). by split.
Qed.

Lemma reachableFrom_congr σ σ1 a a1 bs l :
  behaviorObjects σ1 = behaviorObjects σ ->
  _behaviorsByIdentifierName a1 = _behaviorsByIdentifierName a ->
  reachableFrom σ a bs l -> reachableFrom σ1 a1 bs l.
Proof.
  intros Hbeh Hidx (r & l0 & Hr & Hl0 & Hpath). exists r, l0.
  split; [done |]. split; [by rewrite (lookupBehavior_index a1 a r Hidx) |].
  clear Hl0. induction Hpath as [|x y z Hxy _ IH]; [apply rtc_refl |].
  eapply rtc_l; [| exact IH]. by apply (behaviorEdge_congr σ σ1 a a1).
Qed.

Lemma inheritsFrom_congr σ σ1 a a1 bs own f merged :
  behaviorObjects σ1 = behaviorObjects σ ->
  _behaviorsByIdentifierName a1 = _behaviorsByIdentifierName a ->
  inheritsFrom σ a bs own f merged -> inheritsFrom σ1 a1 bs own f merged.
Proof.
  intros Hbeh Hidx (Hnd & Hnames & Horigin).
  assert (Hto : forall b, reachableFrom σ a bs b -> reachableFrom σ1 a1 bs b)
    by (intros b; by apply reachableFrom_congr).
  assert (Hfrom : forall b, reachableFrom σ1 a1 bs b -> reachableFrom σ a bs b)
    by (intros b; by apply reachableFrom_congr).
  split; [done |]. split.
  - intros n. rewrite Hnames. split.
    + intros [?|(b & obj & Hb & Hobj & Hn)]; [by left |]. right.
      exists b, obj. rewrite Hbeh. split; [by apply Hto | done].
    + intros [?|(b & obj & Hb & Hobj & Hn)]; [by left |]. right.
      exists b, obj. rewrite Hbeh in Hobj. split; [by apply Hfrom | done].
  - intros x Hx. destruct (Horigin x Hx) as [?|(b & obj & i & Hb & Hobj & Hi)];
      [by left |].
    right. exists b, obj, i. rewrite Hbeh. split; [by apply Hto | done].
Qed.

Lemma resolvedAgainst_congr σ σ1 a a1 e obj :
  behaviorObjects σ1 = behaviorObjects σ ->
  _behaviorsByIdentifierName a1 = _behaviorsByIdentifierName a ->
  resolvedAgainst σ a e obj -> resolvedAgainst σ1 a1 e obj.
Proof.
  intros Hbeh Hidx [Hpoly Hother]. split; [| done].
  intros Hclass. destruct (Hpoly Hclass) as (Hp & Ha & He).
  split; [| split]; by apply (inheritsFrom_congr σ σ1 a a1).
Qed.

(** What [resolveElement] returns: a new object, with the fields of the
    element and the three lists resolved. *)
Lemma resolveElement_resolvedAgainst σ l analysis σ' c :
  resolveElement σ l analysis = Ok (σ', c) ->
  exists e obj,
    elementObjects σ !! l = Some e
    /\ σ' = (alloc σ obj).1
    /\ c = (alloc σ obj).2
    /\ e_class obj = PlainObject
    /\ tagName obj = tagName e
    /\ e_behaviors obj = e_behaviors e
    /\ e_other obj = e_other e
    /\ resolvedAgainst σ analysis e obj.
Proof.
  unfold resolveElement.
  destruct (elementObjects σ !! l) as [e|]; [| done].
  intros H. exists e. unfold resolvedAgainst.
  destruct (e_class e) eqn:Hclass.
  - simpl in H. injection H as <- <-. eexists.
    do 7 (split; [done |]). by split.
  - simpl in H. injection H as <- <-. eexists.
    do 7 (split; [done |]). by split.
  - apply bind_Ok in H as ([[ps as_] es] & Hm & H).
    apply bind_Ok in Hm as (flattened & Hflat & Hm).
    apply bind_Ok in Hm as (sp & Hsp & Hm).
    apply bind_Ok in Hm as (sa & Hsa & Hm).
    apply bind_Ok in Hm as (se & Hse & Hm).
    injection Hm as <- <- <-. injection H as <- <-. eexists.
    do 7 (split; [done |]). split; [| done]. intros _. simpl.
    split; [by apply (merged_inheritsFrom _ _ _ _ _ flattened) |].
    split; by apply (merged_inheritsFrom _ _ _ _ _ flattened).
Qed.

(** One turn of the second loop of the constructor. *)
Lemma indexElement_step pg eg l σ this σ1 this1 :
  indexElement pg eg l (σ, this) = Ok (σ1, this1) ->
  exists e obj matching,
    let c := (alloc σ obj).2 in
    let d := longestOf matching in
    elementObjects σ !! l = Some e
    /\ σ1 = (alloc σ obj).1
    /\ e_class obj = PlainObject
    /\ tagName obj = tagName e
    /\ e_behaviors obj = e_behaviors e
    /\ e_other obj = e_other e
    /\ resolvedAgainst σ this e obj
    /\ matchingPackageDirs (packageDirs pg) (elementPaths eg !! l)
       = Ok matching
    /\ _elementsByTagName this1 =
       match tagName e with
       | Some tag =>
           if truthy tag then map_set (_elementsByTagName this) tag c
           else _elementsByTagName this
       | None => _elementsByTagName this
       end
    /\ _elementsByPackageDir this1 =
       <[d := default [] (_elementsByPackageDir this !! d) ++ [c]]>
         (_elementsByPackageDir this)
    /\ _behaviorsByIdentifierName this1 = _behaviorsByIdentifierName this.
Proof.
  unfold indexElement. intros H.
  apply bind_Ok in H as ([σr cr] & Hr & H).
  apply resolveElement_resolvedAgainst in Hr
    as (e & obj & He & -> & -> & Hclass & Htag & Hbeh & Hother & Hres).
  rewrite alloc_lookup in H.
  apply bind_Ok in H as (matching & Hm & H). injection H as <- <-.
  exists e, obj, matching. simpl. rewrite Htag.
  do 8 (split; [done |]). by split.
Qed.

Lemma indexElements_resolved pg eg elements σ this σ' this' :
  (forall l, l ∈ elements -> is_Some (elementPaths eg !! l)) ->
  forEach (indexElement pg eg) elements (σ, this) = Ok (σ', this') ->
  exists resolved,
    length resolved = length elements
    /\ extendsStore σ σ'
    /\ _behaviorsByIdentifierName this' = _behaviorsByIdentifierName this
    /\ (forall d x, x ∈ default [] (_elementsByPackageDir this !! d) ->
                    x ∈ default [] (_elementsByPackageDir this' !! d))
    /\ Forall2
         (fun l c =>
            exists e obj p,
              elementObjects σ' !! l = Some e
              /\ elementObjects σ' !! c = Some obj
              /\ e_class obj = PlainObject
              /\ tagName obj = tagName e
              /\ e_behaviors obj = e_behaviors e
              /\ e_other obj = e_other e
              /\ resolvedAgainst σ' this' e obj
              /\ elementPaths eg !! l = Some p
              /\ c ∈ default []
                       (_elementsByPackageDir this'
                          !! longestMatchingPackageDir (packageDirs pg) p))
         elements resolved
    /\ (forall t c, (t, c) ∈ _elementsByTagName this' ->
          (t, c) ∈ _elementsByTagName this
          \/ exists obj, elementObjects σ' !! c = Some obj
                         /\ tagName obj = Some t).
Proof.
  intros Hpaths. revert σ this.
  induction elements as [|l elements IH]; intros σ this H; simpl in H.
  - injection H as <- <-. exists [].
    split; [done |]. split; [apply extendsStore_refl |]. split; [done |].
    split; [done |]. split; [constructor |]. intros t c Hin. by left.
  - apply bind_Ok in H as ([σ1 this1] & Hstep & Hrest).
    apply indexElement_step in Hstep
      as (e & obj & matching & He & Hσ1 & Hclass & Htn & Hbs & Hother & Hres
          & Hm & Htag & Hpkg & Hidx).
    destruct (Hpaths l) as [p Hp]; [left |].
    rewrite Hp in Hm. simpl in Hm. injection Hm as <-.
    fold (longestMatchingPackageDir (packageDirs pg) p) in Hpkg.
    simpl in *.
    set (c := (alloc σ obj).2) in *.
    set (d0 := longestMatchingPackageDir (packageDirs pg) p) in *.
    destruct (IH (fun l' Hl' => Hpaths l' (list_elem_of_further _ _ _ Hl'))
                _ _ Hrest)
      as (cs & Hlen & Hext & Hidx' & Hmono & Hall & Htags).
    assert (Hext1 : extendsStore σ σ1) by (subst σ1; apply alloc_extends).
    assert (Hc1 : elementObjects σ1 !! c = Some obj)
      by (subst σ1; apply alloc_lookup).
    assert (Hext' : extendsStore σ σ') by by apply (extendsStore_trans _ σ1).
    assert (Hc' : elementObjects σ' !! c = Some obj).
    { destruct Hext as [Hext _]. rewrite Hext; [done | by rewrite Hc1]. }
    exists (c :: cs). split; [simpl; by rewrite Hlen |].
    split; [done |]. split; [congruence |]. split.
    { intros d x Hx. apply Hmono. rewrite Hpkg.
      destruct (decide (d0 = d)) as [<-|Hne].
      - rewrite lookup_insert_eq. simpl. apply elem_of_app. by left.
      - by rewrite lookup_insert_ne. }
    split.
    { constructor; [| done]. exists e, obj, p.
      split.
      { destruct Hext' as [Hext' _]. rewrite Hext'; [done | by rewrite He]. }
      do 5 (split; [done |]). split.
      { apply (resolvedAgainst_congr σ σ' this this'); [apply Hext' | | done].
        congruence. }
      split; [done |]. apply Hmono. rewrite Hpkg, lookup_insert_eq. simpl.
      apply elem_of_app. right. left. }
    intros t c' Hin. destruct (Htags t c' Hin) as [Hin1|?]; [| by right].
    rewrite Htag in Hin1.
    assert (Hcase : (t, c') ∈ _elementsByTagName this
                    \/ (tagName e = Some t /\ c' = c)).
    { destruct (tagName e) as [tag|]; [| by left].
      destruct (truthy tag); [| by left].
      apply map_set_elem in Hin1 as [?|[= -> ->]]; [by left | by right]. }
    destruct Hcase as [?|[Ht ->]]; [by left |]. right.
    exists obj. split; [done | congruence].
Qed.

(** C10.  In a construction that returns, an element gathered without a tag
    name is resolved: the construction makes a copy of it that holds what
    resolving the element against the instance gives, the three lists
    merged with those of its behaviors for a Polymer element and the
    element's own otherwise.  The copy is filed in the bucket of the
    element's directory and is not a value of the tag-name index:
    [getElement] returns it for no tag and [getElements], which lists the
    values of that index, does not hold it. *)
Theorem untagged_element_filed_not_indexed (path : Path) (σ : Store)
  (descriptors : list DocumentDescriptor) (σ' : Store) (a : Analysis)
  (g : Gatherers) :
  gathered path descriptors = Ok g ->
  Analysis_new path σ descriptors = Ok (σ', a) ->
  let pg := packageGatherer g in
  let eg := elementsGatherer g in
  getElements a = (_elementsByTagName a).*2
  /\ exists resolved : list loc,
       length resolved = length (elementDescriptors eg)
       /\ forall i l c e,
            elementDescriptors eg !! i = Some l -> resolved !! i = Some c ->
            elementObjects σ !! l = Some e -> tagName e = None ->
            resolvedCopyOf σ' l c
            /\ (exists obj, elementObjects σ' !! c = Some obj
                            /\ resolvedAgainst σ' a e obj)
            /\ (exists p bucket,
                   elementPaths eg !! l = Some p
                   /\ getElementsForPackage a
                        (longestMatchingPackageDir (packageDirs pg) p)
                      = Some bucket
                   /\ c ∈ bucket)
            /\ (c ∉ getElements a)
            /\ (forall tag, getElement a tag <> Some c).
Proof.
  intros Hg H. simpl. split; [done |].
  apply Analysis_new_Ok in H as (g' & index & this' & Hg' & _ & Hloop & ->).
  rewrite Hg in Hg'. injection Hg' as <-.
  destruct (gathered_inForest _ _ _ Hg) as ((_ & _ & Hpaths & _) & _).
  apply indexElements_resolved in Hloop
    as (cs & Hlen & Hext & Hidx & _ & Hall & Htags);
    [| intros l Hl; by apply Hpaths].
  exists cs. split; [done |].
  intros i l c e Hl Hc He Htag.
  destruct (Forall2_lookup_lr _ _ _ _ _ _ Hall Hl Hc)
    as (e' & obj & p & He' & Hobj & Hclass & Htn & Hbs & Hoth & Hres & Hp
        & Hbucket).
  assert (e' = e) as ->.
  { destruct Hext as [Hext _]. rewrite Hext in He' by by rewrite He.
    congruence. }
  assert (Hnotag : forall t, (t, c) ∉ _elementsByTagName this').
  { intros t Hin. destruct (Htags t c Hin) as [Hin0|(obj' & Hobj' & Ht)].
    - simpl in Hin0. by apply elem_of_nil in Hin0.
    - congruence. }
  split; [by exists e, obj |]. split; [| split; [| split]].
  - exists obj. split; [done |].
    by apply (resolvedAgainst_congr σ' σ' this').
  - exists p. unfold getElementsForPackage. simpl.
    destruct (_elementsByPackageDir this' !! _) as [bucket|];
      [by exists bucket | by apply elem_of_nil in Hbucket].
  - unfold getElements, map_values. simpl. intros Hin.
    apply list_elem_of_fmap in Hin as ([t c'] & -> & Hin). by apply (Hnotag t).
  - unfold getElement. simpl. intros tag Hget.
    apply map_get_Some_elem in Hget. by apply (Hnotag tag).
Qed.

(** A Polymer element without a tag name that lists [B]: its resolved copy
    is [12], holds the property of [B] marked as inherited, is filed under
    [/a] and is in no tag-name entry. *)
Lemma untagged_element_filed_not_indexed_witness :
  elementDescriptors (elementsGatherer mixinGathered) = [11]
  /\ elementObjects mixinStore !! 11 = Some untaggedMixin
  /\ tagName untaggedMixin = None
  /\ getElements mixinConstructed.2 = []
  /\ getElementsForPackage mixinConstructed.2 "/a" = Some [12]
  /\ elementObjects mixinConstructed.1 !! 12
     = Some (cloneWith untaggedMixin [q_local; mkItem "p1" (Some "B") ""]
               [] [])
  /\ getElements mixinConstructed.2
     = (_elementsByTagName mixinConstructed.2).*2
  /\ exists resolved : list loc,
       length resolved
       = length (elementDescriptors (elementsGatherer mixinGathered))
       /\ forall i l c e,
            elementDescriptors (elementsGatherer mixinGathered) !! i = Some l ->
            resolved !! i = Some c ->
            elementObjects mixinStore !! l = Some e -> tagName e = None ->
            resolvedCopyOf mixinConstructed.1 l c
            /\ (exists obj,
                   elementObjects mixinConstructed.1 !! c = Some obj
                   /\ resolvedAgainst mixinConstructed.1 mixinConstructed.2
                        e obj)
            /\ (exists p bucket,
                   elementPaths (elementsGatherer mixinGathered) !! l = Some p
                   /\ getElementsForPackage mixinConstructed.2
                        (longestMatchingPackageDir
                           (packageDirs (packageGatherer mixinGathered)) p)
                      = Some bucket
                   /\ c ∈ bucket)
            /\ (c ∉ getElements mixinConstructed.2)
            /\ (forall tag, getElement mixinConstructed.2 tag <> Some c).
Proof.
  split; [vm_compute; reflexivity |]. split; [vm_compute; reflexivity |].
  split; [reflexivity |]. split; [vm_compute; reflexivity |].
  split; [vm_compute; reflexivity |]. split; [vm_compute; reflexivity |].
  apply (untagged_element_filed_not_indexed posixPath mixinStore
           mixinForest mixinConstructed.1 mixinConstructed.2
           mixinGathered).
  - vm_compute. reflexivity.
  - vm_compute. reflexivity.
Defined.

(** ** The unresolved name that the construction reports *)







